(** * SGAlib: a shallow embedding of the genetic algorithm engine

    The development follows [src/sga.hpp]: the [Random] helper, the
    [GeneticAlgorithm<T>] class with its population store (a
    [std::multimap<Score, Chromosome<T>>]), the three selection types, the
    crossover and mutation operators, the ending criteria and the
    [run]/[evolve] loop.

    Modelling choices.
    - [Score] is [double] in the source; it is a rational ([Q]) here, so sums,
      divisions and comparisons are exact: the rounding of the source is not
      modelled.  The total score and the cumulative scores of the sampling
      loop are therefore described by the order of their additions and by
      the conditions of the loops.
    - A scoped enumeration has the underlying type [int]: besides its
      enumerators, [EndingCriterion] and [SelectionType] each have one more
      constructor that stands for the values that are none of them, for
      which [isEvolutionOver] and [select] throw.
    - [unsigned] and [size_t] values are [nat], the [int] arguments of
      [Random::get(int, int)] are [Z]; container sizes are taken to be below
      [INT_MAX], so the conversions between them are exact.  The one wrap
      that matters, [size() - 1] on an empty container, shows as [-1].
    - The Mersenne twister is an infinite sequence of raw outputs with a
      cursor; every [Random::get] consumes one raw output and maps it into
      the requested range.  A range with [min > max] is undefined behaviour
      of the standard distributions and is a [Fault].
    - Undefined behaviour (dereferencing [prev(end())] of an empty map,
      indexing an empty vector) is the outcome [Fault]; a C++ exception is the
      outcome [Throw]; loops whose exit depends on the random draws take fuel
      and give [OutOfFuel] when it is exhausted.
    - The stream behind [_logStream] is the list of the lines written to it. *)

From Stdlib Require Import QArith Qround Lqa Lia ZArith String Sorted.
From stdpp Require Import base list.
Close Scope Q_scope.

(** ** Computations with a world, exceptions, faults and fuel *)

Inductive result (W A : Type) : Type :=
| Ok (a : A) (w : W)
| Throw (msg : string) (w : W)
| Fault
| OutOfFuel (w : W).

Arguments Ok {W A} a w.
Arguments Throw {W A} msg w.
Arguments Fault {W A}.
Arguments OutOfFuel {W A} w.

Definition M (W A : Type) : Type := W -> result W A.

Definition ret {W A} (a : A) : M W A := fun w => Ok a w.

Definition bind {W A B} (m : M W A) (k : A -> M W B) : M W B :=
  fun w =>
    match m w with
    | Ok a w' => k a w'
    | Throw msg w' => Throw msg w'
    | Fault => Fault
    | OutOfFuel w' => OutOfFuel w'
    end.

Definition throw {W A} (msg : string) : M W A := fun w => Throw msg w.
Definition fault {W A} : M W A := fun _ => Fault.
Definition out_of_fuel {W A} : M W A := fun w => OutOfFuel w.
Definition get {W} : M W W := fun w => Ok w w.
Definition modify {W} (f : W -> W) : M W unit := fun w => Ok tt (f w).

(** The value of an expression that is undefined on some inputs. *)
Definition defined {W A} (o : option A) : M W A :=
  match o with
  | Some a => ret a
  | None => fault
  end.

Notation "'let!' x ':=' m 'in' k" := (bind m (fun x => k))
  (at level 10, x pattern, m at level 100, k at level 200).

(** A computation on one component of a pair of worlds. *)
Definition on_fst {S R A} (m : M S A) : M (S * R) A :=
  fun w =>
    match m w.1 with
    | Ok a s => Ok a (s, w.2)
    | Throw msg s => Throw msg (s, w.2)
    | Fault => Fault
    | OutOfFuel s => OutOfFuel (s, w.2)
    end.

Definition on_snd {S R A} (m : M R A) : M (S * R) A :=
  fun w =>
    match m w.2 with
    | Ok a r => Ok a (w.1, r)
    | Throw msg r => Throw msg (w.1, r)
    | Fault => Fault
    | OutOfFuel r => OutOfFuel (w.1, r)
    end.

(** ** Introduction: scores, chromosomes, enumerations *)

Abbreviation Score := Q (only parsing).
Abbreviation Chromosome T := (list T) (only parsing).
Abbreviation Population T := (list (list T)) (only parsing).

Definition Qltb (x y : Q) : bool := negb (Qle_bool y x).

(** [enum class EndingCriterion { MaxScore, BestScore }].  A scoped
    enumeration has the underlying type [int], so a value that is none of the
    enumerators (a [static_cast] of another integer) is a value of the type
    too: [UnknownEndingCriterion] stands for all of these. *)
Inductive EndingCriterion : Type :=
  MaxScore | BestScore | UnknownEndingCriterion.

(** [enum class SelectionType { RouletteWheel, StochasticUniversal,
    Tournament }], with [UnknownSelectionType] for the values that are none
    of the enumerators. *)
Inductive SelectionType : Type :=
  RouletteWheel | StochasticUniversal | Tournament | UnknownSelectionType.

(** ** The random number generator *)

Record Random : Type := mkRandom {
  _engine : nat -> Q;
  _cursor : nat
}.

Module Random.

(** One raw output of the engine. *)
Definition next : M Random Q :=
  fun r => Ok (_engine r (_cursor r)) (mkRandom (_engine r) (S (_cursor r))).

(** The fractional part, in [0, 1). *)
Definition canonical (u : Q) : Q := (u - inject_Z (Qfloor u))%Q.

(** [get(double min, double max)]: a value of [min, max). *)
Definition get_double (min max : Q) : M Random Q :=
  if Qle_bool min max
  then let! u := next in ret (min + canonical u * (max - min))%Q
  else fault.

(** [get(int min, int max)]: a value of [min, max]. *)
Definition get_int (min max : Z) : M Random Z :=
  if (min <=? max)%Z
  then let! u := next in ret (min + Qfloor u mod (max - min + 1))%Z
  else fault.

(** [get(unsigned min, unsigned max)]: a value of [min, max]. *)
Definition get_unsigned (min max : nat) : M Random nat :=
  if min <=? max
  then let! u := next in
       ret (min + Z.to_nat (Qfloor u mod Z.of_nat (max - min + 1)))
  else fault.

End Random.

(** ** Algorithm declarations *)

(** The functions a subclass has to implement ([randomGene], [score]) and the
    one it may rewrite ([print]). *)
Class UserFunctions (T : Type) : Type := {
  randomGene : Random -> T * Random;
  score : Chromosome T -> Score;
  print : Chromosome T -> string
}.

(** A line written through the [LOG] macro. *)
Inductive LogLine : Type :=
| LogGeneration (generation : nat) (best : Score) (printed : string)
| LogCriterionMatched
| LogOver (best : Score) (printed : string)
| LogUserStopped.

Record GeneticAlgorithm (T : Type) : Type := mkGeneticAlgorithm {
  _populationSize : nat;
  _endCriterion : EndingCriterion;
  _selectionType : SelectionType;
  _mutationProbability : Q;
  _maxEndScore : Score;
  _steadyGenerations : nat;
  _tournamentSize : nat;
  _minChromosomeSize : nat;
  _maxChromosomeSize : nat;
  _population : list (Score * Chromosome T);
  _lastScores : list Score;
  _run : bool;
  _generation : nat;
  _logEnable : bool;
  _logStream : list LogLine
}.

Arguments mkGeneticAlgorithm {T}.
Arguments _populationSize {T}.
Arguments _endCriterion {T}.
Arguments _selectionType {T}.
Arguments _mutationProbability {T}.
Arguments _maxEndScore {T}.
Arguments _steadyGenerations {T}.
Arguments _tournamentSize {T}.
Arguments _minChromosomeSize {T}.
Arguments _maxChromosomeSize {T}.
Arguments _population {T}.
Arguments _lastScores {T}.
Arguments _run {T}.
Arguments _generation {T}.
Arguments _logEnable {T}.
Arguments _logStream {T}.

Section FieldUpdates.
Context {T : Type}.
Implicit Type a : GeneticAlgorithm T.

Definition set_population (v : list (Score * Chromosome T)) a :=
  mkGeneticAlgorithm (_populationSize a) (_endCriterion a) (_selectionType a)
    (_mutationProbability a) (_maxEndScore a) (_steadyGenerations a)
    (_tournamentSize a) (_minChromosomeSize a) (_maxChromosomeSize a)
    v (_lastScores a) (_run a) (_generation a) (_logEnable a) (_logStream a).

Definition set_lastScores (v : list Score) a :=
  mkGeneticAlgorithm (_populationSize a) (_endCriterion a) (_selectionType a)
    (_mutationProbability a) (_maxEndScore a) (_steadyGenerations a)
    (_tournamentSize a) (_minChromosomeSize a) (_maxChromosomeSize a)
    (_population a) v (_run a) (_generation a) (_logEnable a) (_logStream a).

Definition set_run (v : bool) a :=
  mkGeneticAlgorithm (_populationSize a) (_endCriterion a) (_selectionType a)
    (_mutationProbability a) (_maxEndScore a) (_steadyGenerations a)
    (_tournamentSize a) (_minChromosomeSize a) (_maxChromosomeSize a)
    (_population a) (_lastScores a) v (_generation a) (_logEnable a)
    (_logStream a).

Definition set_generation (v : nat) a :=
  mkGeneticAlgorithm (_populationSize a) (_endCriterion a) (_selectionType a)
    (_mutationProbability a) (_maxEndScore a) (_steadyGenerations a)
    (_tournamentSize a) (_minChromosomeSize a) (_maxChromosomeSize a)
    (_population a) (_lastScores a) (_run a) v (_logEnable a) (_logStream a).

Definition set_logEnable (v : bool) a :=
  mkGeneticAlgorithm (_populationSize a) (_endCriterion a) (_selectionType a)
    (_mutationProbability a) (_maxEndScore a) (_steadyGenerations a)
    (_tournamentSize a) (_minChromosomeSize a) (_maxChromosomeSize a)
    (_population a) (_lastScores a) (_run a) (_generation a) v (_logStream a).

Definition set_logStream (v : list LogLine) a :=
  mkGeneticAlgorithm (_populationSize a) (_endCriterion a) (_selectionType a)
    (_mutationProbability a) (_maxEndScore a) (_steadyGenerations a)
    (_tournamentSize a) (_minChromosomeSize a) (_maxChromosomeSize a)
    (_population a) (_lastScores a) (_run a) (_generation a) (_logEnable a) v.

End FieldUpdates.

(** ** The population store: a multimap ordered by ascending score *)

(** [std::multimap::insert]: the new entry goes to the upper bound of its key,
    after every entry whose key is not greater. *)
Fixpoint multimap_insert {V : Type} (k : Score) (v : V) (m : list (Score * V))
  : list (Score * V) :=
  match m with
  | [] => [(k, v)]
  | e :: m' => if Qltb k e.1 then (k, v) :: m else e :: multimap_insert k v m'
  end.

Section Engine.
Context {T : Type} `{UserFunctions T}.

Abbreviation GA := (GeneticAlgorithm T).
Abbreviation World := (GeneticAlgorithm T * Random)%type.

(** The constructor.  [_maxEndScore], [_steadyGenerations] and [_generation]
    are left uninitialised by the source: their values are arbitrary. *)
Definition GeneticAlgorithm_new (maxEndScore0 : Score)
    (steadyGenerations0 generation0 : nat) : GA :=
  {| _populationSize := 100;
     _endCriterion := BestScore;
     _selectionType := Tournament;
     _mutationProbability := (1 # 100)%Q;
     _maxEndScore := maxEndScore0;
     _steadyGenerations := steadyGenerations0;
     _tournamentSize := 10;
     _minChromosomeSize := 1;
     _maxChromosomeSize := 100;
     _population := [];
     _lastScores := [];
     _run := false;
     _generation := generation0;
     _logEnable := false;
     _logStream := [] |}.

(** *** Useful stuff for the algorithm *)

(** [* std::prev(_population.end())]: undefined on an empty store. *)
Definition lastElement (a : GA) : option (Score * Chromosome T) :=
  last (_population a).

Definition best (a : GA) : option (Chromosome T) :=
  snd <$> lastElement a.

(** [score(unsigned index)] *)
Definition score_index (a : GA) (index : nat) : Score :=
  if length (_population a) <=? index then 0%Q
  else match _population a !! index with
       | Some e => e.1
       | None => 0%Q
       end.

Definition totalScore (a : GA) : Score :=
  fold_left (fun scoreSum e => (scoreSum + e.1)%Q) (_population a) 0%Q.

(** The loop of [chromosome(Score fitness)]. *)
Fixpoint chromosome_scan (fitness cumulativeFitness : Score)
    (entries : list (Score * Chromosome T)) : option (Chromosome T) :=
  match entries with
  | [] => None
  | e :: rest =>
      let cumulativeFitness := (cumulativeFitness + e.1)%Q in
      if Qle_bool fitness cumulativeFitness then Some e.2
      else chromosome_scan fitness cumulativeFitness rest
  end.

(** [chromosome(Score fitness)] *)
Definition chromosome_fitness (a : GA) (fitness : Score)
  : option (Chromosome T) :=
  match chromosome_scan fitness 0%Q (_population a) with
  | Some c => Some c
  | None => snd <$> lastElement a
  end.

(** [chromosome(unsigned index)] *)
Definition chromosome_index (a : GA) (index : nat) : option (Chromosome T) :=
  if length (_population a) <=? index then snd <$> lastElement a
  else snd <$> _population a !! index.

(** [LOG(...)]: the line is evaluated and written only when logging is
    enabled. *)
Definition LOG (line : GA -> option LogLine) : M GA unit :=
  let! a := get in
  if _logEnable a
  then let! l := defined (line a) in
       modify (set_logStream (_logStream a ++ [l]))
  else ret tt.

Definition line_generation (a : GA) : option LogLine :=
  match lastElement a with
  | Some e => Some (LogGeneration (_generation a) e.1 (print e.2))
  | None => None
  end.

Definition line_over (a : GA) : option LogLine :=
  match lastElement a with
  | Some e => Some (LogOver e.1 (print e.2))
  | None => None
  end.

(** *** Main functions for the user *)

Definition stop : M GA unit :=
  let! _ := LOG (fun _ => Some LogUserStopped) in
  let! _ := modify (set_run false) in
  modify (set_logEnable false).

(** [setEndingCriterion]: the second parameter is kept for [MaxScore], the
    third for [BestScore]. *)
Definition setEndingCriterion (type : EndingCriterion)
    (maxScoreForMaxScoreCriterion : Score)
    (numberOfGenerationsWithoutImprovementForBestScoreCriterion : nat)
    (a : GA) : GA :=
  mkGeneticAlgorithm (_populationSize a) type (_selectionType a)
    (_mutationProbability a)
    (match type with
     | MaxScore => maxScoreForMaxScoreCriterion
     | _ => _maxEndScore a
     end)
    (match type with
     | BestScore => numberOfGenerationsWithoutImprovementForBestScoreCriterion
     | _ => _steadyGenerations a
     end)
    (_tournamentSize a) (_minChromosomeSize a) (_maxChromosomeSize a)
    (_population a) (_lastScores a) (_run a) (_generation a) (_logEnable a)
    (_logStream a).

Definition setSelectionType (type : SelectionType)
    (numberOfChromosomesForTournament : nat) (a : GA) : GA :=
  mkGeneticAlgorithm (_populationSize a) (_endCriterion a) type
    (_mutationProbability a) (_maxEndScore a) (_steadyGenerations a)
    (match type with
     | Tournament => numberOfChromosomesForTournament
     | _ => _tournamentSize a
     end)
    (_minChromosomeSize a) (_maxChromosomeSize a)
    (_population a) (_lastScores a) (_run a) (_generation a) (_logEnable a)
    (_logStream a).

Definition setMainParameters (populationSize : nat) (mutationProbability : Q)
    (a : GA) : GA :=
  mkGeneticAlgorithm populationSize (_endCriterion a) (_selectionType a)
    mutationProbability (_maxEndScore a) (_steadyGenerations a)
    (_tournamentSize a) (_minChromosomeSize a) (_maxChromosomeSize a)
    (_population a) (_lastScores a) (_run a) (_generation a) (_logEnable a)
    (_logStream a).

Definition setChromosomesSize (min max : nat) (a : GA) : GA :=
  mkGeneticAlgorithm (_populationSize a) (_endCriterion a) (_selectionType a)
    (_mutationProbability a) (_maxEndScore a) (_steadyGenerations a)
    (_tournamentSize a) min max
    (_population a) (_lastScores a) (_run a) (_generation a) (_logEnable a)
    (_logStream a).

(** *** Core functions *)

(** Check if an ending criterion is reached.  The 10 of the history test is
    the constant of the source; [_steadyGenerations] is not read.  The final
    [else] of the source throws for a criterion that is none of the
    enumerators. *)
Definition isEvolutionOver : M GA bool :=
  let! a := get in
  match _endCriterion a with
  | MaxScore =>
      let! e := defined (lastElement a) in
      ret (Qle_bool (_maxEndScore a) e.1)
  | BestScore =>
      let! e := defined (lastElement a) in
      let! _ := modify (set_lastScores (_lastScores a ++ [e.1])) in
      let! a := get in
      if length (_lastScores a) <=? 10 then ret false
      else
        let! _ := modify (set_lastScores (tail (_lastScores a))) in
        let! a := get in
        let! first := defined (head (_lastScores a)) in
        let better := existsb (fun s => Qltb first s) (_lastScores a) in
        ret (negb better)
  | UnknownEndingCriterion => throw "Unknown ending criterion"
  end.

(** Select a population of chromosomes to be crossed. *)

(** The first loop of the tournament: [_tournamentSize] indices drawn by
    [Random::get(0, _population.size()-1)]. *)
Fixpoint tournament_draw (a : GA) (n : nat) (tournament : list nat)
  : M Random (list nat) :=
  match n with
  | 0 => ret tournament
  | S n' =>
      let! i := Random.get_int 0 (Z.of_nat (length (_population a)) - 1) in
      tournament_draw a n' (tournament ++ [Z.to_nat i])
  end.

(** The second loop: [tournament] holds [_tournamentSize] indices, so
    [tournament[i]] for [i < _tournamentSize] visits each of them in
    order. *)
Definition tournament_best (a : GA) (tournament : list nat) (bestIndex : nat)
  : nat :=
  fst (fold_left
         (fun (b : nat * Score) i =>
            if Qltb b.2 (score_index a i) then (i, score_index a i) else b)
         tournament (bestIndex, score_index a bestIndex)).

(** The loop of stochastic universal sampling:
    [for (score = firstScore; score <= totalScore(); score += distance)]. *)
Fixpoint sus_loop (fuel : nat) (a : GA) (score distanceBetweenScores : Score)
    (selected : Population T) : M Random (Population T) :=
  if Qle_bool score (totalScore a) then
    match fuel with
    | 0 => out_of_fuel
    | S fuel' =>
        let! c := defined (chromosome_fitness a score) in
        sus_loop fuel' a (score + distanceBetweenScores)%Q
          distanceBetweenScores (selected ++ [c])
    end
  else ret selected.

(** The final [else] of the source throws for a selection type that is none
    of the enumerators. *)
Definition select (fuel : nat) (a : GA) : M Random (Population T) :=
  match _selectionType a with
  | RouletteWheel =>
      let! probability := Random.get_double 0%Q (totalScore a) in
      let! c := defined (chromosome_fitness a probability) in
      ret [c]
  | StochasticUniversal =>
      let! k := Random.get_int 1 (Z.of_nat (length (_population a) / 10)) in
      let toSelect := Z.to_nat k in
      let distanceBetweenScores :=
        (totalScore a / inject_Z (Z.of_nat toSelect))%Q in
      let! firstScore := Random.get_double 0%Q distanceBetweenScores in
      sus_loop fuel a firstScore distanceBetweenScores []
  | Tournament =>
      let! tournament := tournament_draw a (_tournamentSize a) [] in
      let! bestIndex := defined (head tournament) in
      let bestIndex := tournament_best a tournament bestIndex in
      let! c := defined (chromosome_index a bestIndex) in
      ret [c]
  | UnknownSelectionType => throw "Unknown selection type"
  end.

(** Cross two chromosomes. *)

(** The loop that selects the genes to exchange. *)
Fixpoint cross_select (fuel sizeOfSmallest index : nat) (add : bool)
    (genesToExchange : list nat) : M Random (list nat) :=
  if index <? sizeOfSmallest then
    match fuel with
    | 0 => out_of_fuel
    | S fuel' =>
        let! next := Random.get_unsigned index sizeOfSmallest in
        if add
        then cross_select fuel' sizeOfSmallest next false
               (genesToExchange ++ seq index (next - index))
        else cross_select fuel' sizeOfSmallest next true genesToExchange
    end
  else ret genesToExchange.

(** One iteration of the exchange loop:
    [tmp = result[0]; result[0][index] = result[1][index];
     result[1][index] = tmp[index]]. *)
Definition exchange_gene (result : Population T) (index : nat)
  : option (Population T) :=
  match result !! 0, result !! 1 with
  | Some r0, Some r1 =>
      match r0 !! index, r1 !! index with
      | Some g0, Some g1 =>
          Some (<[1 := <[index := g0]> r1]> (<[0 := <[index := g1]> r0]> result))
      | _, _ => None
      end
  | _, _ => None
  end.

Fixpoint exchange (genesToExchange : list nat) (result : Population T)
  : option (Population T) :=
  match genesToExchange with
  | [] => Some result
  | index :: rest =>
      match exchange_gene result index with
      | Some result' => exchange rest result'
      | None => None
      end
  end.

Definition cross (fuel : nat) (chromosomes : Population T)
  : M Random (Population T) :=
  let! c0 := defined (chromosomes !! 0) in
  let! c1 := defined (chromosomes !! 1) in
  let sizeOfSmallest := Nat.min (length c0) (length c1) in
  let! genesToExchange := cross_select fuel sizeOfSmallest 0 true [] in
  defined (exchange genesToExchange chromosomes).

(** Make a chromosome change with a user-defined probability. *)

Definition call_randomGene : M Random T :=
  fun r => let (g, r') := randomGene r in Ok g r'.

(** [for (i = begin; i < end; i++) chromosome[i] = randomGene()], with
    [n = end - i] iterations left. *)
Fixpoint mutate_loop (chromosome : Chromosome T) (i n : nat)
  : M Random (Chromosome T) :=
  match n with
  | 0 => ret chromosome
  | S n' =>
      let! g := call_randomGene in
      mutate_loop (<[i := g]> chromosome) (S i) n'
  end.

Definition mutate (a : GA) (chromosome : Chromosome T)
  : M Random (Chromosome T) :=
  let! p := Random.get_double 0%Q 1%Q in
  if Qle_bool p (_mutationProbability a) then
    let! b := Random.get_int 0 (Z.of_nat (length chromosome) - 1) in
    let begin_ := Z.to_nat b in
    let! end_ := Random.get_unsigned begin_ (length chromosome) in
    mutate_loop chromosome begin_ (end_ - begin_)
  else ret chromosome.

(** [std::generate] over a vector of [n] genes. *)
Fixpoint generate (n : nat) : M Random (Chromosome T) :=
  match n with
  | 0 => ret []
  | S n' =>
      let! g := call_randomGene in
      let! rest := generate n' in
      ret (g :: rest)
  end.

Definition randomChromosome (a : GA) : M Random (Chromosome T) :=
  let! size := Random.get_unsigned (_minChromosomeSize a) (_maxChromosomeSize a) in
  generate size.

(** Make the population evolve. *)

(** [_population.clear()] followed by the insertion of every scored
    chromosome. *)
Definition score_population (population : Population T)
  : list (Score * Chromosome T) :=
  fold_left (fun m c => multimap_insert (score c) c m) population [].

(** A] Selection: [while (selection.size() < 2)]. *)
Fixpoint gather (limit fuel : nat) (a : GA) (selection : Population T)
  : M Random (Population T) :=
  if length selection <? 2 then
    match fuel with
    | 0 => out_of_fuel
    | S fuel' =>
        let! tmp := select limit a in
        gather limit fuel' a (selection ++ tmp)
    end
  else ret selection.

(** B] Recombination: [for (i = 0; i < selection.size()/2; i++)], with [n]
    iterations left. *)
Fixpoint recombine (limit : nat) (selection : Population T) (i n : nat)
    (population : Population T) : M Random (Population T) :=
  match n with
  | 0 => ret population
  | S n' =>
      let! x := defined (selection !! (2 * i)) in
      let! y := defined (selection !! (2 * i + 1)) in
      let! newChromosomes := cross limit [x; y] in
      let! front := defined (head newChromosomes) in
      let! back := defined (last newChromosomes) in
      recombine limit selection (S i) n' (population ++ [front; back])
  end.

(** [while (population.size() < _populationSize)]. *)
Fixpoint fill (limit fuel : nat) (a : GA) (population : Population T)
  : M Random (Population T) :=
  if length population <? _populationSize a then
    match fuel with
    | 0 => out_of_fuel
    | S fuel' =>
        let! selection := gather limit limit a [] in
        let! population :=
          recombine limit selection 0 (length selection / 2) population in
        fill limit fuel' a population
    end
  else ret population.

(** C] Mutation of every chromosome of the new population, in order. *)
Fixpoint mutate_all (a : GA) (population : Population T)
  : M Random (Population T) :=
  match population with
  | [] => ret []
  | chromosome :: rest =>
      let! chromosome := mutate a chromosome in
      let! rest := mutate_all a rest in
      ret (chromosome :: rest)
  end.

(** The body of [while (_run)]: [None] is the [break], [Some population] the
    working population of the next generation. *)
Definition generation (limit : nat) (population : Population T)
  : M World (option (Population T)) :=
  let! _ := on_fst (modify (set_population (score_population population))) in
  let! _ := on_fst (LOG line_generation) in
  let! over := on_fst isEvolutionOver in
  if over : bool then
    let! _ := on_fst (LOG (fun _ => Some LogCriterionMatched)) in
    ret None
  else
    let! w := get in
    let! population := on_snd (fill limit limit w.1 []) in
    let! population := on_snd (mutate_all w.1 population) in
    let! _ := on_fst (modify (fun a => set_generation (S (_generation a)) a)) in
    ret (Some population).

Fixpoint evolve_loop (limit fuel : nat) (population : Population T)
  : M World unit :=
  let! w := get in
  if _run w.1 then
    match fuel with
    | 0 => out_of_fuel
    | S fuel' =>
        let! next := generation limit population in
        match next with
        | None => ret tt
        | Some population => evolve_loop limit fuel' population
        end
    end
  else ret tt.

Definition evolve (fuel : nat) (population : Population T) : M World unit :=
  let! _ := evolve_loop fuel fuel population in
  let! _ := on_fst (LOG line_over) in
  let! _ := on_fst (modify (set_run false)) in
  on_fst (modify (set_logEnable false)).

(** *** Main functions for the user, continued *)

(** The loop of [run] that creates the population. *)
Fixpoint seed (a : GA) (n : nat) (population : Population T)
  : M Random (Population T) :=
  match n with
  | 0 => ret population
  | S n' =>
      let! c := randomChromosome a in
      seed a n' (population ++ [c])
  end.

Definition tournament_too_large (a : GA) : bool :=
  match _selectionType a with
  | Tournament => _populationSize a <? _tournamentSize a
  | _ => false
  end.

(** [run], built without [DISABLE_NONBLOCKING_MODE].  In blocking mode
    [evolve] runs to its end and the result is [None]; otherwise the result
    is [Some population], the argument handed to the detached thread that
    is to run [evolve]. *)
Definition run (fuel : nat) (blocking enableLogging : bool)
    (outputStream : list LogLine) : M World (option (Population T)) :=
  let! _ := on_fst (modify (set_logEnable enableLogging)) in
  let! _ := on_fst (modify (set_logStream outputStream)) in
  let! w := get in
  if tournament_too_large w.1
  then throw "The tournament size cannot be greater than the population size"
  else
    let! _ := on_fst (modify (set_lastScores [])) in
    let! _ := on_fst (modify (set_run true)) in
    let! _ := on_fst (modify (set_generation 0)) in
    let! w := get in
    let! population := on_snd (seed w.1 (_populationSize w.1) []) in
    if blocking
    then let! _ := evolve fuel population in ret None
    else ret (Some population).

End Engine.

(** ** Successive ending-criterion checks

    [check_generations stores] is what the evolution loop does to the ending
    criterion over successive generations: the store of each generation is
    put in place and [isEvolutionOver] is asked once. *)
Section Checks.
Context {T : Type} `{UserFunctions T}.

Fixpoint check_generations (stores : list (list (Score * Chromosome T)))
  : M (GeneticAlgorithm T) (list bool) :=
  match stores with
  | [] => ret []
  | store :: rest =>
      let! _ := modify (set_population store) in
      let! over := isEvolutionOver in
      let! overs := check_generations rest in
      ret (over :: overs)
  end.

(** The history buffer after one check that appends [s]. *)
Definition buffer_step (buffer : list Score) (s : Score) : list Score :=
  let appended := buffer ++ [s] in
  if length appended <=? 10 then appended else tail appended.

(** No entry of [buffer] exceeds its first entry. *)
Definition steady (buffer : list Score) : bool :=
  match buffer with
  | [] => true
  | first :: _ => negb (existsb (fun s => Qltb first s) buffer)
  end.

(** The answer of one check that appends [s]. *)
Definition check_step (buffer : list Score) (s : Score) : bool :=
  let appended := buffer ++ [s] in
  if length appended <=? 10 then false else steady (tail appended).

Fixpoint check_steps (buffer : list Score) (bests : list Score) : list bool :=
  match bests with
  | [] => []
  | s :: rest => check_step buffer s :: check_steps (buffer_step buffer s) rest
  end.

(** The best score of each store. *)
Definition best_scores (stores : list (list (Score * Chromosome T)))
    (bests : list Score) : Prop :=
  Forall2 (fun store s => fst <$> last store = Some s) stores bests.

End Checks.

(** ** A concrete subclass: digit genes scored by their sum *)
Module Digits.

Definition stream (raw : list Q) (rest : Q) : nat -> Q :=
  fun n => nth n raw rest.

Definition sum_genes (c : Chromosome Z) : Z := fold_left Z.add c 0%Z.

#[global] Instance digits : UserFunctions Z := {|
  randomGene := fun r =>
    ((Qfloor (_engine r (_cursor r)) mod 10)%Z,
     mkRandom (_engine r) (S (_cursor r)));
  score := fun c => inject_Z (sum_genes c);
  print := fun _ => EmptyString
|}.

(** Ten chromosomes of score 1 each. *)
Definition ten_ones : list (Score * Chromosome Z) := repeat (1%Q, [1%Z]) 10.

Definition engine (populationSize : nat) (criterion : EndingCriterion)
    (maxEndScore : Score) (selection : SelectionType) (tournamentSize : nat)
    (mutationProbability : Q) : GeneticAlgorithm Z :=
  {| _populationSize := populationSize;
     _endCriterion := criterion;
     _selectionType := selection;
     _mutationProbability := mutationProbability;
     _maxEndScore := maxEndScore;
     _steadyGenerations := 10;
     _tournamentSize := tournamentSize;
     _minChromosomeSize := 1;
     _maxChromosomeSize := 1;
     _population := [];
     _lastScores := [];
     _run := true;
     _generation := 0;
     _logEnable := false;
     _logStream := [] |}.

(** The draws of two generations of a population of two chromosomes under
    tournaments of size 1: twice the entry of rank 0 is selected, the crossing
    takes one draw, and the two mutation checks fail. *)
Definition worst_twice : Random :=
  mkRandom (stream [0; 0; 1; 1 # 2; 1 # 2; 0; 0; 1; 1 # 2; 1 # 2]%Q (1 # 2)%Q) 0.

(** The draws of one generation that breeds two pairs. *)
Definition two_pairs : Random :=
  mkRandom (stream [0; 0; 1; 0; 0; 1; 1 # 2; 1 # 2; 1 # 2; 1 # 2]%Q (1 # 2)%Q) 0.

(** An engine whose every raw output is 1. *)
Definition ones : Random := mkRandom (fun _ => 1%Q) 0.


End Digits.

(** ** Vocabulary of the statements *)

(** A sequence of raw outputs is fair when, from every position on and for
    every modulus of at least 2, some later output is not a multiple of the
    modulus: a bounded integer draw cannot return its lower bound for ever. *)
Definition fair (engine : nat -> Q) : Prop :=
  forall i d, (2 <= d)%Z ->
    exists j, i <= j /\ (Qfloor (engine j) mod d)%Z <> 0%Z.

(** [result] holds the two chromosomes [c0], [c1] with some of the positions
    below [m] exchanged. *)
Definition crossed {T : Type} (c0 c1 : list T) (m : nat)
    (result : list (list T)) : Prop :=
  exists r0 r1,
    result = [r0; r1]
    /\ length r0 = length c0 /\ length r1 = length c1
    /\ forall i, (r0 !! i = c0 !! i /\ r1 !! i = c1 !! i)
                 \/ (i < m /\ r0 !! i = c1 !! i /\ r1 !! i = c0 !! i).

(** The cumulative score of the [i]-th iteration of stochastic universal
    sampling: [firstScore] increased [i] times by the distance. *)
Fixpoint sus_score (score distanceBetweenScores : Score) (i : nat) : Score :=
  match i with
  | 0 => score
  | S i' => sus_score (score + distanceBetweenScores)%Q distanceBetweenScores i'
  end.

(** A computation that raises no exception. *)
Definition never_throws {W A : Type} (m : M W A) : Prop :=
  forall w msg w', m w <> Throw msg w'.

(** The best scores of the generations that a log reports, oldest first. *)
Definition generation_bests (log : list LogLine) : list Score :=
  omap (fun line =>
          match line with
          | LogGeneration _ best _ => Some best
          | _ => None
          end) log.

(** The size of a bred population: an even number, at least the configured
    population size, and at most one more unless the selection is stochastic
    universal sampling. *)
Definition bred_size {T : Type} (a : GeneticAlgorithm T)
    (population : list (list T)) : Prop :=
  exists pairs,
    length population = 2 * pairs
    /\ _populationSize a <= 2 * pairs
    /\ (_selectionType a <> StochasticUniversal ->
        2 * pairs <= _populationSize a + 1).

Section EngineVocabulary.
Context {T : Type} `{UserFunctions T}.
Implicit Type a : GeneticAlgorithm T.

(** What [run] does once the safety check has passed. *)
Definition run_checked (fuel : nat) (blocking : bool)
  : M (GeneticAlgorithm T * Random) (option (list (list T))) :=
  let! _ := on_fst (modify (set_lastScores [])) in
  let! _ := on_fst (modify (set_run true)) in
  let! _ := on_fst (modify (set_generation 0)) in
  let! w := get in
  let! population := on_snd (seed w.1 (_populationSize w.1) []) in
  if blocking
  then let! _ := evolve fuel population in ret None
  else ret (Some population).

(** The engine after the scoring and the log line of a generation. *)
Definition scored (population : list (list T)) (e : Score * list T) a
  : GeneticAlgorithm T :=
  let a1 := set_population (score_population population) a in
  if _logEnable a
  then set_logStream
         (_logStream a ++ [LogGeneration (_generation a) e.1 (print e.2)]) a1
  else a1.

(** The engine after the line that reports the matched criterion. *)
Definition matched a : GeneticAlgorithm T :=
  if _logEnable a
  then set_logStream (_logStream a ++ [LogCriterionMatched]) a
  else a.

(** The rest of a generation once the criterion said continue. *)
Definition breed (limit : nat) a (r : Random)
  : result (GeneticAlgorithm T * Random) (option (list (list T))) :=
  match fill limit limit a [] r with
  | Ok population r1 =>
      match mutate_all a population r1 with
      | Ok population' r2 =>
          Ok (Some population') (set_generation (S (_generation a)) a, r2)
      | Throw msg r2 => Throw msg (a, r2)
      | Fault => Fault
      | OutOfFuel r2 => OutOfFuel (a, r2)
      end
  | Throw msg r1 => Throw msg (a, r1)
  | Fault => Fault
  | OutOfFuel r1 => OutOfFuel (a, r1)
  end.

(** [n] generations in a row of the evolution loop whose best score is below
    [_maxEndScore] and which breed a next population: they lead from the
    working population and the world at the head of the loop to those of [n]
    iterations later. *)
Inductive bred_below (limit : nat)
  : nat -> list (list T) -> GeneticAlgorithm T * Random ->
    list (list T) -> GeneticAlgorithm T * Random -> Prop :=
| bred_below_0 population w : bred_below limit 0 population w population w
| bred_below_S n population a r e next w1 population' w' :
    last (score_population population) = Some e ->
    (e.1 < _maxEndScore a)%Q ->
    breed limit (scored population e a) r = Ok (Some next) w1 ->
    bred_below limit n next w1 population' w' ->
    bred_below limit (S n) population (a, r) population' w'.

(** Two engines that differ at most in the score history. *)
Definition same_but_history a a' : Prop :=
  _populationSize a' = _populationSize a
  /\ _endCriterion a' = _endCriterion a
  /\ _selectionType a' = _selectionType a
  /\ _maxEndScore a' = _maxEndScore a
  /\ _tournamentSize a' = _tournamentSize a
  /\ _population a' = _population a
  /\ _run a' = _run a
  /\ _generation a' = _generation a
  /\ _logEnable a' = _logEnable a
  /\ _logStream a' = _logStream a.

(** The selections that return one chromosome whatever the draws. *)
Definition selects_one a : Prop :=
  _population a <> []
  /\ ((_selectionType a = Tournament /\ 1 <= _tournamentSize a)
      \/ (_selectionType a = RouletteWheel /\ (0 <= totalScore a)%Q)).

End EngineVocabulary.

(** ** Vocabulary of the further properties *)

Section StoreVocabulary.
Context {T : Type} `{UserFunctions T}.

(** The chromosome that [best] is to return after the scoring of a
    population: a later chromosome replaces the current one unless its score
    is strictly lower. *)
Definition latest_best (population : list (list T)) : option (list T) :=
  fold_left
    (fun b c =>
       match b with
       | Some b' => if Qltb (score c) (score b') then Some b' else Some c
       | None => Some c
       end)
    population None.

(** The sum of the scores of a population, in its order. *)
Definition sum_scores (population : list (list T)) : Score :=
  fold_left (fun s c => (s + score c)%Q) population 0%Q.

(** The running sum of [chromosome(Score)] after the entries of ranks
    [0 .. i]. *)
Definition cumulative (entries : list (Score * list T)) (i : nat) : Score :=
  fold_left (fun s e => (s + e.1)%Q) (take (S i) entries) 0%Q.

End StoreVocabulary.

Section RunVocabulary.
Context {T : Type} `{UserFunctions T}.
Implicit Type a : GeneticAlgorithm T.

(** Two engines with the same nine configuration parameters. *)
Definition same_configuration a a' : Prop :=
  _populationSize a' = _populationSize a
  /\ _endCriterion a' = _endCriterion a
  /\ _selectionType a' = _selectionType a
  /\ _mutationProbability a' = _mutationProbability a
  /\ _maxEndScore a' = _maxEndScore a
  /\ _steadyGenerations a' = _steadyGenerations a
  /\ _tournamentSize a' = _tournamentSize a
  /\ _minChromosomeSize a' = _minChromosomeSize a
  /\ _maxChromosomeSize a' = _maxChromosomeSize a.

(** The engine that [run] hands to [evolve]. *)
Definition started (enableLogging : bool) (outputStream : list LogLine) a
  : GeneticAlgorithm T :=
  set_generation 0
    (set_run true
       (set_lastScores []
          (set_logStream outputStream (set_logEnable enableLogging a)))).

(** The engine after the last lines of [evolve]: the closing log line is
    written when logging is enabled, which needs a non-empty store. *)
Definition finished a : option (GeneticAlgorithm T) :=
  if _logEnable a then
    match lastElement a with
    | Some e =>
        Some (set_logEnable false
                (set_run false
                   (set_logStream
                      (_logStream a ++ [LogOver e.1 (print e.2)]) a)))
    | None => None
    end
  else Some (set_logEnable false (set_run false a)).

(** The lines [lines] report the generations [first], [first + 1], ... *)
Definition numbered (first : nat) (lines : list LogLine) : Prop :=
  Forall2 (fun n line => exists s p, line = LogGeneration n s p)
    (seq first (length lines)) lines.

(** What the first half of a generation does to the engine [a]: the
    population is scored into the store, whose last element is [e], the
    generation line is logged, and the ending criterion is checked with the
    answer [over]; [a'] is the engine after the check. *)
Definition checked (population : list (list T)) (e : Score * list T)
    (over : bool) a a' : Prop :=
  same_configuration a a'
  /\ _population a' = score_population population
  /\ _run a' = _run a
  /\ _generation a' = _generation a
  /\ _logEnable a' = _logEnable a
  /\ _logStream a'
     = (if _logEnable a
        then _logStream a ++ [LogGeneration (_generation a) e.1 (print e.2)]
        else _logStream a)
  /\ ((_endCriterion a = MaxScore /\ _lastScores a' = _lastScores a
       /\ over = Qle_bool (_maxEndScore a) e.1)
      \/ (_endCriterion a = BestScore
          /\ _lastScores a' = buffer_step (_lastScores a) e.1
          /\ over = check_step (_lastScores a) e.1)).

(** The chromosome [c] is one of the store of [a]. *)
Definition stored a (c : list T) : Prop := c ∈ snd <$> _population a.

(** The length of [c] is within the bounds of the chromosome size. *)
Definition sized a (c : list T) : Prop :=
  _minChromosomeSize a <= length c <= _maxChromosomeSize a.

(** The engine [a] with another value of [_steadyGenerations]. *)
Definition with_steadyGenerations (v : nat) a : GeneticAlgorithm T :=
  mkGeneticAlgorithm (_populationSize a) (_endCriterion a) (_selectionType a)
    (_mutationProbability a) (_maxEndScore a) v
    (_tournamentSize a) (_minChromosomeSize a) (_maxChromosomeSize a)
    (_population a) (_lastScores a) (_run a) (_generation a) (_logEnable a)
    (_logStream a).

(** The engine [a] with another value of [_maxEndScore]. *)
Definition with_maxEndScore (v : Score) a : GeneticAlgorithm T :=
  mkGeneticAlgorithm (_populationSize a) (_endCriterion a) (_selectionType a)
    (_mutationProbability a) v (_steadyGenerations a)
    (_tournamentSize a) (_minChromosomeSize a) (_maxChromosomeSize a)
    (_population a) (_lastScores a) (_run a) (_generation a) (_logEnable a)
    (_logStream a).

(** An outcome whose engine, if it has one, is changed by [f]. *)
Definition on_engine {A} (f : GeneticAlgorithm T -> GeneticAlgorithm T)
    (x : result (GeneticAlgorithm T * Random) A)
  : result (GeneticAlgorithm T * Random) A :=
  match x with
  | Ok v w => Ok v (f w.1, w.2)
  | Throw msg w => Throw msg (f w.1, w.2)
  | Fault => Fault
  | OutOfFuel w => OutOfFuel (f w.1, w.2)
  end.

(** A configuration under which a run has no undefined behaviour and
    throws nothing: a population of at least one chromosome, chromosome sizes
    between a minimum of at least 1 and a maximum, either tournaments of a
    size between 1 and the population size, or the roulette wheel with a
    score function that is never negative, and one of the two enumerators as
    ending criterion. *)
Definition well_configured a : Prop :=
  1 <= _populationSize a
  /\ 1 <= _minChromosomeSize a <= _maxChromosomeSize a
  /\ ((_selectionType a = Tournament
       /\ 1 <= _tournamentSize a <= _populationSize a)
      \/ (_selectionType a = RouletteWheel
          /\ forall c : list T, (0 <= score c)%Q))
  /\ (_endCriterion a = MaxScore \/ _endCriterion a = BestScore).

End RunVocabulary.

(** ** The example [01-FindNumber]

    The subclass of [examples/01-FindNumber/main.cpp]: a gene is a decimal
    digit, a chromosome the decimal writing of a number, and the run is to
    find the number typed by the user.  An [unsigned long long] is a [Z]
    reduced modulo [2^64]; the genes are [unsigned] values. *)
Module FindNumber.

(** The value of an [unsigned long long] expression. *)
Definition ull (z : Z) : Z := (z mod 2 ^ 64)%Z.

(** [(unsigned long long)pow(10, i)].  The power is computed in [double],
    where the powers of 10 are exact up to [10^22]; the conversion to the
    integer type is defined up to [10^19], the last one below [2^64], and
    undefined from [10^20] on. *)
Definition pow10 (i : nat) : option Z :=
  if i <=? 19 then Some (10 ^ Z.of_nat i)%Z else None.

(** The loop of [chromosomeToNumber], with [n] iterations left.  In the loop
    [i <= l], so the index [l - i] does not wrap. *)
Fixpoint chromosomeToNumber_loop (chromosome : Chromosome nat) (l i n : nat)
    (res : Z) : option Z :=
  match n with
  | 0 => Some res
  | S n' =>
      match chromosome !! (l - i), pow10 i with
      | Some g, Some p =>
          chromosomeToNumber_loop chromosome l (S i) n'
            (ull (res + ull (Z.of_nat g * p)))
      | _, _ => None
      end
  end.

Definition chromosomeToNumber (chromosome : Chromosome nat) : option Z :=
  chromosomeToNumber_loop chromosome (length chromosome - 1) 0
    (length chromosome) 0%Z.

(** [ss << number]: the decimal writing of an [unsigned long long], which
    has at most 20 digits. *)
Definition digit (d : Z) : Ascii.ascii := Ascii.ascii_of_nat (48 + Z.to_nat d).

Fixpoint decimal (fuel : nat) (number : Z) (acc : string) : string :=
  match fuel with
  | 0 => acc
  | S fuel' =>
      let acc' := String (digit (number mod 10)) acc in
      if (number <? 10)%Z then acc' else decimal fuel' (number / 10) acc'
  end.

Definition to_string (number : Z) : string := decimal 20 number EmptyString.

(** [(unsigned)str[i] - '0'] *)
Definition char_to_gene (ch : Ascii.ascii) : nat :=
  Z.to_nat ((Z.of_nat (Ascii.nat_of_ascii ch) - 48) mod 2 ^ 32).

Definition numberToChromosome (number : Z) : Chromosome nat :=
  map char_to_gene (list_ascii_of_string (to_string number)).

Section GA.
Variable objectiveChromosome : Chromosome nat.

(** [GA::randomGene]: [Random::get(0, 9)], whose range is never empty. *)
Definition GA_randomGene (r : Random) : nat * Random :=
  match Random.get_int 0 9 r with
  | Ok g r' => (Z.to_nat g, r')
  | _ => (0, r)
  end.

(** The loop of [GA::score] from the index [i] on. *)
Fixpoint GA_score_loop (i : nat) (genes : list nat) (score : Score) : Score :=
  match genes with
  | [] => score
  | g :: rest =>
      GA_score_loop (S i) rest
        (if length objectiveChromosome <=? i then (score + - (1))%Q
         else match objectiveChromosome !! i with
              | Some o => (score + (if g =? o then 1 else 0))%Q
              | None => score
              end)
  end.

Definition GA_score (chromosome : Chromosome nat) : Score :=
  let score := GA_score_loop 0 chromosome 0%Q in
  if length chromosome <? length objectiveChromosome
  then (score
        + - (1) * inject_Z (Z.of_nat (length objectiveChromosome
                                      - length chromosome)))%Q
  else score.

(** [GA::print]; the number of a chromosome of more than 20 genes is
    undefined, and nothing is printed for it here. *)
Definition GA_print (chromosome : Chromosome nat) : string :=
  match chromosomeToNumber chromosome with
  | Some number => to_string number
  | None => EmptyString
  end.

Definition GA : UserFunctions nat := {|
  randomGene := GA_randomGene;
  score := GA_score;
  print := GA_print
|}.

End GA.

(** The engine that [main] configures; the three arguments are the fields
    that the constructor leaves uninitialised. *)
Definition algorithm (objectiveChromosome : Chromosome nat)
    (maxEndScore0 : Score) (steadyGenerations0 generation0 : nat)
  : GeneticAlgorithm nat :=
  setSelectionType Tournament 10
    (setEndingCriterion MaxScore
       (inject_Z (Z.of_nat (length objectiveChromosome))) 10
       (setChromosomesSize 1 (length (numberToChromosome (2 ^ 64 - 1)))
          (setMainParameters 100 (1 # 100)%Q
             (GeneticAlgorithm_new maxEndScore0 steadyGenerations0
                generation0)))).

(** [main] on the number [objective] read from the input and a standard
    output that is empty: the result is the test [result == objective] that
    chooses the final message. *)
Definition main (fuel : nat) (objective : Z) (maxEndScore0 : Score)
    (steadyGenerations0 generation0 : nat) (r : Random)
  : result (GeneticAlgorithm nat * Random) bool :=
  let objectiveChromosome := numberToChromosome objective in
  (let! _ := @run nat (GA objectiveChromosome) fuel true true [] in
   let! w := get in
   let! chromosome := defined (@best nat w.1) in
   let! result := defined (chromosomeToNumber chromosome) in
   ret (result =? objective)%Z)
    (algorithm objectiveChromosome maxEndScore0 steadyGenerations0 generation0,
     r).

(** The number that a list of decimal digits writes. *)
Definition written (digits : list nat) : Z :=
  fold_left (fun v d => (10 * v + Z.of_nat d)%Z) digits 0%Z.

End FindNumber.

(** ** The example [03-2DPacking]

    The subclass of [examples/03-2DPacking/GA2DPacking/ga.h]: a gene is the
    position of a rectangle, a chromosome places the rectangles of the
    cluster.  An [int] is a [Z] of the 32-bit range, and an [int] sum
    outside that range is undefined; so is the access to a rectangle that
    the cluster does not have. *)
Module Packing.

Definition MAX_WIDTH : Z := 800.
Definition MAX_HEIGHT : Z := 500.

(** [QPoint] *)
Record Gene : Type := QPoint { x : Z; y : Z }.

(** [QPair<int, int>]: width and height. *)
Abbreviation Rect := (Z * Z)%type (only parsing).

(** [QPair<QPoint, QPoint>] *)
Abbreviation BB := (Gene * Gene)%type (only parsing).

(** The value of an [int] sum. *)
Definition int_add (a b : Z) : option Z :=
  let s := (a + b)%Z in
  if ((- 2 ^ 31 <=? s) && (s <=? 2 ^ 31 - 1))%Z then Some s else None.

(** One iteration of the loop of [boundingBox]; the state is
    [xmin, xmax, ymin, ymax]. *)
Definition boundingBox_step (rectangles : list Rect) (i : nat) (g : Gene)
    (state : Z * Z * Z * Z) : option (Z * Z * Z * Z) :=
  let '(xmin, xmax, ymin, ymax) := state in
  let xmin := if (x g <? xmin)%Z then x g else xmin in
  let ymin := if (y g <? ymin)%Z then y g else ymin in
  match rectangles !! i with
  | Some rect =>
      match int_add (x g) rect.1, int_add (y g) rect.2 with
      | Some xright, Some ybottom =>
          let xmax := if (xmax <? xright)%Z then xright else xmax in
          let ymax := if (ymax <? ybottom)%Z then ybottom else ymax in
          Some (xmin, xmax, ymin, ymax)
      | _, _ => None
      end
  | None => None
  end.

Fixpoint boundingBox_loop (rectangles : list Rect) (i : nat)
    (genes : list Gene) (state : Z * Z * Z * Z) : option (Z * Z * Z * Z) :=
  match genes with
  | [] => Some state
  | g :: rest =>
      match boundingBox_step rectangles i g state with
      | Some state' => boundingBox_loop rectangles (S i) rest state'
      | None => None
      end
  end.

Definition boundingBox (rectangles : list Rect) (chromosome : list Gene)
  : option BB :=
  match boundingBox_loop rectangles 0 chromosome
          (MAX_WIDTH, 0%Z, MAX_HEIGHT, 0%Z) with
  | Some (xmin, xmax, ymin, ymax) => Some (QPoint xmin ymin, QPoint xmax ymax)
  | None => None
  end.

End Packing.

(** * Properties *)

(** ** The population store *)
Section StoreProperties.
Context {T : Type} `{UserFunctions T}.
Implicit Type a : GeneticAlgorithm T.

Lemma last_None_iff {A} (l : list A) : last l = None <-> l = [].
Proof.
  split; [|intros ->; reflexivity].
  destruct l as [|x l] using rev_ind; [reflexivity|].
  rewrite last_snoc. discriminate.
Qed.

Lemma lastElement_None a : lastElement a = None <-> _population a = [].
Proof. apply last_None_iff. Qed.

Lemma best_None a : best a = None <-> _population a = [].
Proof.
  unfold best. rewrite <- lastElement_None.
  destruct (lastElement a); simpl; split; congruence.
Qed.

Lemma chromosome_index_out_of_range a index :
  length (_population a) <= index -> chromosome_index a index = best a.
Proof.
  intros Hle. unfold chromosome_index.
  destruct (Nat.leb_spec (length (_population a)) index); [reflexivity|lia].
Qed.

Lemma chromosome_index_None a index :
  chromosome_index a index = None <-> _population a = [].
Proof.
  unfold chromosome_index.
  destruct (Nat.leb_spec (length (_population a)) index) as [Hle|Hlt].
  - apply best_None.
  - destruct (lookup_lt_is_Some_2 (_population a) index Hlt) as [e He].
    rewrite He. simpl. split; [discriminate|].
    intros Hnil. rewrite Hnil in Hlt. simpl in Hlt. lia.
Qed.

Lemma chromosome_fitness_fallback a fitness :
  chromosome_scan fitness 0%Q (_population a) = None ->
  chromosome_fitness a fitness = best a.
Proof. intros Hscan. unfold chromosome_fitness. rewrite Hscan. reflexivity. Qed.

Lemma chromosome_scan_Some_nonempty fitness cumulative
    (entries : list (Score * Chromosome T)) c :
  chromosome_scan fitness cumulative entries = Some c -> entries <> [].
Proof. destruct entries; [discriminate|congruence]. Qed.

Lemma chromosome_fitness_None a fitness :
  chromosome_fitness a fitness = None <-> _population a = [].
Proof.
  unfold chromosome_fitness.
  destruct (chromosome_scan fitness 0%Q (_population a)) as [c|] eqn:Hscan.
  - split; [discriminate|].
    intros Hnil. rewrite Hnil in Hscan. discriminate.
  - apply best_None.
Qed.

End StoreProperties.

(** ** Running computations *)
Section Computations.
Context {W A B : Type}.

Lemma bind_Ok (m : M W A) (k : A -> M W B) w a w' :
  m w = Ok a w' -> bind m k w = k a w'.
Proof. intros Hm. unfold bind. rewrite Hm. reflexivity. Qed.

Lemma bind_Ok_inv (m : M W A) (k : A -> M W B) w b w'' :
  bind m k w = Ok b w'' -> exists a w', m w = Ok a w' /\ k a w' = Ok b w''.
Proof.
  unfold bind. destruct (m w) as [a w'| | |] eqn:Hm; try discriminate.
  intros Hk. exists a, w'. split; [reflexivity|exact Hk].
Qed.

Lemma defined_Ok_inv (o : option A) (w : W) a w' :
  defined o w = Ok a w' -> o = Some a /\ w' = w.
Proof.
  destruct o as [x|]; simpl; [|discriminate].
  unfold ret. intros [= -> ->]. split; reflexivity.
Qed.

End Computations.

Section OnComponents.
Context {S R A : Type}.

Lemma on_snd_Ok (m : M R A) (s : S) r a r' :
  m r = Ok a r' -> on_snd m (s, r) = Ok a (s, r').
Proof. intros Hm. unfold on_snd. simpl. rewrite Hm. reflexivity. Qed.

Lemma on_snd_Ok_inv (m : M R A) (w : S * R) a w' :
  on_snd m w = Ok a w' -> m w.2 = Ok a w'.2 /\ w'.1 = w.1.
Proof.
  unfold on_snd. destruct (m w.2) as [x r'| | |]; try discriminate.
  intros [= -> <-]. split; reflexivity.
Qed.

Lemma on_fst_Ok (m : M S A) s (r : R) a s' :
  m s = Ok a s' -> on_fst m (s, r) = Ok a (s', r).
Proof. intros Hm. unfold on_fst. simpl. rewrite Hm. reflexivity. Qed.

Lemma on_fst_Ok_inv (m : M S A) (w : S * R) a w' :
  on_fst m w = Ok a w' -> m w.1 = Ok a w'.1 /\ w'.2 = w.2.
Proof.
  unfold on_fst. destruct (m w.1) as [x s'| | |]; try discriminate.
  intros [= -> <-]. split; reflexivity.
Qed.

End OnComponents.

(** ** The random number generator *)
Section RandomProperties.

Lemma canonical_range u : (0 <= Random.canonical u < 1)%Q.
Proof.
  unfold Random.canonical.
  pose proof (Qfloor_le u) as Hlo. pose proof (Qlt_floor u) as Hhi.
  rewrite inject_Z_plus in Hhi. change (inject_Z 1) with 1%Q in Hhi.
  split; lra.
Qed.

Lemma get_double_Ok min max r :
  (min <= max)%Q ->
  exists x, Random.get_double min max r
            = Ok x (mkRandom (_engine r) (S (_cursor r)))
    /\ (min <= x)%Q /\ (x <= max)%Q /\ ((min < max)%Q -> (x < max)%Q)
    /\ x = (min + Random.canonical (_engine r (_cursor r)) * (max - min))%Q.
Proof.
  intros Hle. unfold Random.get_double.
  apply Qle_bool_iff in Hle as Hb. rewrite Hb.
  eexists. split; [reflexivity|].
  pose proof (canonical_range (_engine r (_cursor r))) as [Hlo Hhi].
  set (u := Random.canonical _) in *.
  repeat split.
  - assert (0 <= u * (max - min))%Q by (apply Qmult_le_0_compat; lra). lra.
  - assert (u * (max - min) <= 1 * (max - min))%Q
      by (apply Qmult_le_compat_r; lra). lra.
  - intros Hlt.
    assert (u * (max - min) < 1 * (max - min))%Q
      by (apply Qmult_lt_compat_r; lra). lra.
Qed.

Lemma get_int_Ok min max r :
  (min <= max)%Z ->
  exists x, Random.get_int min max r
            = Ok x (mkRandom (_engine r) (S (_cursor r)))
    /\ (min <= x <= max)%Z.
Proof.
  intros Hle. unfold Random.get_int.
  apply Z.leb_le in Hle as Hb. rewrite Hb.
  eexists. split; [reflexivity|].
  pose proof (Z.mod_pos_bound (Qfloor (_engine r (_cursor r))) (max - min + 1)).
  lia.
Qed.

Lemma get_unsigned_Ok min max r :
  min <= max ->
  exists x, Random.get_unsigned min max r
            = Ok x (mkRandom (_engine r) (S (_cursor r)))
    /\ min <= x <= max
    /\ x = min + Z.to_nat (Qfloor (_engine r (_cursor r))
                           mod Z.of_nat (max - min + 1)).
Proof.
  intros Hle. unfold Random.get_unsigned.
  apply Nat.leb_le in Hle as Hb. rewrite Hb.
  eexists. split; [reflexivity|].
  pose proof (Z.mod_pos_bound (Qfloor (_engine r (_cursor r)))
                (Z.of_nat (max - min + 1))).
  split; [lia|reflexivity].
Qed.

End RandomProperties.

(** ** Seeding and [run] *)
Section RunProperties.
Context {T : Type} `{UserFunctions T}.
Implicit Type a : GeneticAlgorithm T.

Lemma call_randomGene_Ok r :
  exists g r', call_randomGene r = Ok g r'.
Proof.
  unfold call_randomGene. destruct (randomGene r) as [g r']. eauto.
Qed.

Lemma generate_Ok n : forall r,
  exists c r', generate n r = Ok c r' /\ length c = n.
Proof.
  induction n as [|n IH]; intros r; simpl.
  - exists [], r. split; reflexivity.
  - destruct (call_randomGene_Ok r) as (g & r1 & Hg).
    destruct (IH r1) as (c & r2 & Hc & Hlen).
    exists (g :: c), r2. split; [|simpl; lia].
    rewrite (bind_Ok _ _ _ _ _ Hg), (bind_Ok _ _ _ _ _ Hc). reflexivity.
Qed.

Lemma randomChromosome_Ok a r :
  _minChromosomeSize a <= _maxChromosomeSize a ->
  exists c r', randomChromosome a r = Ok c r'
    /\ _minChromosomeSize a <= length c <= _maxChromosomeSize a.
Proof.
  intros Hle. unfold randomChromosome.
  destruct (get_unsigned_Ok _ _ r Hle) as (size & Hsize & Hrange & _).
  destruct (generate_Ok size (mkRandom (_engine r) (S (_cursor r))))
    as (c & r' & Hc & Hlen).
  exists c, r'. rewrite (bind_Ok _ _ _ _ _ Hsize), Hc. split; [reflexivity|lia].
Qed.

Lemma seed_Ok a n : forall population r,
  _minChromosomeSize a <= _maxChromosomeSize a ->
  exists population' r', seed a n population r = Ok population' r'
    /\ length population' = length population + n.
Proof.
  induction n as [|n IH]; intros population r Hle; simpl.
  - exists population, r. split; [reflexivity|lia].
  - destruct (randomChromosome_Ok a r Hle) as (c & r1 & Hc & _).
    destruct (IH (population ++ [c]) r1 Hle) as (p' & r2 & Hp & Hlen).
    exists p', r2. rewrite (bind_Ok _ _ _ _ _ Hc), Hp.
    split; [reflexivity|]. rewrite Hlen, length_app. simpl. lia.
Qed.

Lemma seed_ext a a' n : forall population r,
  _minChromosomeSize a = _minChromosomeSize a' ->
  _maxChromosomeSize a = _maxChromosomeSize a' ->
  seed a n population r = seed a' n population r.
Proof.
  induction n as [|n IH]; intros population r Hmin Hmax; [reflexivity|].
  simpl. unfold bind, randomChromosome. rewrite Hmin, Hmax.
  destruct (bind _ _ r) as [c r1| | |]; try reflexivity.
  apply IH; assumption.
Qed.

(** The engine that [run] leaves to the evolution loop. *)
Lemma run_nonblocking fuel enableLogging outputStream a r :
  tournament_too_large a = false ->
  _minChromosomeSize a <= _maxChromosomeSize a ->
  exists population r',
    run fuel false enableLogging outputStream (a, r)
    = Ok (Some population)
        (set_generation 0 (set_run true (set_lastScores []
           (set_logStream outputStream (set_logEnable enableLogging a)))), r')
    /\ length population = _populationSize a.
Proof.
  intros Hsize Hle.
  destruct (seed_Ok a (_populationSize a) [] r Hle) as (p & r' & Hp & Hlen).
  exists p, r'. split; [|exact Hlen].
  unfold run, bind, on_fst, on_snd, modify, get, throw, ret. simpl.
  change (tournament_too_large _) with (tournament_too_large a).
  rewrite Hsize. simpl.
  rewrite (seed_ext _ a) by reflexivity. simpl. rewrite Hp. reflexivity.
Qed.

(** C10. [lastElement], hence [best], is defined exactly when the population
    store is non-empty; a freshly constructed engine has an empty store, and
    so has the engine that a non-blocking [run] on it returns with, before
    the evolution loop has scored anything; the out-of-range fallbacks of
    [chromosome(index)] and [chromosome(fitness)] are [best] and share its
    precondition. *)
Theorem best_requires_nonempty_store a :
  (lastElement a = None <-> _population a = [])
  /\ (best a = None <-> _population a = [])
  /\ (forall m s g, best (GeneticAlgorithm_new (T:=T) m s g) = None)
  /\ (forall m s g fuel enableLogging outputStream r,
        exists population w',
          run fuel false enableLogging outputStream
            (GeneticAlgorithm_new (T:=T) m s g, r) = Ok (Some population) w'
          /\ best w'.1 = None)
  /\ (forall index, length (_population a) <= index ->
        chromosome_index a index = best a)
  /\ (forall fitness, chromosome_scan fitness 0%Q (_population a) = None ->
        chromosome_fitness a fitness = best a)
  /\ (forall index, chromosome_index a index = None <-> _population a = [])
  /\ (forall fitness, chromosome_fitness a fitness = None <-> _population a = []).
Proof.
  split; [apply lastElement_None|].
  split; [apply best_None|].
  split; [reflexivity|].
  split.
  { intros m s g fuel enableLogging outputStream r.
    destruct (run_nonblocking fuel enableLogging outputStream
                (GeneticAlgorithm_new m s g) r) as (p & r' & Hrun & _).
    - reflexivity.
    - simpl. lia.
    - exists p. eexists. split; [exact Hrun|reflexivity]. }
  split; [apply chromosome_index_out_of_range|].
  split; [apply chromosome_fitness_fallback|].
  split; [apply chromosome_index_None|apply chromosome_fitness_None].
Qed.

End RunProperties.

(** ** The ending criteria *)
Section EndingCriterionProperties.
Context {T : Type} `{UserFunctions T}.
Implicit Type a : GeneticAlgorithm T.

Lemma Qltb_lt x y : Qltb x y = true <-> (x < y)%Q.
Proof.
  unfold Qltb. rewrite negb_true_iff, <- not_true_iff_false, Qle_bool_iff.
  split; [apply Qnot_le_lt|apply Qlt_not_le].
Qed.

Lemma isEvolutionOver_MaxScore a e :
  _endCriterion a = MaxScore -> lastElement a = Some e ->
  isEvolutionOver a = Ok (Qle_bool (_maxEndScore a) e.1) a.
Proof.
  intros Hc He. unfold isEvolutionOver, bind, get. rewrite Hc, He. reflexivity.
Qed.

Lemma isEvolutionOver_BestScore a e :
  _endCriterion a = BestScore -> lastElement a = Some e ->
  isEvolutionOver a
  = Ok (check_step (_lastScores a) e.1)
       (set_lastScores (buffer_step (_lastScores a) e.1) a).
Proof.
  intros Hc He. unfold isEvolutionOver, bind, get, modify.
  rewrite Hc, He. simpl.
  unfold check_step, buffer_step.
  destruct (Nat.leb_spec (length (_lastScores a ++ [e.1])) 10) as [Hle|Hgt];
    [reflexivity|].
  simpl.
  destruct (_lastScores a ++ [e.1]) as [|s0 [|s1 l]] eqn:Happ;
    simpl in Hgt; try lia.
  reflexivity.
Qed.

Lemma isEvolutionOver_empty a :
  _endCriterion a <> UnknownEndingCriterion ->
  _population a = [] -> isEvolutionOver a = Fault.
Proof.
  intros Hc Hnil. apply lastElement_None in Hnil.
  unfold isEvolutionOver, bind, get. rewrite Hnil.
  destruct (_endCriterion a); [reflexivity|reflexivity|contradiction].
Qed.

Lemma isEvolutionOver_unknown a :
  _endCriterion a = UnknownEndingCriterion ->
  isEvolutionOver a = Throw "Unknown ending criterion" a.
Proof. intros Hc. unfold isEvolutionOver, bind, get. rewrite Hc. reflexivity. Qed.

Lemma steady_true buffer first :
  head buffer = Some first ->
  steady buffer = true <-> forall s, In s buffer -> ~ (first < s)%Q.
Proof.
  destruct buffer as [|x l]; [discriminate|]. intros [= ->].
  unfold steady. rewrite negb_true_iff, <- not_true_iff_false, existsb_exists.
  split.
  - intros Hno s Hin Hlt. apply Hno. exists s. split; [exact Hin|].
    apply Qltb_lt, Hlt.
  - intros Hno (s & Hin & Hlt). apply (Hno s Hin), Qltb_lt, Hlt.
Qed.

Lemma buffer_step_length buffer s :
  length (buffer_step buffer s) = Nat.min 10 (S (length buffer))
  \/ 10 < length buffer.
Proof.
  unfold buffer_step. rewrite length_app. change (length [s]) with 1.
  destruct (Nat.leb_spec (length buffer + 1) 10) as [Hle|Hgt].
  - left. rewrite length_app. change (length [s]) with 1. lia.
  - destruct (decide (length buffer = 10)) as [Heq|Hne]; [left|right; lia].
    destruct buffer as [|x l]; [discriminate|]. cbn [length tail app] in *.
    rewrite length_app. change (length [s]) with 1. lia.
Qed.

Lemma check_generations_steps stores : forall bests a,
  _endCriterion a = BestScore -> best_scores stores bests ->
  exists a', check_generations stores a = Ok (check_steps (_lastScores a) bests) a'.
Proof.
  induction stores as [|store stores IH]; intros bests a Hc Hbests;
    inversion Hbests as [|? s ? rest Hs Hrest]; subst.
  - exists a. reflexivity.
  - simpl. unfold bind at 1. unfold modify.
    destruct (last store) as [e|] eqn:He; [|discriminate].
    simpl in Hs. injection Hs as <-.
    rewrite (bind_Ok _ _ _ _ _
               (isEvolutionOver_BestScore (set_population store a) e Hc He)).
    destruct (IH rest (set_lastScores (buffer_step (_lastScores a) e.1)
                         (set_population store a)) Hc Hrest) as (a' & Ha').
    exists a'. rewrite (bind_Ok _ _ _ _ _ Ha'). reflexivity.
Qed.

Lemma check_steps_length bests : forall buffer,
  length (check_steps buffer bests) = length bests.
Proof. induction bests as [|s rest IH]; intros buffer; simpl; auto. Qed.

(** No check fires before the buffer has received eleven scores. *)
Lemma check_steps_early bests : forall buffer i,
  length buffer + i < 10 -> i < length bests ->
  check_steps buffer bests !! i = Some false.
Proof.
  induction bests as [|s rest IH]; intros buffer i Hi Hlen; simpl in *; [lia|].
  destruct i as [|i]; simpl.
  - unfold check_step. rewrite length_app. simpl.
    destruct (Nat.leb_spec (length buffer + 1) 10); [reflexivity|lia].
  - apply IH; [|lia].
    destruct (buffer_step_length buffer s) as [Heq|Hgt]; lia.
Qed.

(** A strictly increasing sequence of best scores never fires the check. *)
Lemma check_steps_increasing bests : forall buffer,
  length buffer <= 10 -> StronglySorted Qlt (buffer ++ bests) ->
  Forall (eq false) (check_steps buffer bests).
Proof.
  induction bests as [|s rest IH]; intros buffer Hlen Hsorted; simpl;
    constructor.
  - unfold check_step. rewrite length_app. simpl.
    destruct (Nat.leb_spec (length buffer + 1) 10) as [Hle|Hgt]; [reflexivity|].
    destruct buffer as [|x0 [|x1 l]]; simpl in Hlen, Hgt; try lia.
    cbn [app tail]. unfold steady.
    symmetry. apply negb_false_iff, existsb_exists.
    exists s. split; [right; apply in_or_app; right; left; reflexivity|].
    apply Qltb_lt.
    apply StronglySorted_inv in Hsorted as [Hsorted _].
    apply StronglySorted_inv in Hsorted as [_ Hall].
    rewrite Forall_forall in Hall. apply Hall.
    apply list_elem_of_In, in_or_app. right. left. reflexivity.
  - apply IH.
    + destruct (buffer_step_length buffer s) as [Heq|Hgt]; lia.
    + unfold buffer_step. rewrite length_app. simpl.
      replace (buffer ++ s :: rest) with ((buffer ++ [s]) ++ rest) in Hsorted
        by (rewrite <- app_assoc; reflexivity).
      destruct (Nat.leb_spec (length buffer + 1) 10); [exact Hsorted|].
      destruct buffer as [|x l]; simpl in *; [lia|].
      apply StronglySorted_inv in Hsorted as [Hsorted _]. exact Hsorted.
Qed.

(** A constant sequence of best scores fires the check from the eleventh
    score on. *)
Lemma check_steps_constant c bests : forall buffer i,
  length buffer <= 10 -> 10 <= length buffer + i -> i < length bests ->
  Forall (Qeq c) buffer -> Forall (Qeq c) bests ->
  check_steps buffer bests !! i = Some true.
Proof.
  induction bests as [|s rest IH]; intros buffer i Hlen Hi Hlt Hbuf Hall;
    simpl in *; [lia|].
  apply Forall_cons in Hall as [Hs Hall].
  assert (Happ : Forall (Qeq c) (buffer ++ [s])).
  { apply Forall_app. split; [exact Hbuf|]. constructor; [exact Hs|constructor]. }
  destruct i as [|i]; simpl.
  - unfold check_step. rewrite length_app. simpl.
    destruct (Nat.leb_spec (length buffer + 1) 10); [lia|].
    destruct buffer as [|x0 [|x1 l]]; simpl in Hlen, Hi; try lia.
    simpl in Happ. apply Forall_cons in Happ as [_ Happ].
    f_equal. simpl tail. apply (steady_true _ x1); [reflexivity|].
    intros s' Hin. rewrite Forall_forall in Happ.
    pose proof (Happ s' (proj2 (list_elem_of_In _ _) Hin)) as Hs'.
    pose proof (Happ x1 (list_elem_of_here _ _)) as Hx1.
    rewrite <- Hs', <- Hx1. apply Qlt_irrefl.
  - apply IH; try lia.
    + destruct (buffer_step_length buffer s) as [Heq|Hgt]; lia.
    + destruct (buffer_step_length buffer s) as [Heq|Hgt]; lia.
    + unfold buffer_step.
      destruct (length (buffer ++ [s]) <=? 10); [exact Happ|].
      destruct (buffer ++ [s]) as [|x l]; [constructor|].
      apply Forall_cons in Happ as [_ Happ]. exact Happ.
    + exact Hall.
Qed.

End EndingCriterionProperties.

Section EndingCriterionClaims.
Context {T : Type} `{UserFunctions T}.
Implicit Type a : GeneticAlgorithm T.

Lemma stop_clears_run a : exists a', stop a = Ok tt a' /\ _run a' = false.
Proof.
  unfold stop, LOG, bind, get, modify, defined, ret.
  destruct (_logEnable a); eexists; split; reflexivity.
Qed.

Lemma evolve_loop_stopped limit fuel population (w : GeneticAlgorithm T * Random) :
  _run w.1 = false -> evolve_loop limit fuel population w = Ok tt w.
Proof.
  intros Hrun. destruct fuel; simpl; unfold bind, get; rewrite Hrun; reflexivity.
Qed.

(** C4.  Under [BestScore] one check appends the best score to the history,
    and signals stop exactly when the history then has more than 10 entries
    and, the oldest evicted, none of the entries exceeds the oldest one left.
    Over the successive checks of a run (the history starts empty) the first
    ten never signal stop, a strictly increasing sequence of best scores never
    does, and a constant one does at every check from the eleventh on. *)
Theorem BestScore_check a :
  _endCriterion a = BestScore ->
  (forall e, lastElement a = Some e ->
     let appended := _lastScores a ++ [e.1] in
     exists over a',
       isEvolutionOver a = Ok over a'
       /\ _lastScores a'
          = (if length appended <=? 10 then appended else tail appended)
       /\ (over = true <->
           10 < length appended
           /\ forall first s, head (tail appended) = Some first ->
                In s (tail appended) -> ~ (first < s)%Q))
  /\ (forall stores bests,
        _lastScores a = [] -> best_scores stores bests ->
        exists overs a',
          check_generations stores a = Ok overs a'
          /\ length overs = length bests
          /\ (forall i, i < 10 -> i < length bests -> overs !! i = Some false)
          /\ (StronglySorted Qlt bests -> Forall (eq false) overs)
          /\ (forall c i, Forall (Qeq c) bests -> 10 <= i < length bests ->
                overs !! i = Some true)).
Proof.
  intros Hc. split.
  - intros e He appended.
    rewrite (isEvolutionOver_BestScore a e Hc He).
    eexists. eexists. split; [reflexivity|]. split; [reflexivity|].
    unfold check_step. fold appended.
    destruct (Nat.leb_spec (length appended) 10) as [Hle|Hgt].
    + split; [discriminate|]. intros [Hgt _]. lia.
    + destruct (tail appended) as [|first l] eqn:Htail.
      { destruct appended as [|s0 [|s1 l]]; simpl in Hgt, Htail;
          try lia; discriminate. }
      rewrite (steady_true (first :: l) first eq_refl).
      split.
      * intros Hsteady. split; [exact Hgt|].
        intros first' s [= <-] Hin. apply Hsteady, Hin.
      * intros [_ Hsteady] s Hin. apply (Hsteady first s eq_refl Hin).
  - intros stores bests Hempty Hbests.
    destruct (check_generations_steps stores bests a Hc Hbests) as (a' & Ha').
    rewrite Hempty in Ha'.
    exists (check_steps [] bests), a'.
    split; [exact Ha'|]. split; [apply check_steps_length|].
    split; [intros i Hi Hlt; apply check_steps_early; simpl; lia|].
    split; [intros Hsorted; apply check_steps_increasing; simpl; [lia|exact Hsorted]|].
    intros c i Hall Hi.
    apply (check_steps_constant c); simpl; try lia; [constructor|exact Hall].
Qed.

End EndingCriterionClaims.

(** A run of twelve generations whose best score stays at 1: the first ten
    checks say continue, the eleventh says stop. *)
Lemma BestScore_check_witness :
  _endCriterion (Digits.engine 2 BestScore 0%Q Tournament 1 0%Q) = BestScore
  /\ exists overs a',
       check_generations (repeat [(1%Q, [1%Z])] 12)
         (Digits.engine 2 BestScore 0%Q Tournament 1 0%Q) = Ok overs a'
       /\ overs !! 9 = Some false /\ overs !! 10 = Some true.
Proof.
  split; [reflexivity|].
  destruct (BestScore_check (Digits.engine 2 BestScore 0%Q Tournament 1 0%Q)
              eq_refl) as [_ Hrun].
  destruct (Hrun (repeat [(1%Q, [1%Z])] 12) (repeat 1%Q 12) eq_refl)
    as (overs & a' & Hok & _ & Hearly & _ & Hconstant).
  { repeat constructor. }
  exists overs, a'. split; [exact Hok|]. split.
  - apply Hearly; simpl; lia.
  - apply (Hconstant 1%Q).
    + repeat constructor.
    + simpl. lia.
Defined.

(** ** Mutation *)
Section MutationProperties.
Context {T : Type} `{UserFunctions T}.
Implicit Type a : GeneticAlgorithm T.
Implicit Type c : list T.

(** The loop overwrites the [n] genes from [i] on with the genes that [n]
    successive calls of [randomGene] return. *)
Lemma mutate_loop_spec n : forall c i r,
  i + n <= length c ->
  exists fresh r',
    generate n r = Ok fresh r'
    /\ mutate_loop c i n r = Ok (take i c ++ fresh ++ drop (i + n) c) r'.
Proof.
  induction n as [|n IH]; intros c i r Hlen.
  - exists [], r. split; [reflexivity|].
    simpl. rewrite Nat.add_0_r, take_drop. reflexivity.
  - destruct (call_randomGene_Ok r) as (g & r1 & Hg).
    destruct (IH (<[i:=g]> c) (S i) r1) as (fresh & r' & Hfresh & Hloop).
    { rewrite length_insert. lia. }
    exists (g :: fresh), r'. simpl.
    rewrite !(bind_Ok _ _ _ _ _ Hg), (bind_Ok _ _ _ _ _ Hfresh), Hloop.
    split; [reflexivity|]. f_equal.
    rewrite (take_S_r _ i g) by (apply list_lookup_insert_eq; lia).
    rewrite take_insert_ge by lia.
    rewrite drop_insert_lt by lia.
    rewrite <- app_assoc. simpl.
    replace (S (i + n)) with (i + S n) by lia. reflexivity.
Qed.

Lemma splice_length c b e (fresh : list T) :
  b <= e <= length c -> length fresh = e - b ->
  length (take b c ++ fresh ++ drop e c) = length c.
Proof.
  intros He Hfresh. rewrite !length_app, length_take, length_drop. lia.
Qed.

Lemma splice_outside c b e (fresh : list T) i :
  b <= e <= length c -> length fresh = e - b -> i < b \/ e <= i ->
  (take b c ++ fresh ++ drop e c) !! i = c !! i.
Proof.
  intros He Hfresh [Hlt|Hge].
  - rewrite lookup_app_l by (rewrite length_take; lia).
    apply lookup_take_lt, Hlt.
  - rewrite lookup_app_r by (rewrite length_take; lia).
    rewrite lookup_app_r by (rewrite length_take; lia).
    rewrite lookup_drop, length_take. f_equal. lia.
Qed.

Lemma splice_inside c b e (fresh : list T) i :
  b <= e <= length c -> length fresh = e - b -> b <= i < e ->
  (take b c ++ fresh ++ drop e c) !! i = fresh !! (i - b).
Proof.
  intros He Hfresh Hi.
  rewrite lookup_app_r by (rewrite length_take; lia).
  rewrite length_take, Nat.min_l by lia.
  apply lookup_app_l. lia.
Qed.

(** C7.  On a chromosome of length at least 1, [mutate] never faults.  It
    draws the probability check; when the check fails the chromosome is
    unchanged; otherwise it draws [b] in [0, length-1] and [e] in [b, length]
    and replaces exactly the genes of [b, e) by freshly generated ones, in
    order; the length and every gene outside [b, e) are kept, and nothing
    changes when [b = e]. *)
Theorem mutate_spec a c r :
  1 <= length c ->
  exists p r1 c' r',
    Random.get_double 0%Q 1%Q r = Ok p r1
    /\ mutate a c r = Ok c' r'
    /\ ((Qle_bool p (_mutationProbability a) = false /\ c' = c /\ r' = r1)
        \/ (Qle_bool p (_mutationProbability a) = true
            /\ exists b e fresh r2 r3,
                 Random.get_int 0 (Z.of_nat (length c) - 1) r1
                 = Ok (Z.of_nat b) r2
                 /\ Random.get_unsigned b (length c) r2 = Ok e r3
                 /\ b <= length c - 1 /\ b <= e <= length c
                 /\ generate (e - b) r3 = Ok fresh r'
                 /\ c' = take b c ++ fresh ++ drop e c
                 /\ length c' = length c
                 /\ (forall i, i < b \/ e <= i -> c' !! i = c !! i)
                 /\ (forall i, b <= i < e -> c' !! i = fresh !! (i - b))
                 /\ (b = e -> c' = c))).
Proof.
  intros Hlen.
  destruct (get_double_Ok 0%Q 1%Q r) as (p & Hp & _); [lra|].
  set (r1 := mkRandom (_engine r) (S (_cursor r))) in *.
  unfold mutate. rewrite (bind_Ok _ _ _ _ _ Hp).
  exists p, r1.
  destruct (Qle_bool p (_mutationProbability a)) eqn:Hcheck.
  - destruct (get_int_Ok 0 (Z.of_nat (length c) - 1) r1) as (bz & Hb & Hbz);
      [lia|].
    set (r2 := mkRandom (_engine r1) (S (_cursor r1))) in *.
    destruct (get_unsigned_Ok (Z.to_nat bz) (length c) r2) as (e & He & Hrange & _);
      [lia|].
    set (r3 := mkRandom (_engine r2) (S (_cursor r2))) in *.
    destruct (mutate_loop_spec (e - Z.to_nat bz) c (Z.to_nat bz) r3)
      as (fresh & r' & Hfresh & Hloop); [lia|].
    replace (Z.to_nat bz + (e - Z.to_nat bz)) with e in Hloop by lia.
    destruct (generate_Ok (e - Z.to_nat bz) r3) as (fresh' & r'' & Hgen & Hflen).
    rewrite Hfresh in Hgen. injection Hgen as <- <-.
    exists (take (Z.to_nat bz) c ++ fresh ++ drop e c), r'.
    split; [exact Hp|].
    split.
    { rewrite (bind_Ok _ _ _ _ _ Hb), (bind_Ok _ _ _ _ _ He). exact Hloop. }
    right. split; [reflexivity|].
    exists (Z.to_nat bz), e, fresh, r2, r3.
    rewrite Z2Nat.id by lia.
    split; [exact Hb|]. split; [exact He|].
    split; [lia|]. split; [lia|]. split; [exact Hfresh|].
    split; [reflexivity|].
    split; [apply splice_length; [lia|exact Hflen]|].
    split; [intros i Hi; apply splice_outside; [lia|exact Hflen|exact Hi]|].
    split; [intros i Hi; apply splice_inside; [lia|exact Hflen|exact Hi]|].
    intros Heq. rewrite <- Heq in *. rewrite Nat.sub_diag in Hflen.
    destruct fresh; [|discriminate]. simpl. apply take_drop.
  - exists c, r1. split; [exact Hp|]. split; [reflexivity|].
    left. repeat split.
Qed.

End MutationProperties.

(** A mutation that fires on the chromosome 1 2 3. *)
Lemma mutate_spec_witness :
  1 <= length [1; 2; 3]%Z
  /\ exists c' r',
       mutate (Digits.engine 2 BestScore 0%Q Tournament 1 1%Q) [1; 2; 3]%Z
         (mkRandom (Digits.stream [1 # 2; 4; 5; 7; 8]%Q 0%Q) 0) = Ok c' r'
       /\ length c' = 3.
Proof.
  split; [simpl; lia|].
  destruct (mutate_spec (Digits.engine 2 BestScore 0%Q Tournament 1 1%Q)
              [1; 2; 3]%Z
              (mkRandom (Digits.stream [1 # 2; 4; 5; 7; 8]%Q 0%Q) 0))
    as (p & r1 & c' & r' & Hp & Hmutate & Hcases); [simpl; lia|].
  exists c', r'. split; [exact Hmutate|].
  destruct Hcases as [(_ & -> & _)|(_ & b & e & fresh & r2 & r3 & Hrest)].
  - reflexivity.
  - apply Hrest.
Defined.

(** ** Crossover *)
Section CrossoverProperties.
Context {T : Type} `{UserFunctions T}.
Implicit Type c : list T.

Lemma cross_select_bound fuel m : forall index add genes r genes' r',
  index <= m -> Forall (fun i => i < m) genes ->
  cross_select fuel m index add genes r = Ok genes' r' ->
  Forall (fun i => i < m) genes' /\ _engine r' = _engine r.
Proof.
  induction fuel as [|fuel IH]; intros index add genes r genes' r' Hindex Hgenes;
    simpl; destruct (Nat.ltb_spec index m) as [Hlt|Hge];
    try discriminate; try (unfold ret; intros [= <- <-]; split; auto; fail).
  intros Hrun. apply bind_Ok_inv in Hrun as (next & r1 & Hnext & Hrun).
  destruct (get_unsigned_Ok index m r) as (next' & Hnext' & Hrange & _); [lia|].
  rewrite Hnext in Hnext'. injection Hnext' as -> ->.
  destruct add; apply IH in Hrun; try lia; try exact Hgenes.
  - exact Hrun.
  - apply Forall_app. split; [exact Hgenes|].
    apply Forall_forall. intros i Hi.
    apply list_elem_of_In, in_seq in Hi. lia.
  - exact Hrun.
Qed.

(** With a fair engine the selection loop ends. *)
Lemma cross_select_terminates engine m :
  fair engine ->
  forall gap index add genes r,
    m - index <= gap -> _engine r = engine ->
    exists fuel genes' r', cross_select fuel m index add genes r = Ok genes' r'.
Proof.
  intros Hfair. induction gap as [|gap IHgap]; intros index add genes r Hgap He.
  - exists 0, genes, r. simpl.
    destruct (Nat.ltb_spec index m); [lia|reflexivity].
  - destruct (Nat.ltb_spec index m) as [Hlt|Hge].
    2:{ exists 0, genes, r. simpl.
        destruct (Nat.ltb_spec index m); [lia|reflexivity]. }
    destruct (Hfair (_cursor r) (Z.of_nat (m - index + 1))) as (j & Hj & Hmod);
      [lia|].
    remember (j - _cursor r) as k eqn:Hk.
    revert add genes r He Hj Hk.
    induction k as [|k IHk]; intros add genes r He Hj Hk;
      destruct (get_unsigned_Ok index m r) as (next & Hnext & Hrange & Heq);
      try lia;
      set (r1 := mkRandom (_engine r) (S (_cursor r))) in *.
    + assert (j = _cursor r) as -> by lia.
      rewrite He in Heq.
      pose proof (Z.mod_pos_bound (Qfloor (engine (_cursor r)))
                    (Z.of_nat (m - index + 1))).
      assert (Hadv : index < next) by lia.
      destruct (IHgap next (negb add)
                  (if add then genes ++ seq index (next - index) else genes) r1)
        as (fuel & genes' & r' & Hrun); [lia|exact He|].
      exists (S fuel), genes', r'. simpl.
      destruct (Nat.ltb_spec index m); [|lia].
      rewrite (bind_Ok _ _ _ _ _ Hnext). destruct add; exact Hrun.
    + destruct (decide (index < next)) as [Hadv|Hstall].
      * destruct (IHgap next (negb add)
                    (if add then genes ++ seq index (next - index) else genes) r1)
          as (fuel & genes' & r' & Hrun); [lia|exact He|].
        exists (S fuel), genes', r'. simpl.
        destruct (Nat.ltb_spec index m); [|lia].
        rewrite (bind_Ok _ _ _ _ _ Hnext). destruct add; exact Hrun.
      * assert (next = index) as -> by lia.
        destruct (IHk (negb add)
                    (if add then genes ++ seq index (index - index) else genes) r1)
          as (fuel & genes' & r' & Hrun); [exact He|simpl; lia|simpl; lia|].
        exists (S fuel), genes', r'. simpl.
        destruct (Nat.ltb_spec index m); [|lia].
        rewrite (bind_Ok _ _ _ _ _ Hnext). destruct add; exact Hrun.
Qed.

Lemma exchange_gene_crossed c0 c1 m result index :
  m <= length c0 -> m <= length c1 -> index < m ->
  crossed c0 c1 m result ->
  exists result', exchange_gene result index = Some result'
                  /\ crossed c0 c1 m result'.
Proof.
  intros Hm0 Hm1 Hindex (r0 & r1 & -> & Hlen0 & Hlen1 & Hgenes).
  destruct (lookup_lt_is_Some_2 r0 index) as [g0 Hg0]; [lia|].
  destruct (lookup_lt_is_Some_2 r1 index) as [g1 Hg1]; [lia|].
  unfold exchange_gene. simpl. rewrite Hg0, Hg1.
  eexists. split; [reflexivity|].
  exists (<[index:=g1]> r0), (<[index:=g0]> r1).
  split; [reflexivity|]. rewrite !length_insert.
  split; [exact Hlen0|]. split; [exact Hlen1|].
  intros i. destruct (decide (i = index)) as [->|Hne].
  - rewrite !list_lookup_insert_eq by lia.
    destruct (Hgenes index) as [[H0 H1]|(_ & H0 & H1)].
    + right. rewrite <- H0, <- H1, Hg0, Hg1. auto.
    + left. rewrite <- H0, <- H1, Hg0, Hg1. auto.
  - rewrite !list_lookup_insert_ne by congruence. apply Hgenes.
Qed.

Lemma exchange_crossed c0 c1 m genes : forall result,
  m <= length c0 -> m <= length c1 -> Forall (fun i => i < m) genes ->
  crossed c0 c1 m result ->
  exists result', exchange genes result = Some result'
                  /\ crossed c0 c1 m result'.
Proof.
  induction genes as [|index genes IH]; intros result Hm0 Hm1 Hgenes Hcrossed.
  - exists result. split; [reflexivity|exact Hcrossed].
  - apply Forall_cons in Hgenes as [Hindex Hgenes].
    destruct (exchange_gene_crossed c0 c1 m result index Hm0 Hm1 Hindex Hcrossed)
      as (result1 & Hstep & Hcrossed1).
    simpl. rewrite Hstep. apply IH; assumption.
Qed.

Lemma crossed_initially c0 c1 m : crossed c0 c1 m [c0; c1].
Proof. exists c0, c1. repeat split. intros i. left. split; reflexivity. Qed.

(** C6.  Crossing two chromosomes returns two chromosomes of the lengths of
    the inputs; with [m] the length of the shorter input, every position holds
    either its own parent's gene in both outputs or, only below [m], the other
    parent's gene in both; so every gene at a position [>= m] is unchanged.
    The call returns for every fair sequence of draws. *)
Theorem cross_spec c0 c1 r :
  (fair (_engine r) ->
   exists fuel result r', cross fuel [c0; c1] r = Ok result r')
  /\ (forall fuel result r',
        cross fuel [c0; c1] r = Ok result r' ->
        exists r0 r1,
          result = [r0; r1]
          /\ length r0 = length c0 /\ length r1 = length c1
          /\ (forall i,
                (r0 !! i = c0 !! i /\ r1 !! i = c1 !! i)
                \/ (i < Nat.min (length c0) (length c1)
                    /\ r0 !! i = c1 !! i /\ r1 !! i = c0 !! i))
          /\ (forall i, Nat.min (length c0) (length c1) <= i ->
                r0 !! i = c0 !! i /\ r1 !! i = c1 !! i)).
Proof.
  set (m := Nat.min (length c0) (length c1)).
  assert (Hdone : forall fuel genes r',
            cross_select fuel m 0 true [] r = Ok genes r' ->
            exists result, exchange genes [c0; c1] = Some result
                           /\ crossed c0 c1 m result).
  { intros fuel genes r' Hsel.
    apply cross_select_bound in Hsel as [Hgenes _]; [|lia|constructor].
    apply exchange_crossed; [lia|lia|exact Hgenes|apply crossed_initially]. }
  split.
  - intros Hfair.
    destruct (cross_select_terminates (_engine r) m Hfair m 0 true [] r)
      as (fuel & genes & r' & Hsel); [lia|reflexivity|].
    destruct (Hdone fuel genes r' Hsel) as (result & Hex & _).
    exists fuel, result, r'.
    change (cross fuel [c0; c1] r)
      with (bind (cross_select fuel m 0 true [])
              (fun genes => defined (exchange genes [c0; c1])) r).
    rewrite (bind_Ok _ _ _ _ _ Hsel), Hex. reflexivity.
  - intros fuel result r' Hcross.
    change (cross fuel [c0; c1] r)
      with (bind (cross_select fuel m 0 true [])
              (fun genes => defined (exchange genes [c0; c1])) r) in Hcross.
    apply bind_Ok_inv in Hcross as (genes & r1 & Hsel & Hex).
    apply defined_Ok_inv in Hex as [Hex ->].
    destruct (Hdone fuel genes r1 Hsel) as (result' & Hex' & Hcrossed).
    rewrite Hex in Hex'. injection Hex' as <-.
    destruct Hcrossed as (x0 & x1 & -> & Hlen0 & Hlen1 & Hgenes).
    exists x0, x1. repeat split; try assumption.
    + destruct (Hgenes i) as [[Hsame _]|(Hlt & _)]; [exact Hsame|lia].
    + destruct (Hgenes i) as [[_ Hsame]|(Hlt & _)]; [exact Hsame|lia].
Qed.

End CrossoverProperties.

(** ** Stochastic universal sampling *)
Section SamplingProperties.
Context {T : Type} `{UserFunctions T}.
Implicit Type a : GeneticAlgorithm T.

Lemma sus_score_closed d i : forall s,
  (sus_score s d i == s + inject_Z (Z.of_nat i) * d)%Q.
Proof.
  induction i as [|i IH]; intros s.
  - simpl. ring.
  - cbn [sus_score]. rewrite IH, Nat2Z.inj_succ.
    unfold Z.succ. rewrite inject_Z_plus. ring.
Qed.

Lemma chromosome_fitness_defined a s :
  _population a <> [] -> exists c, chromosome_fitness a s = Some c.
Proof.
  intros Hne. destruct (chromosome_fitness a s) as [c|] eqn:Hc; [eauto|].
  apply chromosome_fitness_None in Hc. contradiction.
Qed.

(** The loop runs as long as the cumulative score is within the total. *)
Lemma sus_loop_spec a d n : forall fuel s selected r,
  _population a <> [] -> n <= fuel ->
  (forall i, i < n -> (sus_score s d i <= totalScore a)%Q) ->
  ~ (sus_score s d n <= totalScore a)%Q ->
  exists picked,
    sus_loop fuel a s d selected r = Ok (selected ++ picked) r
    /\ length picked = n
    /\ forall i, i < n -> picked !! i = chromosome_fitness a (sus_score s d i).
Proof.
  induction n as [|n IH]; intros fuel s selected r Hne Hfuel Hin Hout.
  - exists []. rewrite app_nil_r. split; [|split; [reflexivity|intros; lia]].
    simpl in Hout. rewrite <- Qle_bool_iff in Hout.
    destruct fuel; simpl; destruct (Qle_bool s (totalScore a));
      try reflexivity; contradiction.
  - destruct fuel as [|fuel]; [lia|].
    pose proof (Hin 0 ltac:(lia)) as Hfirst. simpl in Hfirst.
    apply Qle_bool_iff in Hfirst.
    destruct (chromosome_fitness_defined a s Hne) as [c Hc].
    destruct (IH fuel (s + d)%Q (selected ++ [c]) r Hne)
      as (picked & Hloop & Hlen & Hpicked).
    { lia. }
    { intros i Hi. apply (Hin (S i)). lia. }
    { exact Hout. }
    exists (c :: picked). simpl. rewrite Hfirst, Hc. simpl.
    unfold bind, ret. rewrite Hloop, <- app_assoc. simpl.
    split; [reflexivity|]. split; [lia|].
    intros [|i] Hi; simpl; [auto|apply Hpicked; lia].
Qed.

Lemma inject_nat_le i k :
  i <= k -> (inject_Z (Z.of_nat i) <= inject_Z (Z.of_nat k))%Q.
Proof. intros Hle. rewrite <- Zle_Qle. lia. Qed.

(** With an offset in [0, d) and a total of [k] distances, the scores of the
    first [k] iterations are within the total, the next one only for a zero
    offset, and no later one. *)
Lemma sus_count (total d first : Q) (k : nat) :
  1 <= k -> (0 < d)%Q -> (total == inject_Z (Z.of_nat k) * d)%Q ->
  (0 <= first)%Q -> (first < d)%Q ->
  (forall i, i < k -> (sus_score first d i <= total)%Q)
  /\ ((sus_score first d k <= total)%Q <-> (first == 0)%Q)
  /\ ~ (sus_score first d (S k) <= total)%Q.
Proof.
  intros Hk Hd Htotal Hlo Hhi.
  split; [|split].
  - intros i Hi. rewrite sus_score_closed, Htotal.
    assert (Hle : (inject_Z (Z.of_nat (S i)) <= inject_Z (Z.of_nat k))%Q)
      by (apply inject_nat_le; lia).
    rewrite Nat2Z.inj_succ in Hle. unfold Z.succ in Hle.
    rewrite inject_Z_plus in Hle. change (inject_Z 1) with 1%Q in Hle.
    assert ((inject_Z (Z.of_nat i) + 1) * d <= inject_Z (Z.of_nat k) * d)%Q
      by (apply Qmult_le_compat_r; lra).
    lra.
  - rewrite sus_score_closed, Htotal. split; intros Hx; lra.
  - rewrite sus_score_closed, Htotal, Nat2Z.inj_succ.
    unfold Z.succ. rewrite inject_Z_plus. change (inject_Z 1) with 1%Q.
    intros Hle. lra.
Qed.

(** C9 (as amended).  On a store of at least 10 entries (so that the range
    [1, size/10] is not empty) and of positive total score, stochastic
    universal sampling draws [k] in [1, size/10], takes the spacing
    [totalScore/k] and an offset in [0, spacing], and returns, in order, the
    chromosomes that [chromosome(Score)] gives at the cumulative scores
    offset, offset + spacing, ..., as long as the cumulative score is within
    the total score: at least one chromosome, and as many as there are such
    cumulative scores. *)
Theorem select_StochasticUniversal a r :
  _selectionType a = StochasticUniversal ->
  10 <= length (_population a) ->
  (0 < totalScore a)%Q ->
  exists k r1 first r2 selected,
    Random.get_int 1 (Z.of_nat (length (_population a) / 10)) r
    = Ok (Z.of_nat k) r1
    /\ 1 <= k <= length (_population a) / 10
    /\ Random.get_double 0%Q (totalScore a / inject_Z (Z.of_nat k))%Q r1
       = Ok first r2
    /\ (0 <= first <= totalScore a / inject_Z (Z.of_nat k))%Q
    /\ (forall fuel, length selected <= fuel ->
          select fuel a r = Ok selected r2)
    /\ 1 <= length selected
    /\ (forall i, i < length selected ->
          (sus_score first (totalScore a / inject_Z (Z.of_nat k)) i
           <= totalScore a)%Q
          /\ selected !! i
             = chromosome_fitness a
                 (sus_score first (totalScore a / inject_Z (Z.of_nat k)) i))
    /\ ~ (sus_score first (totalScore a / inject_Z (Z.of_nat k))
            (length selected) <= totalScore a)%Q.
Proof.
  intros Hsel Hsize Htotal.
  assert (Hne : _population a <> []).
  { intros Hnil. rewrite Hnil in Hsize. simpl in Hsize. lia. }
  assert (Htenth : 1 <= length (_population a) / 10)
    by (apply Nat.div_le_lower_bound; lia).
  destruct (get_int_Ok 1 (Z.of_nat (length (_population a) / 10)) r)
    as (kz & Hk & Hkz); [lia|].
  set (r1 := mkRandom (_engine r) (S (_cursor r))) in *.
  set (k := Z.to_nat kz).
  assert (Hkk : Z.of_nat k = kz) by (unfold k; lia).
  set (d := (totalScore a / inject_Z (Z.of_nat k))%Q).
  assert (HK : (0 < inject_Z (Z.of_nat k))%Q).
  { change 0%Q with (inject_Z 0). rewrite <- Zlt_Qlt. lia. }
  assert (Hd : (0 < d)%Q).
  { unfold d. apply Qlt_shift_div_l; [exact HK|lra]. }
  assert (Hprod : (totalScore a == inject_Z (Z.of_nat k) * d)%Q).
  { unfold d. field. lra. }
  destruct (get_double_Ok 0%Q d r1) as (first & Hfirst & Hlo & _ & Hhi & _);
    [lra|].
  set (r2 := mkRandom (_engine r1) (S (_cursor r1))) in *.
  specialize (Hhi Hd).
  destruct (sus_count (totalScore a) d first k ltac:(lia) Hd Hprod Hlo Hhi)
    as (Hbelow & Hat & Habove).
  assert (Hrun : forall n,
            (forall i, i < n -> (sus_score first d i <= totalScore a)%Q) ->
            ~ (sus_score first d n <= totalScore a)%Q ->
            exists selected,
              (forall fuel, n <= fuel -> select fuel a r = Ok selected r2)
              /\ length selected = n
              /\ forall i, i < n ->
                   selected !! i = chromosome_fitness a (sus_score first d i)).
  { intros n Hin Hout.
    destruct (sus_loop_spec a d n n first [] r2 Hne (le_n n) Hin Hout)
      as (picked & _ & Hlen & Hpicked).
    exists picked. split; [|split; assumption].
    intros fuel Hfuel.
    destruct (sus_loop_spec a d n fuel first [] r2 Hne Hfuel Hin Hout)
      as (picked' & Hloop & Hlen' & Hpicked').
    assert (picked' = picked) as ->.
    { apply list_eq. intros i. destruct (decide (i < n)) as [Hi|Hi].
      - rewrite Hpicked, Hpicked' by exact Hi. reflexivity.
      - rewrite !lookup_ge_None_2 by lia. reflexivity. }
    unfold select. rewrite Hsel, (bind_Ok _ _ _ _ _ Hk).
    fold k. fold d. rewrite (bind_Ok _ _ _ _ _ Hfirst). exact Hloop. }
  assert (Hk' : Random.get_int 1 (Z.of_nat (length (_population a) / 10)) r
                = Ok (Z.of_nat k) r1) by (rewrite Hkk; exact Hk).
  exists k, r1, first, r2.
  destruct (Qeq_dec first 0) as [Hzero|Hpos].
  - destruct (Hrun (S k)) as (selected & Hselect & Hlen & Hpicked).
    { intros i Hi. destruct (decide (i < k)) as [Hlt|Hge];
        [apply Hbelow, Hlt|].
      assert (i = k) as -> by lia. apply Hat, Hzero. }
    { exact Habove. }
    exists selected. rewrite Hlen.
    split; [exact Hk'|]. split; [lia|]. split; [exact Hfirst|].
    split; [split; [exact Hlo|apply Qlt_le_weak, Hhi]|].
    split; [intros fuel Hfuel; apply Hselect; lia|].
    split; [lia|].
    split; [|exact Habove].
    intros i Hi. split; [|apply Hpicked, Hi].
    destruct (decide (i < k)) as [Hlt|Hge]; [apply Hbelow, Hlt|].
    assert (i = k) as -> by lia. apply Hat, Hzero.
  - destruct (Hrun k) as (selected & Hselect & Hlen & Hpicked).
    { exact Hbelow. }
    { intros Hle. apply Hpos, Hat, Hle. }
    exists selected. rewrite Hlen.
    split; [exact Hk'|]. split; [lia|]. split; [exact Hfirst|].
    split; [split; [exact Hlo|apply Qlt_le_weak, Hhi]|].
    split; [intros fuel Hfuel; apply Hselect; lia|].
    split; [lia|].
    split; [intros i Hi; split; [apply Hbelow, Hi|apply Hpicked, Hi]|].
    intros Hle. apply Hpos, Hat, Hle.
Qed.

End SamplingProperties.

(** C9 (as stated) fails.  On ten chromosomes of score 1 the count can only
    be [k = 1]; with an offset of 0 the chromosomes at the cumulative scores
    0 and 10 are both returned, two chromosomes instead of at most [k].  On a
    store of one chromosome the range [1, 1/10] of the count is empty and the
    draw is undefined.  And the range follows the size of the store, not the
    configured population size: with a population size of 19 and the 20
    chromosomes that its generations breed, the count 2 is drawn. *)
Lemma StochasticUniversal_exceeds_k :
  (length Digits.ten_ones / 10 = 1
   /\ (0 < totalScore
             (set_population Digits.ten_ones
                (Digits.engine 10 BestScore 0%Q StochasticUniversal 1 0%Q)))%Q
   /\ exists r',
        select 5
          (set_population Digits.ten_ones
             (Digits.engine 10 BestScore 0%Q StochasticUniversal 1 0%Q))
          (mkRandom (Digits.stream [5; 0]%Q 0%Q) 0)
        = Ok [[1%Z]; [1%Z]] r')
  /\ (forall fuel r,
        select fuel
          (set_population [(1%Q, [1%Z])]
             (Digits.engine 1 BestScore 0%Q StochasticUniversal 1 0%Q)) r
        = Fault)
  /\ (_populationSize
        (set_population (repeat (1%Q, [1%Z]) 20)
           (Digits.engine 19 BestScore 0%Q StochasticUniversal 1 0%Q)) / 10 = 1
      /\ exists r',
           Random.get_int 1
             (Z.of_nat
                (length
                   (_population
                      (set_population (repeat (1%Q, [1%Z]) 20)
                         (Digits.engine 19 BestScore 0%Q StochasticUniversal
                            1 0%Q))) / 10))
             (mkRandom (Digits.stream [1; 1 # 2]%Q 0%Q) 0) = Ok 2%Z r'
           /\ select 5
                (set_population (repeat (1%Q, [1%Z]) 20)
                   (Digits.engine 19 BestScore 0%Q StochasticUniversal 1 0%Q))
                (mkRandom (Digits.stream [1; 1 # 2]%Q 0%Q) 0)
              = Ok [[1%Z]; [1%Z]]
                  (mkRandom (Digits.stream [1; 1 # 2]%Q 0%Q) 2)).
Proof.
  split; [|split].
  - split; [reflexivity|]. split; [reflexivity|].
    eexists. vm_compute. reflexivity.
  - intros fuel r. reflexivity.
  - split; [reflexivity|]. eexists. split; vm_compute; reflexivity.
Qed.

(** The same call, as the amended statement describes it. *)
Lemma select_StochasticUniversal_witness :
  _selectionType
    (set_population Digits.ten_ones
       (Digits.engine 10 BestScore 0%Q StochasticUniversal 1 0%Q))
  = StochasticUniversal
  /\ 10 <= length Digits.ten_ones
  /\ exists selected r',
       select (length selected)
         (set_population Digits.ten_ones
            (Digits.engine 10 BestScore 0%Q StochasticUniversal 1 0%Q))
         (mkRandom (Digits.stream [5; 0]%Q 0%Q) 0) = Ok selected r'
       /\ 1 <= length selected.
Proof.
  split; [reflexivity|]. split; [simpl; lia|].
  destruct (select_StochasticUniversal
              (set_population Digits.ten_ones
                 (Digits.engine 10 BestScore 0%Q StochasticUniversal 1 0%Q))
              (mkRandom (Digits.stream [5; 0]%Q 0%Q) 0))
    as (k & r1 & first & r2 & selected & _ & _ & _ & _ & Hsel & Hone & _).
  - reflexivity.
  - simpl. lia.
  - reflexivity.
  - exists selected, r2. split; [apply Hsel; lia|exact Hone].
Defined.

(** ** Exceptions *)
Section NeverThrows.
Context {W : Type}.

Lemma never_throws_ret {A} (a : A) : never_throws (W:=W) (ret a).
Proof. intros w msg w'. discriminate. Qed.

Lemma never_throws_fault {A} : never_throws (W:=W) (A:=A) fault.
Proof. intros w msg w'. discriminate. Qed.

Lemma never_throws_out_of_fuel {A} : never_throws (W:=W) (A:=A) out_of_fuel.
Proof. intros w msg w'. discriminate. Qed.

Lemma never_throws_get : never_throws (W:=W) get.
Proof. intros w msg w'. discriminate. Qed.

Lemma never_throws_modify (f : W -> W) : never_throws (modify f).
Proof. intros w msg w'. discriminate. Qed.

Lemma never_throws_defined {A} (o : option A) : never_throws (W:=W) (defined o).
Proof. intros w msg w'. destruct o; discriminate. Qed.

Lemma never_throws_bind {A B} (m : M W A) (k : A -> M W B) :
  never_throws m -> (forall a, never_throws (k a)) -> never_throws (bind m k).
Proof.
  intros Hm Hk w msg w'. unfold bind.
  destruct (m w) as [a w1|msg1 w1| |w1] eqn:Hmw; try discriminate.
  - apply Hk.
  - destruct (Hm w msg1 w1 Hmw).
Qed.

End NeverThrows.

Lemma never_throws_on_fst {S R A} (m : M S A) :
  never_throws m -> never_throws (on_fst (R:=R) m).
Proof.
  intros Hm w msg w'. unfold on_fst.
  destruct (m w.1) as [a s|msg1 s| |s] eqn:Hmw; try discriminate.
  destruct (Hm w.1 msg1 s Hmw).
Qed.

Lemma never_throws_on_snd {S R A} (m : M R A) :
  never_throws m -> never_throws (on_snd (S:=S) m).
Proof.
  intros Hm w msg w'. unfold on_snd.
  destruct (m w.2) as [a s|msg1 s| |s] eqn:Hmw; try discriminate.
  destruct (Hm w.2 msg1 s Hmw).
Qed.

Create HintDb nothrow.
#[global] Hint Resolve never_throws_ret never_throws_fault
  never_throws_out_of_fuel never_throws_get never_throws_modify
  never_throws_defined never_throws_on_fst never_throws_on_snd : nothrow.

(** Walks through a computation, one bind or case distinction at a time. *)
Ltac nothrow :=
  repeat first
    [ solve [auto with nothrow]
    | apply never_throws_bind; [|intro]
    | apply never_throws_on_fst
    | apply never_throws_on_snd
    | match goal with
      | |- never_throws (if ?b then _ else _) => destruct b
      | |- never_throws (match ?x with _ => _ end) => destruct x
      end ].

Section EngineNeverThrows.
Context {T : Type} `{UserFunctions T}.
Implicit Type a : GeneticAlgorithm T.

Lemma never_throws_next : never_throws Random.next.
Proof. intros w msg w'. discriminate. Qed.

Lemma never_throws_get_double min max : never_throws (Random.get_double min max).
Proof. pose proof never_throws_next. unfold Random.get_double. nothrow. Qed.

Lemma never_throws_get_int min max : never_throws (Random.get_int min max).
Proof. pose proof never_throws_next. unfold Random.get_int. nothrow. Qed.

Lemma never_throws_get_unsigned min max :
  never_throws (Random.get_unsigned min max).
Proof. pose proof never_throws_next. unfold Random.get_unsigned. nothrow. Qed.

Lemma never_throws_call_randomGene : never_throws call_randomGene.
Proof.
  intros w msg w'. unfold call_randomGene. destruct (randomGene w). discriminate.
Qed.

Hint Resolve never_throws_get_double never_throws_get_int
  never_throws_get_unsigned never_throws_call_randomGene : nothrow.

Lemma never_throws_generate n : never_throws (generate n).
Proof. induction n; simpl; nothrow. Qed.

Hint Resolve never_throws_generate : nothrow.

Lemma never_throws_randomChromosome a : never_throws (randomChromosome a).
Proof. unfold randomChromosome. nothrow. Qed.

Hint Resolve never_throws_randomChromosome : nothrow.

Lemma never_throws_seed a n : forall population,
  never_throws (seed a n population).
Proof. induction n; intros population; simpl; nothrow. Qed.

Lemma never_throws_tournament_draw a n : forall tournament,
  never_throws (tournament_draw a n tournament).
Proof. induction n; intros tournament; simpl; nothrow. Qed.

Lemma never_throws_sus_loop a d fuel : forall s selected,
  never_throws (sus_loop fuel a s d selected).
Proof. induction fuel; intros s selected; simpl; nothrow. Qed.

Hint Resolve never_throws_tournament_draw never_throws_sus_loop : nothrow.

Lemma never_throws_select fuel a :
  _selectionType a <> UnknownSelectionType -> never_throws (select fuel a).
Proof.
  intros Hsel. unfold select.
  destruct (_selectionType a); [nothrow|nothrow|nothrow|contradiction].
Qed.

Lemma select_unknown fuel a r :
  _selectionType a = UnknownSelectionType ->
  select fuel a r = Throw "Unknown selection type" r.
Proof. intros Hsel. unfold select. rewrite Hsel. reflexivity. Qed.

Lemma never_throws_cross_select fuel m : forall index add genes,
  never_throws (cross_select fuel m index add genes).
Proof. induction fuel; intros index add genes; simpl; nothrow. Qed.

Hint Resolve never_throws_select never_throws_cross_select : nothrow.

Lemma never_throws_cross fuel (chromosomes : list (list T)) :
  never_throws (cross fuel chromosomes).
Proof. unfold cross. nothrow. Qed.

Lemma never_throws_mutate_loop n : forall c i, never_throws (mutate_loop c i n).
Proof. induction n; intros c i; simpl; nothrow. Qed.

Hint Resolve never_throws_cross never_throws_mutate_loop : nothrow.

Lemma never_throws_mutate a c : never_throws (mutate a c).
Proof. unfold mutate. nothrow. Qed.

Hint Resolve never_throws_mutate : nothrow.

Lemma never_throws_mutate_all a population : never_throws (mutate_all a population).
Proof. induction population; simpl; nothrow. Qed.

Lemma never_throws_gather limit a fuel :
  _selectionType a <> UnknownSelectionType ->
  forall selection, never_throws (gather limit fuel a selection).
Proof. intros Hsel. induction fuel; intros selection; simpl; nothrow. Qed.

Lemma never_throws_recombine limit (selection : list (list T)) n :
  forall i population, never_throws (recombine limit selection i n population).
Proof. induction n; intros i population; simpl; nothrow. Qed.

Hint Resolve never_throws_mutate_all never_throws_gather
  never_throws_recombine : nothrow.

Lemma never_throws_fill limit a fuel :
  _selectionType a <> UnknownSelectionType ->
  forall population, never_throws (fill limit fuel a population).
Proof. intros Hsel. induction fuel; intros population; simpl; nothrow. Qed.

Lemma never_throws_LOG (line : GeneticAlgorithm T -> option LogLine) :
  never_throws (LOG line).
Proof. unfold LOG. nothrow. Qed.

Hint Resolve never_throws_LOG : nothrow.

End EngineNeverThrows.

(** ** The configuration error of [run] *)
Section RunErrors.
Context {T : Type} `{UserFunctions T}.
Implicit Type a : GeneticAlgorithm T.

Lemma tournament_too_large_true a :
  tournament_too_large a = true
  <-> _selectionType a = Tournament /\ _populationSize a < _tournamentSize a.
Proof.
  unfold tournament_too_large. destruct (_selectionType a).
  - split; [discriminate|intros [? _]; discriminate].
  - split; [discriminate|intros [? _]; discriminate].
  - rewrite Nat.ltb_lt. split; [intros Hlt; split; [reflexivity|exact Hlt]|].
    intros [_ Hlt]. exact Hlt.
  - split; [discriminate|intros [? _]; discriminate].
Qed.

Lemma run_unfold fuel blocking enableLogging outputStream a r :
  run fuel blocking enableLogging outputStream (a, r)
  = if tournament_too_large a
    then Throw "The tournament size cannot be greater than the population size"
           (set_logStream outputStream (set_logEnable enableLogging a), r)
    else run_checked fuel blocking
           (set_logStream outputStream (set_logEnable enableLogging a), r).
Proof.
  unfold run. unfold bind at 1 2 3. simpl.
  change (tournament_too_large _) with (tournament_too_large a).
  destruct (tournament_too_large a); reflexivity.
Qed.

End RunErrors.

(** ** One generation *)
Section GenerationProperties.
Context {T : Type} `{UserFunctions T}.
Implicit Type a : GeneticAlgorithm T.

Lemma LOG_line_generation a e :
  lastElement a = Some e ->
  LOG line_generation a
  = Ok tt (if _logEnable a
           then set_logStream
                  (_logStream a ++ [LogGeneration (_generation a) e.1 (print e.2)])
                  a
           else a).
Proof.
  intros He. unfold LOG, line_generation, bind, get. rewrite He.
  destruct (_logEnable a); reflexivity.
Qed.

Lemma LOG_matched a :
  LOG (fun _ => Some LogCriterionMatched) a = Ok tt (matched a).
Proof.
  unfold LOG, matched, bind, get. destruct (_logEnable a); reflexivity.
Qed.

Lemma generation_unfold limit population a r e :
  last (score_population population) = Some e ->
  generation limit population (a, r)
  = match isEvolutionOver (scored population e a) with
    | Ok true a' => Ok None (matched a', r)
    | Ok false a' => breed limit a' r
    | Throw msg a' => Throw msg (a', r)
    | Fault => Fault
    | OutOfFuel a' => OutOfFuel (a', r)
    end.
Proof.
  intros He. unfold generation.
  rewrite (bind_Ok _ _ _ tt (set_population (score_population population) a, r))
    by reflexivity.
  rewrite (bind_Ok _ _ _ tt (scored population e a, r))
    by (apply on_fst_Ok;
        exact (LOG_line_generation
                 (set_population (score_population population) a) e He)).
  unfold bind at 1. unfold on_fst at 1. cbn [fst snd].
  destruct (isEvolutionOver (scored population e a)) as [[|] a'|msg a'| |a'];
    try reflexivity.
  - rewrite (bind_Ok _ _ _ tt (matched a', r))
      by (apply on_fst_Ok, LOG_matched).
    reflexivity.
  - unfold breed. unfold bind at 1. unfold get at 1.
    unfold bind at 1. unfold on_snd at 1. cbn [fst snd].
    destruct (fill limit limit a' [] r) as [p r1|msg r1| |r1]; try reflexivity.
    unfold bind at 1. unfold on_snd at 1. cbn [fst snd].
    destruct (mutate_all a' p r1) as [p' r2|msg r2| |r2]; reflexivity.
Qed.

(** A generation on an empty working population reads the last element of
    an empty store, for the log line or in the check, unless logging is
    disabled and the check throws before it reads anything. *)
Lemma generation_empty limit a r :
  generation limit [] (a, r)
  = if _logEnable a then Fault
    else match _endCriterion a with
         | UnknownEndingCriterion =>
             Throw "Unknown ending criterion" (set_population [] a, r)
         | _ => Fault
         end.
Proof.
  unfold generation.
  rewrite (bind_Ok _ _ _ tt (set_population [] a, r)) by reflexivity.
  unfold bind at 1. unfold on_fst at 1. cbn [fst snd].
  unfold LOG at 1. unfold bind at 1. unfold get at 1.
  cbn [_logEnable set_population].
  destruct (_logEnable a); [reflexivity|].
  cbn [ret]. unfold bind at 1. unfold on_fst at 1. cbn [fst snd].
  destruct (_endCriterion a) eqn:Hc.
  - rewrite isEvolutionOver_empty; [reflexivity| |reflexivity].
    cbn [_endCriterion set_population]. congruence.
  - rewrite isEvolutionOver_empty; [reflexivity| |reflexivity].
    cbn [_endCriterion set_population]. congruence.
  - rewrite isEvolutionOver_unknown by exact Hc. reflexivity.
Qed.

Lemma generation_empty_cases limit (w : GeneticAlgorithm T * Random) :
  generation limit [] w = Fault
  \/ exists w', generation limit [] w = Throw "Unknown ending criterion" w'.
Proof.
  destruct w as [a r]. rewrite generation_empty.
  destruct (_logEnable a); [left; reflexivity|].
  destruct (_endCriterion a); eauto.
Qed.

(** *** The scored store *)

Lemma multimap_insert_In {V} (k : Q) (v : V) m e :
  In e (multimap_insert k v m) <-> e = (k, v) \/ In e m.
Proof.
  induction m as [|x m IH]; simpl.
  - split; [intros [<-|[]]; auto|intros [->|[]]; auto].
  - destruct (Qltb k x.1); simpl; [split; intros [?|?]; auto|].
    rewrite IH. split; intros [?|[?|?]]; auto.
Qed.

Lemma multimap_insert_length {V} (k : Q) (v : V) m :
  length (multimap_insert k v m) = S (length m).
Proof.
  induction m as [|x m IH]; simpl; [reflexivity|].
  destruct (Qltb k x.1); simpl; [reflexivity|]. rewrite IH. reflexivity.
Qed.

Lemma multimap_insert_sorted {V} (k : Q) (v : V) m :
  StronglySorted (fun x y => (x.1 <= y.1)%Q) m ->
  StronglySorted (fun x y => (x.1 <= y.1)%Q) (multimap_insert k v m).
Proof.
  induction m as [|x m IH]; intros Hsorted; simpl.
  - repeat constructor.
  - apply StronglySorted_inv in Hsorted as [Hm Hx].
    destruct (Qltb k x.1) eqn:Hlt.
    + apply Qltb_lt in Hlt. constructor; [constructor; assumption|].
      constructor; [simpl; lra|].
      rewrite Forall_forall in Hx |- *. intros y Hy.
      specialize (Hx y Hy). simpl in *. lra.
    + constructor; [apply IH, Hm|].
      apply Forall_forall. intros y Hy.
      apply list_elem_of_In, multimap_insert_In in Hy as [->|Hy].
      * simpl. unfold Qltb in Hlt. apply negb_false_iff, Qle_bool_iff in Hlt.
        exact Hlt.
      * rewrite Forall_forall in Hx. apply Hx, list_elem_of_In, Hy.
Qed.

Lemma scored_entries (population : list (list T)) : forall m e,
  In e (fold_left (fun m c => multimap_insert (score c) c m) population m)
  <-> In e m \/ exists c, In c population /\ e = (score c, c).
Proof.
  induction population as [|c population IH]; intros m e; simpl.
  - split; [auto|]. intros [?|(c & [] & _)]; assumption.
  - rewrite IH, multimap_insert_In. split.
    + intros [[->|Hin]|(c' & Hc' & ->)]; eauto.
    + intros [Hin|(c' & [<-|Hc'] & ->)]; eauto.
Qed.

Lemma scored_sorted (population : list (list T)) : forall m,
  StronglySorted (fun x y => (x.1 <= y.1)%Q) m ->
  StronglySorted (fun x y => (x.1 <= y.1)%Q)
    (fold_left (fun m c => multimap_insert (score c) c m) population m).
Proof.
  induction population as [|c population IH]; intros m Hm; simpl;
    [exact Hm|].
  apply IH, multimap_insert_sorted, Hm.
Qed.

Lemma scored_length (population : list (list T)) : forall m,
  length (fold_left (fun m c => multimap_insert (score c) c m) population m)
  = length m + length population.
Proof.
  induction population as [|c population IH]; intros m; simpl; [lia|].
  rewrite IH, multimap_insert_length. lia.
Qed.

Lemma sorted_last_max {V} (m : list (Q * V)) e :
  StronglySorted (fun x y => (x.1 <= y.1)%Q) m -> last m = Some e ->
  forall x, In x m -> (x.1 <= e.1)%Q.
Proof.
  induction m as [|y m IH]; intros Hsorted Hlast x Hx; [destruct Hx|].
  apply StronglySorted_inv in Hsorted as [Hm Hy].
  destruct m as [|z m].
  - simpl in Hlast. injection Hlast as <-.
    destruct Hx as [<-|[]]. lra.
  - change (last (y :: z :: m)) with (last (z :: m)) in Hlast.
    destruct Hx as [<-|Hx]; [|apply IH; assumption].
    rewrite Forall_forall in Hy. apply Hy, list_elem_of_In.
    apply last_Some_elem_of in Hlast. apply list_elem_of_In, Hlast.
Qed.

(** The last entry of the scored store is a chromosome of the working
    population with the highest score. *)
Lemma score_population_best (population : list (list T)) e :
  last (score_population population) = Some e ->
  In e.2 population /\ e.1 = score e.2
  /\ forall c, In c population -> (score c <= e.1)%Q.
Proof.
  intros Hlast. unfold score_population in *.
  pose proof (last_Some_elem_of _ _ Hlast) as Hin.
  apply list_elem_of_In, scored_entries in Hin as [[]|(c & Hc & ->)].
  split; [exact Hc|]. split; [reflexivity|].
  intros c' Hc'.
  apply (sorted_last_max _ (score c, c)
           (scored_sorted population [] (SSorted_nil _)) Hlast (score c', c')).
  apply scored_entries. right. eauto.
Qed.

Lemma score_population_nonempty (population : list (list T)) :
  population <> [] -> exists e, last (score_population population) = Some e.
Proof.
  intros Hne. destruct (last (score_population population)) as [e|] eqn:Hlast;
    [eauto|].
  apply last_None_iff in Hlast. apply (f_equal length) in Hlast.
  unfold score_population in Hlast. rewrite scored_length in Hlast.
  destruct population; [contradiction|simpl in Hlast; lia].
Qed.

(** *** What the ending criterion leaves alone *)

Lemma isEvolutionOver_frame a over a' :
  isEvolutionOver a = Ok over a' ->
  same_but_history a a' /\ exists e, lastElement a = Some e.
Proof.
  intros Hover.
  assert (Hdeclared : _endCriterion a <> UnknownEndingCriterion).
  { intros Hc. rewrite (isEvolutionOver_unknown a Hc) in Hover. discriminate. }
  destruct (lastElement a) as [e|] eqn:He.
  2:{ apply lastElement_None in He.
      rewrite (isEvolutionOver_empty a Hdeclared He) in Hover. discriminate. }
  split; [|eauto].
  destruct (_endCriterion a) eqn:Hc; [| |contradiction].
  - rewrite (isEvolutionOver_MaxScore a e Hc He) in Hover.
    injection Hover as _ <-. repeat split.
  - rewrite (isEvolutionOver_BestScore a e Hc He) in Hover.
    injection Hover as _ <-. repeat split.
Qed.

End GenerationProperties.

(** Closes or splits a goal about a generation on an empty population. *)
Ltac generation_of_nothing :=
  match goal with
  | Hgen : generation ?l [] ?w = _ |- _ =>
      let Hg := fresh "Hg" in
      destruct (generation_empty_cases l w) as [Hg|[? Hg]];
      rewrite Hg in Hgen; discriminate
  | |- context [generation ?l [] ?w] =>
      destruct (generation_empty_cases l w) as [->|[? ->]]
  end.

Section BestOfGeneration.
Context {T : Type} `{UserFunctions T}.
Implicit Type a : GeneticAlgorithm T.

(** A generation that returns leaves the store of its own scoring pass. *)
Lemma generation_store limit population (w w' : GeneticAlgorithm T * Random)
    next :
  generation limit population w = Ok next w' ->
  _population w'.1 = score_population population
  /\ _populationSize w'.1 = _populationSize w.1
  /\ _selectionType w'.1 = _selectionType w.1.
Proof.
  destruct w as [a r]. intros Hgen.
  destruct population as [|c population]; [generation_of_nothing|].
  destruct (score_population_nonempty (c :: population)) as [e He];
    [discriminate|].
  rewrite (generation_unfold _ _ _ _ e He) in Hgen.
  destruct (isEvolutionOver (scored (c :: population) e a))
    as [over a'|msg a'| |a'] eqn:Hover; try (destruct over; discriminate);
    try discriminate.
  apply isEvolutionOver_frame in Hover as [Hframe _].
  destruct Hframe as (Hsize & _ & Hsel & _ & _ & Hpop & _).
  assert (Hscored : _population (scored (c :: population) e a)
                    = score_population (c :: population)
                    /\ _populationSize (scored (c :: population) e a)
                       = _populationSize a
                    /\ _selectionType (scored (c :: population) e a)
                       = _selectionType a).
  { unfold scored. destruct (_logEnable a); repeat split. }
  destruct Hscored as (Hs1 & Hs2 & Hs3).
  rewrite Hs1 in Hpop. rewrite Hs2 in Hsize. rewrite Hs3 in Hsel.
  destruct over.
  - injection Hgen as _ <-. unfold matched.
    destruct (_logEnable a'); simpl; auto.
  - unfold breed in Hgen.
    destruct (fill limit limit a' [] r) as [p r1|msg r1| |r1]; try discriminate.
    destruct (mutate_all a' p r1) as [p' r2|msg r2| |r2]; try discriminate.
    injection Hgen as _ <-. simpl. auto.
Qed.

(** C1 (as amended).  The best score that the store records after a
    generation is the highest score of that generation's own working
    population, which the store holds and nothing else: no chromosome of the
    previous generation is kept, so the best score may be lower than the one
    before. *)
Theorem best_is_maximum_of_generation limit population
    (w w' : GeneticAlgorithm T * Random) next :
  generation limit population w = Ok next w' ->
  _population w'.1 = score_population population
  /\ exists e, lastElement w'.1 = Some e
       /\ In e.2 population /\ e.1 = score e.2
       /\ forall c, In c population -> (score c <= e.1)%Q.
Proof.
  intros Hgen.
  destruct (generation_store limit population w w' next Hgen) as (Hstore & _).
  split; [exact Hstore|].
  destruct population as [|c population].
  { generation_of_nothing. }
  destruct (score_population_nonempty (c :: population)) as [e He];
    [discriminate|].
  exists e. unfold lastElement. rewrite Hstore.
  split; [exact He|]. apply score_population_best, He.
Qed.

End BestOfGeneration.

(** Two chromosomes, 1 and 0, under tournaments of size 1. *)
Lemma best_is_maximum_of_generation_witness :
  exists next w',
    generation 5 [[1%Z]; [0%Z]]
      (Digits.engine 2 BestScore 0%Q Tournament 1 0%Q, Digits.worst_twice)
    = Ok next w'
    /\ exists e, lastElement w'.1 = Some e
         /\ forall c, In c [[1%Z]; [0%Z]] -> (score c <= e.1)%Q.
Proof.
  destruct (generation 5 [[1%Z]; [0%Z]]
              (Digits.engine 2 BestScore 0%Q Tournament 1 0%Q,
               Digits.worst_twice)) as [next w'| | |] eqn:Hgen;
    try (vm_compute in Hgen; discriminate).
  exists next, w'. split; [reflexivity|].
  destruct (best_is_maximum_of_generation _ _ _ _ _ Hgen)
    as (_ & e & He & _ & _ & Hmax).
  exists e. split; [exact He|exact Hmax].
Defined.

(** C1 (as stated) fails: generation 0 scores the chromosomes 1 and 0, both
    tournaments pick the chromosome 0, and the best score recorded after
    generation 1 is 0, below the 1 recorded after generation 0. *)
Lemma best_score_can_decrease :
  exists p1 w1 p2 w2 e1 e2,
    generation 5 [[1%Z]; [0%Z]]
      (Digits.engine 2 BestScore 0%Q Tournament 1 0%Q, Digits.worst_twice)
    = Ok (Some p1) w1
    /\ generation 5 p1 w1 = Ok (Some p2) w2
    /\ lastElement w1.1 = Some e1
    /\ lastElement w2.1 = Some e2
    /\ (e2.1 < e1.1)%Q.
Proof.
  do 6 eexists.
  split; [vm_compute; reflexivity|].
  split; [vm_compute; reflexivity|].
  split; [vm_compute; reflexivity|].
  split; [vm_compute; reflexivity|].
  reflexivity.
Qed.

(** ** The filling loop returns *)
Section FillReturns.
Context {T : Type} `{UserFunctions T}.
Implicit Type a : GeneticAlgorithm T.

Lemma cross_select_mono fuel m : forall fuel' index add genes r genes' r',
  fuel <= fuel' ->
  cross_select fuel m index add genes r = Ok genes' r' ->
  cross_select fuel' m index add genes r = Ok genes' r'.
Proof.
  induction fuel as [|fuel IH]; intros fuel' index add genes r genes' r' Hle;
    simpl; destruct (Nat.ltb_spec index m) as [Hlt|Hge]; try discriminate.
  - intros Hret. destruct fuel'; simpl;
      destruct (Nat.ltb_spec index m); try lia; exact Hret.
  - destruct fuel' as [|fuel']; [lia|]. simpl.
    destruct (Nat.ltb_spec index m); [|lia].
    unfold bind. destruct (Random.get_unsigned index m r) as [next r1| | |];
      try discriminate.
    destruct add; apply IH; lia.
  - intros Hret. destruct fuel'; simpl;
      destruct (Nat.ltb_spec index m); try lia; exact Hret.
Qed.

(** Crossing two chromosomes on a fair engine returns for every large enough
    limit, with the same result. *)
Lemma cross_returns (x y : list T) r :
  fair (_engine r) ->
  exists L x' y' r',
    _engine r' = _engine r
    /\ forall limit, L <= limit -> cross limit [x; y] r = Ok [x'; y'] r'.
Proof.
  intros Hfair. set (m := Nat.min (length x) (length y)).
  destruct (cross_select_terminates (_engine r) m Hfair m 0 true [] r)
    as (L & genes & r' & Hsel); [lia|reflexivity|].
  pose proof (cross_select_bound _ _ _ _ _ _ _ _ (Nat.le_0_l m)
                (Forall_nil_2 _) Hsel) as [Hgenes Hengine].
  destruct (exchange_crossed x y m genes [x; y]) as (result & Hex & Hcrossed);
    [lia|lia|exact Hgenes|apply crossed_initially|].
  destruct Hcrossed as (x' & y' & -> & _).
  exists L, x', y', r'. split; [exact Hengine|].
  intros limit Hlimit.
  change (cross limit [x; y] r)
    with (bind (cross_select limit m 0 true [])
            (fun genes => defined (exchange genes [x; y])) r).
  rewrite (bind_Ok _ _ _ _ _ (cross_select_mono _ _ _ _ _ _ _ _ _ Hlimit Hsel)).
  rewrite Hex. reflexivity.
Qed.

Lemma tournament_draw_returns a n : forall tournament r,
  _population a <> [] ->
  exists drawn r',
    tournament_draw a n tournament r = Ok (tournament ++ drawn) r'
    /\ length drawn = n /\ _engine r' = _engine r.
Proof.
  induction n as [|n IH]; intros tournament r Hne.
  - exists [], r. rewrite app_nil_r. repeat split.
  - destruct (get_int_Ok 0 (Z.of_nat (length (_population a)) - 1) r)
      as (i & Hi & _).
    { destruct (_population a); [contradiction|simpl; lia]. }
    destruct (IH (tournament ++ [Z.to_nat i])
                (mkRandom (_engine r) (S (_cursor r))) Hne)
      as (drawn & r' & Hdraw & Hlen & Hengine).
    exists (Z.to_nat i :: drawn), r'. simpl.
    rewrite (bind_Ok _ _ _ _ _ Hi), Hdraw, <- app_assoc.
    repeat split; [simpl; lia|exact Hengine].
Qed.

Lemma select_returns limit a r :
  selects_one a ->
  exists c r', select limit a r = Ok [c] r' /\ _engine r' = _engine r.
Proof.
  intros [Hne [[Hsel Hsize]|[Hsel Htotal]]]; unfold select; rewrite Hsel.
  - destruct (tournament_draw_returns a (_tournamentSize a) [] r Hne)
      as (drawn & r' & Hdraw & Hlen & Hengine).
    simpl in Hdraw. rewrite (bind_Ok _ _ _ _ _ Hdraw).
    destruct drawn as [|i drawn]; [simpl in Hlen; lia|]. simpl.
    unfold bind at 1. unfold ret at 1.
    destruct (chromosome_index a (tournament_best a (i :: drawn) i))
      as [c|] eqn:Hc; [|apply chromosome_index_None in Hc; contradiction].
    exists c, r'. split; [reflexivity|exact Hengine].
  - destruct (get_double_Ok 0%Q (totalScore a) r Htotal) as (p & Hp & _).
    rewrite (bind_Ok _ _ _ _ _ Hp).
    destruct (chromosome_fitness_defined a p Hne) as [c Hc].
    rewrite Hc. exists c. eexists. split; reflexivity.
Qed.

Lemma select_limit_irrelevant limit limit' a r :
  selects_one a -> select limit a r = select limit' a r.
Proof.
  intros [_ [[Hsel _]|[Hsel _]]]; unfold select; rewrite Hsel; reflexivity.
Qed.

Lemma gather_returns a r :
  selects_one a ->
  exists x y r',
    _engine r' = _engine r
    /\ forall limit fuel, 2 <= fuel ->
         gather limit fuel a [] r = Ok [x; y] r'.
Proof.
  intros Hone.
  destruct (select_returns 0 a r Hone) as (x & r1 & Hx & He1).
  destruct (select_returns 0 a r1 Hone) as (y & r2 & Hy & He2).
  exists x, y, r2. split; [congruence|].
  intros limit fuel Hfuel.
  destruct fuel as [|[|fuel]]; try lia.
  cbn [gather]. change (length (@nil (list T)) <? 2) with true. cbv iota.
  rewrite (bind_Ok _ _ _ [x] r1)
    by (rewrite (select_limit_irrelevant limit 0 a r Hone); exact Hx).
  change (length ([] ++ [x]) <? 2) with true. cbv iota.
  rewrite (bind_Ok _ _ _ [y] r2)
    by (rewrite (select_limit_irrelevant limit 0 a r1 Hone); exact Hy).
  destruct fuel; reflexivity.
Qed.

Lemma recombine_pair limit (x y x' y' : list T) population r r' :
  cross limit [x; y] r = Ok [x'; y'] r' ->
  recombine limit [x; y] 0 1 population r = Ok (population ++ [x'; y']) r'.
Proof.
  intros Hcross.
  change (recombine limit [x; y] 0 1 population r)
    with (bind (cross limit [x; y])
            (fun newChromosomes =>
               let! front := defined (head newChromosomes) in
               let! back := defined (last newChromosomes) in
               ret (population ++ [front; back])) r).
  rewrite (bind_Ok _ _ _ _ _ Hcross). reflexivity.
Qed.

(** With a selection that returns one chromosome and a fair engine, the
    filling loop returns for every large enough limit. *)
Lemma fill_returns a r :
  selects_one a -> fair (_engine r) ->
  forall deficit population r0,
    _populationSize a - length population <= deficit ->
    _engine r0 = _engine r ->
    exists L population' r',
      forall limit fuel, L <= limit -> deficit <= fuel ->
        fill limit fuel a population r0 = Ok population' r'.
Proof.
  intros Hone Hfair.
  induction deficit as [|deficit IH]; intros population r0 Hdef Hengine.
  - exists 0, population, r0. intros limit fuel _ _.
    destruct fuel; simpl;
      destruct (Nat.ltb_spec (length population) (_populationSize a));
      try lia; reflexivity.
  - destruct (Nat.ltb_spec (length population) (_populationSize a))
      as [Hlt|Hge].
    2:{ exists 0, population, r0. intros limit fuel _ _.
        destruct fuel; simpl;
          destruct (Nat.ltb_spec (length population) (_populationSize a));
          try lia; reflexivity. }
    destruct (gather_returns a r0 Hone) as (x0 & y0 & r2 & He2 & Hgather).
    destruct (cross_returns x0 y0 r2) as (L1 & x' & y' & r3 & He3 & Hcross);
      [rewrite He2, Hengine; exact Hfair|].
    destruct (IH (population ++ [x'; y']) r3) as (L2 & population' & r' & Hrest).
    { rewrite length_app. simpl. lia. }
    { congruence. }
    exists (Nat.max 2 (Nat.max L1 L2)), population', r'.
    intros limit fuel Hlimit Hfuel.
    destruct fuel as [|fuel]; [lia|]. cbn [fill].
    destruct (Nat.ltb_spec (length population) (_populationSize a)); [|lia].
    rewrite (bind_Ok _ _ _ _ _ (Hgather limit limit ltac:(lia))).
    change (length [x0; y0] / 2) with 1.
    rewrite (bind_Ok _ _ _ _ _
               (recombine_pair limit x0 y0 x' y' population r2 r3
                  (Hcross limit ltac:(lia)))).
    apply Hrest; lia.
Qed.

End FillReturns.

(** ** The size of the next population *)
Section PopulationSize.
Context {T : Type} `{UserFunctions T}.
Implicit Type a : GeneticAlgorithm T.

Lemma select_single limit a r selection r' :
  _selectionType a <> StochasticUniversal ->
  select limit a r = Ok selection r' -> length selection = 1.
Proof.
  intros Hsel. unfold select.
  destruct (_selectionType a); [|contradiction| |discriminate].
  - intros Hrun.
    apply bind_Ok_inv in Hrun as (p & r1 & _ & Hrun).
    apply bind_Ok_inv in Hrun as (c & r2 & _ & Hrun).
    injection Hrun as <- _. reflexivity.
  - intros Hrun.
    apply bind_Ok_inv in Hrun as (t & r1 & _ & Hrun).
    apply bind_Ok_inv in Hrun as (b & r2 & _ & Hrun).
    apply bind_Ok_inv in Hrun as (c & r3 & _ & Hrun).
    injection Hrun as <- _. reflexivity.
Qed.

Lemma gather_length limit a fuel : forall selection r selection' r',
  gather limit fuel a selection r = Ok selection' r' ->
  2 <= length selection'
  /\ (_selectionType a <> StochasticUniversal -> length selection <= 2 ->
      length selection' = 2).
Proof.
  induction fuel as [|fuel IH]; intros selection r selection' r'; simpl;
    destruct (Nat.ltb_spec (length selection) 2) as [Hlt|Hge];
    try discriminate;
    try (unfold ret; intros [= <- _]; split; [lia|intros; lia]).
  intros Hrun. apply bind_Ok_inv in Hrun as (tmp & r1 & Htmp & Hrun).
  apply IH in Hrun as [Hmin Hexact]. split; [exact Hmin|].
  intros Hsel _. apply Hexact; [exact Hsel|].
  rewrite length_app, (select_single _ _ _ _ _ Hsel Htmp). lia.
Qed.

Lemma recombine_length limit (selection : list (list T)) n :
  forall i population r population' r',
    recombine limit selection i n population r = Ok population' r' ->
    length population' = length population + 2 * n.
Proof.
  induction n as [|n IH]; intros i population r population' r'; simpl.
  - unfold ret. intros [= <- _]. lia.
  - intros Hrun.
    apply bind_Ok_inv in Hrun as (x & r1 & _ & Hrun).
    apply bind_Ok_inv in Hrun as (y & r2 & _ & Hrun).
    apply bind_Ok_inv in Hrun as (crossed & r3 & _ & Hrun).
    apply bind_Ok_inv in Hrun as (front & r4 & _ & Hrun).
    apply bind_Ok_inv in Hrun as (back & r5 & _ & Hrun).
    apply IH in Hrun. rewrite Hrun, length_app. simpl. lia.
Qed.

Lemma fill_length limit a fuel : forall population r population' r',
  fill limit fuel a population r = Ok population' r' ->
  (exists pairs, length population = 2 * pairs) ->
  exists pairs,
    length population' = 2 * pairs
    /\ _populationSize a <= 2 * pairs
    /\ (_selectionType a <> StochasticUniversal ->
        length population <= _populationSize a + 1 ->
        2 * pairs <= _populationSize a + 1).
Proof.
  induction fuel as [|fuel IH]; intros population r population' r'; cbn [fill];
    destruct (Nat.ltb_spec (length population) (_populationSize a)) as [Hlt|Hge];
    try discriminate;
    try (unfold ret; intros [= <- _] [pairs Hpairs]; exists pairs;
         split; [exact Hpairs|split; [lia|intros; lia]]).
  intros Hrun [pairs Hpairs].
  apply bind_Ok_inv in Hrun as (selection & r1 & Hsel & Hrun).
  apply bind_Ok_inv in Hrun as (population1 & r2 & Hrec & Hrun).
  apply gather_length in Hsel as [Hmin Hexact].
  apply recombine_length in Hrec.
  apply IH in Hrun as (pairs' & Heven & Hsize & Hbound).
  - exists pairs'. split; [exact Heven|]. split; [exact Hsize|].
    intros Hnot _. apply Hbound; [exact Hnot|].
    rewrite Hrec, (Hexact Hnot) by (simpl; lia).
    change (2 / 2) with 1. lia.
  - exists (pairs + length selection / 2). lia.
Qed.

Lemma mutate_all_length a population : forall r population' r',
  mutate_all a population r = Ok population' r' ->
  length population' = length population.
Proof.
  induction population as [|c population IH]; intros r population' r'; simpl.
  - unfold ret. intros [= <- _]. reflexivity.
  - intros Hrun.
    apply bind_Ok_inv in Hrun as (c' & r1 & _ & Hrun).
    apply bind_Ok_inv in Hrun as (rest & r2 & Hrest & Hrun).
    injection Hrun as <- _. simpl. f_equal. apply (IH _ _ _ Hrest).
Qed.

(** C2 (as amended).  The population that the filling loop hands to mutation,
    which mutation returns with the same number of chromosomes for the next
    generation to score, holds an even number of chromosomes that is at least
    the population size: exactly the population size rounded up to the next
    even number under roulette-wheel and tournament selection, possibly more
    under stochastic universal sampling.  Under tournament selection (of size
    at least 1) and roulette-wheel selection (on a total score that is not
    negative), on a non-empty store and a fair engine, the filling loop does
    return such a population. *)
Theorem next_population_size :
  (forall limit fuel a r population r',
     fill limit fuel a [] r = Ok population r' -> bred_size a population)
  /\ (forall a population r population' r',
        mutate_all a population r = Ok population' r' ->
        length population' = length population)
  /\ (forall limit population (w w' : GeneticAlgorithm T * Random) next,
        generation limit population w = Ok (Some next) w' ->
        bred_size w.1 next)
  /\ (forall a r,
        selects_one a -> fair (_engine r) ->
        exists L population r',
          bred_size a population
          /\ forall limit, L <= limit ->
               fill limit limit a [] r = Ok population r').
Proof.
  assert (Hfill : forall limit fuel a r population r',
            fill limit fuel a [] r = Ok population r' -> bred_size a population).
  { intros limit fuel a r population r' Hrun.
    apply fill_length in Hrun as (pairs & Heven & Hsize & Hbound);
      [|exists 0; reflexivity].
    exists pairs. split; [exact Heven|]. split; [exact Hsize|].
    intros Hnot. apply Hbound; [exact Hnot|simpl; lia]. }
  split; [exact Hfill|]. split; [apply mutate_all_length|].
  split.
  - intros limit population [a r] w' next Hgen.
    destruct (generation_store _ _ _ _ _ Hgen) as (_ & Hsize & Hsel).
    destruct population as [|c population];
      [generation_of_nothing|].
    destruct (score_population_nonempty (c :: population)) as [e He];
      [discriminate|].
    rewrite (generation_unfold _ _ _ _ e He) in Hgen.
    destruct (isEvolutionOver (scored (c :: population) e a))
      as [[|] a'|msg a'| |a']; try discriminate.
    unfold breed in Hgen.
    destruct (fill limit limit a' [] r) as [p r1|msg r1| |r1] eqn:Hp;
      try discriminate.
    destruct (mutate_all a' p r1) as [p' r2|msg r2| |r2] eqn:Hp';
      try discriminate.
    injection Hgen as <- <-. simpl in Hsize, Hsel.
    destruct (Hfill _ _ _ _ _ _ Hp) as (pairs & Heven & Hmin & Hmax).
    exists pairs. cbn [fst].
    rewrite (mutate_all_length _ _ _ _ _ Hp'), <- Hsize, <- Hsel.
    auto.
  - intros a r Hone Hfair.
    destruct (fill_returns a r Hone Hfair (_populationSize a) [] r)
      as (L & population & r' & Hreturns); [lia|reflexivity|].
    exists (Nat.max L (_populationSize a)), population, r'.
    split.
    + apply (Hfill (Nat.max L (_populationSize a))
               (Nat.max L (_populationSize a)) a r population r').
      apply Hreturns; lia.
    + intros limit Hlimit. apply Hreturns; lia.
Qed.

End PopulationSize.

(** C2 (as stated) fails: with a population size of 3 and tournaments of
    size 1 the filling loop breeds two pairs, and the next generation has 4
    chromosomes. *)
Lemma odd_population_size_overshoots :
  exists next w',
    generation 5 [[1%Z]; [0%Z]; [2%Z]]
      (Digits.engine 3 BestScore 0%Q Tournament 1 0%Q, Digits.two_pairs)
    = Ok (Some next) w'
    /\ _populationSize w'.1 = 3
    /\ length next = 4.
Proof.
  eexists. eexists. split; [vm_compute; reflexivity|].
  split; reflexivity.
Qed.

(** ** The MaxScore criterion over a run *)
Section MaxScoreProperties.
Context {T : Type} `{UserFunctions T}.
Implicit Type a : GeneticAlgorithm T.

Lemma generation_MaxScore limit population a r e :
  _endCriterion a = MaxScore ->
  last (score_population population) = Some e ->
  generation limit population (a, r)
  = if Qle_bool (_maxEndScore a) e.1
    then Ok None (matched (scored population e a), r)
    else breed limit (scored population e a) r.
Proof.
  intros Hc He. rewrite (generation_unfold _ _ _ _ e He).
  assert (Hscored : _endCriterion (scored population e a) = MaxScore
                    /\ lastElement (scored population e a) = Some e
                    /\ _maxEndScore (scored population e a) = _maxEndScore a).
  { unfold scored, lastElement. destruct (_logEnable a); simpl; auto. }
  destruct Hscored as (Hc' & He' & Hmax).
  rewrite (isEvolutionOver_MaxScore _ e Hc' He'), Hmax.
  destruct (Qle_bool (_maxEndScore a) e.1); reflexivity.
Qed.

Lemma generation_bests_app l1 l2 :
  generation_bests (l1 ++ l2) = generation_bests l1 ++ generation_bests l2.
Proof. apply omap_app. Qed.

Lemma Qle_bool_false x y : Qle_bool x y = false <-> (y < x)%Q.
Proof.
  rewrite <- not_true_iff_false, Qle_bool_iff.
  split; [apply Qnot_le_lt|apply Qlt_not_le].
Qed.

Lemma breed_frame limit a r next w' :
  breed limit a r = Ok (Some next) w' ->
  w'.1 = set_generation (S (_generation a)) a.
Proof.
  unfold breed.
  destruct (fill limit limit a [] r) as [p r1|msg r1| |r1]; try discriminate.
  destruct (mutate_all a p r1) as [p' r2|msg r2| |r2]; try discriminate.
  intros [= _ <-]. reflexivity.
Qed.

Lemma breed_not_None limit a r w' : breed limit a r <> Ok None w'.
Proof.
  unfold breed.
  destruct (fill limit limit a [] r) as [p r1|msg r1| |r1]; try discriminate.
  destruct (mutate_all a p r1) as [p' r2|msg r2| |r2]; discriminate.
Qed.

Lemma scored_frame population e a :
  _endCriterion (scored population e a) = _endCriterion a
  /\ _maxEndScore (scored population e a) = _maxEndScore a
  /\ _run (scored population e a) = _run a
  /\ _generation (scored population e a) = _generation a.
Proof. unfold scored. destruct (_logEnable a); repeat split. Qed.

(** One iteration of the evolution loop under [MaxScore]. *)
Lemma evolve_loop_MaxScore_step limit fuel population a r e :
  _endCriterion a = MaxScore -> _run a = true ->
  last (score_population population) = Some e ->
  evolve_loop limit (S fuel) population (a, r)
  = if Qle_bool (_maxEndScore a) e.1
    then Ok tt (matched (scored population e a), r)
    else match breed limit (scored population e a) r with
         | Ok (Some next) w' => evolve_loop limit fuel next w'
         | Ok None w' => Ok tt w'
         | Throw msg w' => Throw msg w'
         | Fault => Fault
         | OutOfFuel w' => OutOfFuel w'
         end.
Proof.
  intros Hc Hrun He. cbn [evolve_loop]. unfold bind at 1. unfold get at 1.
  cbn [fst]. rewrite Hrun. unfold bind at 1.
  rewrite (generation_MaxScore _ _ _ _ e Hc He).
  destruct (Qle_bool (_maxEndScore a) e.1); [reflexivity|].
  destruct (breed limit (scored population e a) r) as [[next|] w'|msg w'| |w'];
    reflexivity.
Qed.

(** The evolution loop under [MaxScore] returns exactly when, after some
    generations below the threshold, a generation reaches it; it returns with
    the store of that generation. *)
Lemma evolve_loop_MaxScore limit fuel : forall population a r w',
  _endCriterion a = MaxScore -> _run a = true ->
  evolve_loop limit fuel population (a, r) = Ok tt w'
  <-> exists n pn an rn en,
        n < fuel
        /\ bred_below limit n population (a, r) pn (an, rn)
        /\ last (score_population pn) = Some en
        /\ (_maxEndScore a <= en.1)%Q
        /\ w' = (matched (scored pn en an), rn).
Proof.
  induction fuel as [|fuel IH]; intros population a r w' Hc Hrun.
  { split.
    - cbn [evolve_loop]. unfold bind, get. cbn [fst]. rewrite Hrun.
      discriminate.
    - intros (n & _ & _ & _ & _ & Hn & _). lia. }
  destruct population as [|c population].
  { split.
    - cbn [evolve_loop]. unfold bind at 1. unfold get at 1. cbn [fst].
      rewrite Hrun. unfold bind at 1. intros Hloop.
      destruct (generation_empty_cases limit (a, r)) as [Hg|[w0 Hg]];
        rewrite Hg in Hloop; discriminate.
    - intros (n & pn & an & rn & en & _ & Hbred & Hen & _).
      inversion Hbred; subst; discriminate. }
  destruct (score_population_nonempty (c :: population)) as [e He];
    [discriminate|].
  rewrite (evolve_loop_MaxScore_step _ _ _ _ _ e Hc Hrun He).
  destruct (Qle_bool (_maxEndScore a) e.1) eqn:Hreach.
  - apply Qle_bool_iff in Hreach. split.
    + intros [= <-]. exists 0, (c :: population), a, r, e.
      split; [lia|]. split; [constructor|]. auto.
    + intros (n & pn & an & rn & en & _ & Hbred & Hen & _ & ->).
      inversion Hbred; subst.
      * rewrite He in Hen. injection Hen as <-. reflexivity.
      * match goal with
        | Hlast : last (score_population (c :: population)) = Some ?e0,
          Hlt : (_ < _maxEndScore a)%Q |- _ =>
            rewrite He in Hlast; injection Hlast as <-;
            destruct (Qlt_not_le _ _ Hlt Hreach)
        end.
  - apply Qle_bool_false in Hreach.
    destruct (scored_frame (c :: population) e a) as (Hc1 & Hmax1 & Hrun1 & _).
    destruct (breed limit (scored (c :: population) e a) r)
      as [[next|] [a1 r1]|msg w1| |w1] eqn:Hbreed.
    + pose proof (breed_frame _ _ _ _ _ Hbreed) as Hframe. cbn [fst] in Hframe.
      assert (Hc2 : _endCriterion a1 = MaxScore) by (subst a1; simpl; congruence).
      assert (Hrun2 : _run a1 = true) by (subst a1; simpl; congruence).
      assert (Hmax2 : _maxEndScore a1 = _maxEndScore a)
        by (subst a1; simpl; congruence).
      rewrite (IH next a1 r1 w' Hc2 Hrun2). rewrite Hmax2. split.
      * intros (n & pn & an & rn & en & Hn & Hbred & Hen & Hle & ->).
        exists (S n), pn, an, rn, en. split; [lia|].
        split; [exact (bred_below_S _ _ _ _ _ _ _ _ _ _ He Hreach Hbreed Hbred)|].
        auto.
      * intros (n & pn & an & rn & en & Hn & Hbred & Hen & Hle & ->).
        inversion Hbred; subst.
        -- rewrite He in Hen. injection Hen as <-.
           destruct (Qlt_not_le _ _ Hreach Hle).
        -- match goal with
           | Hlast : last (score_population (c :: population)) = Some ?e0,
             Hb : breed limit (scored (c :: population) ?e0 a) r = _ |- _ =>
               rewrite He in Hlast; injection Hlast as <-;
               rewrite Hbreed in Hb; injection Hb as <- <-
           end.
           match goal with
           | Hrest : bred_below limit ?m next _ pn (an, rn) |- _ =>
               exists m, pn, an, rn, en; split; [lia|auto]
           end.
    + destruct (breed_not_None _ _ _ _ Hbreed).
    + split; [discriminate|].
      intros (n & pn & an & rn & en & _ & Hbred & Hen & Hle & _).
      inversion Hbred; subst.
      * rewrite He in Hen. injection Hen as <-.
        destruct (Qlt_not_le _ _ Hreach Hle).
      * match goal with
        | Hlast : last (score_population (c :: population)) = Some ?e0,
          Hb : breed limit (scored (c :: population) ?e0 a) r = _ |- _ =>
            rewrite He in Hlast; injection Hlast as <-;
            rewrite Hbreed in Hb; discriminate
        end.
    + split; [discriminate|].
      intros (n & pn & an & rn & en & _ & Hbred & Hen & Hle & _).
      inversion Hbred; subst.
      * rewrite He in Hen. injection Hen as <-.
        destruct (Qlt_not_le _ _ Hreach Hle).
      * match goal with
        | Hlast : last (score_population (c :: population)) = Some ?e0,
          Hb : breed limit (scored (c :: population) ?e0 a) r = _ |- _ =>
            rewrite He in Hlast; injection Hlast as <-;
            rewrite Hbreed in Hb; discriminate
        end.
    + split; [discriminate|].
      intros (n & pn & an & rn & en & _ & Hbred & Hen & Hle & _).
      inversion Hbred; subst.
      * rewrite He in Hen. injection Hen as <-.
        destruct (Qlt_not_le _ _ Hreach Hle).
      * match goal with
        | Hlast : last (score_population (c :: population)) = Some ?e0,
          Hb : breed limit (scored (c :: population) ?e0 a) r = _ |- _ =>
            rewrite He in Hlast; injection Hlast as <-;
            rewrite Hbreed in Hb; discriminate
        end.
Qed.


End MaxScoreProperties.


(** ** Examples *)

Lemma fair_ones : fair (_engine Digits.ones).
Proof.
  intros i d Hd. exists i. split; [lia|].
  simpl. change (Qfloor 1) with 1%Z. rewrite Z.mod_1_l by lia. discriminate.
Qed.

(** Crossing 1 2 3 with 4 5 on the engine of ones: the call returns, and the
    third gene of the longer chromosome stays in place. *)
Lemma cross_spec_witness :
  exists fuel result r',
    cross fuel [[1; 2; 3]; [4; 5]]%Z Digits.ones = Ok result r'
    /\ exists r0 r1, result = [r0; r1] /\ r0 !! 2 = Some 3%Z /\ length r1 = 2.
Proof.
  destruct (cross_spec [1; 2; 3]%Z [4; 5]%Z Digits.ones) as [Hreturns Hresult].
  destruct (Hreturns fair_ones) as (fuel & result & r' & Hcross).
  exists fuel, result, r'. split; [exact Hcross|].
  destruct (Hresult fuel result r' Hcross)
    as (r0 & r1 & -> & _ & Hlen1 & _ & Hkept).
  exists r0, r1. split; [reflexivity|]. split; [|exact Hlen1].
  apply (Hkept 2). simpl. lia.
Defined.

(** Filling a population of 3 from the store of 1, 0 and 2 on the engine of
    ones, under tournaments of size 1: the loop returns 4 chromosomes. *)
Lemma next_population_size_witness :
  exists population r',
    fill 5 5
      (set_population [(0%Q, [0%Z]); (1%Q, [1%Z]); (2%Q, [2%Z])]
         (Digits.engine 3 BestScore 0%Q Tournament 1 0%Q)) [] Digits.ones
    = Ok population r'
    /\ length population = 4.
Proof.
  destruct next_population_size as (Hsize & _ & _ & _).
  destruct (fill 5 5
              (set_population [(0%Q, [0%Z]); (1%Q, [1%Z]); (2%Q, [2%Z])]
                 (Digits.engine 3 BestScore 0%Q Tournament 1 0%Q)) []
              Digits.ones) as [population r'| | |] eqn:Hfill;
    try (vm_compute in Hfill; discriminate).
  exists population, r'. split; [reflexivity|].
  destruct (Hsize _ _ _ _ _ _ Hfill) as (pairs & Heven & Hmin & Hmax).
  simpl in Hmin. specialize (Hmax ltac:(discriminate)). simpl in Hmax. lia.
Defined.

(** The same crossing, computed: the exchanged run is the position 0. *)
Example cross_ones :
  exists r', cross 3 [[1; 2; 3]; [4; 5]]%Z Digits.ones
             = Ok [[4; 2; 3]; [1; 5]]%Z r'.
Proof. eexists. vm_compute. reflexivity. Qed.

(** A draw that returns its lower bound for ever never leaves the selection
    loop of the crossing. *)
Example cross_stalls fuel :
  cross fuel [[1]; [2]]%Z (mkRandom (fun _ => 0%Q) 0)
  = OutOfFuel (mkRandom (fun _ => 0%Q) fuel).
Proof.
  assert (Hloop : forall add genes n,
            cross_select fuel 1 0 add genes (mkRandom (fun _ => 0%Q) n)
            = OutOfFuel (mkRandom (fun _ => 0%Q) (n + fuel))).
  { induction fuel as [|fuel IH]; intros add genes n; simpl.
    - unfold out_of_fuel. rewrite Nat.add_0_r. reflexivity.
    - unfold bind. simpl. destruct add; rewrite IH; f_equal; f_equal; lia. }
  change (cross fuel [[1]; [2]]%Z (mkRandom (fun _ => 0%Q) 0))
    with (bind (cross_select fuel 1 0 true [])
            (fun genes => defined (exchange genes [[1]; [2]]%Z))
            (mkRandom (fun _ => 0%Q) 0)).
  unfold bind. rewrite Hloop. reflexivity.
Qed.

(** The insertion of an equal score goes after the entries already there. *)
Example multimap_insert_ties :
  multimap_insert 1%Q 3 [(0%Q, 0); (1%Q, 1); (2%Q, 2)]
  = [(0%Q, 0); (1%Q, 1); (1%Q, 3); (2%Q, 2)].
Proof. reflexivity. Qed.

(** A blocking run of four chromosomes under [MaxScore] with threshold 9:
    generation 0 scores 8 at best and the run goes on, generation 1 reaches 9
    and ends it. *)
Example run_MaxScore_log :
  exists w',
    run 30 true true []
      (Digits.engine 4 MaxScore 9%Q Tournament 2 (1 # 2)%Q,
       mkRandom (fun n => (Z.of_nat (n * 7 + 3) # 3)%Q) 0) = Ok None w'
    /\ _logStream w'.1
       = [LogGeneration 0 8%Q EmptyString; LogGeneration 1 9%Q EmptyString;
          LogCriterionMatched; LogOver 9%Q EmptyString]
    /\ _run w'.1 = false.
Proof. eexists. vm_compute. repeat split. Qed.

(** * Further properties of the engine *)

(** ** The scored store *)
Section ScoredStore.
Context {T : Type} `{UserFunctions T}.
Implicit Type a : GeneticAlgorithm T.

Lemma multimap_insert_Permutation {V} (k : Q) (v : V) m :
  multimap_insert k v m ≡ₚ (k, v) :: m.
Proof.
  induction m as [|x m IH]; simpl; [reflexivity|].
  destruct (Qltb k x.1); [reflexivity|].
  rewrite IH. apply perm_swap.
Qed.

Lemma score_population_snoc (population : list (list T)) c :
  score_population (population ++ [c])
  = multimap_insert (score c) c (score_population population).
Proof. unfold score_population. rewrite fold_left_app. reflexivity. Qed.

Lemma score_population_Permutation (population : list (list T)) :
  score_population population ≡ₚ map (fun c => (score c, c)) population.
Proof.
  induction population as [|c population IH] using rev_ind; [reflexivity|].
  rewrite score_population_snoc, multimap_insert_Permutation, map_app, IH.
  simpl. apply Permutation_cons_append.
Qed.

Lemma score_population_sorted (population : list (list T)) :
  StronglySorted (fun x y => (x.1 <= y.1)%Q) (score_population population).
Proof. apply scored_sorted. constructor. Qed.

(** The last entry after an insertion into a sorted store. *)
Lemma last_multimap_insert {V} (k : Q) (v : V) m :
  StronglySorted (fun x y => (x.1 <= y.1)%Q) m ->
  last (multimap_insert k v m)
  = match last m with
    | Some e => if Qltb k e.1 then Some e else Some (k, v)
    | None => Some (k, v)
    end.
Proof.
  induction m as [|x m IH]; intros Hsorted; [reflexivity|].
  apply StronglySorted_inv in Hsorted as [Hm Hx].
  cbn [multimap_insert].
  destruct (Qltb k x.1) eqn:Hkx.
  - change (last ((k, v) :: x :: m)) with (last (x :: m)).
    destruct (last (x :: m)) as [e|] eqn:Hlast;
      [|apply last_None_iff in Hlast; discriminate].
    assert (Hle : (x.1 <= e.1)%Q).
    { destruct m as [|y m]; [injection Hlast as <-; lra|].
      rewrite Forall_forall in Hx. apply Hx.
      change (last (x :: y :: m)) with (last (y :: m)) in Hlast.
      apply last_Some_elem_of in Hlast. exact Hlast. }
    apply Qltb_lt in Hkx.
    assert (Hke : Qltb k e.1 = true) by (apply Qltb_lt; lra).
    rewrite Hke. reflexivity.
  - destruct m as [|y m].
    + simpl. rewrite Hkx. reflexivity.
    + change (last (x :: y :: m)) with (last (y :: m)).
      rewrite <- (IH Hm).
      destruct (multimap_insert k v (y :: m)) as [|z l] eqn:Hins;
        [|reflexivity].
      apply (f_equal length) in Hins. rewrite multimap_insert_length in Hins.
      discriminate.
Qed.

Lemma latest_best_snoc (population : list (list T)) c :
  latest_best (population ++ [c])
  = match latest_best population with
    | Some b => if Qltb (score c) (score b) then Some b else Some c
    | None => Some c
    end.
Proof. unfold latest_best. rewrite fold_left_app. reflexivity. Qed.

Lemma last_score_population (population : list (list T)) :
  last (score_population population)
  = (fun c => (score c, c)) <$> latest_best population.
Proof.
  induction population as [|c population IH] using rev_ind; [reflexivity|].
  rewrite score_population_snoc, latest_best_snoc.
  rewrite (last_multimap_insert _ _ _ (score_population_sorted population)), IH.
  destruct (latest_best population) as [b|]; simpl; [|reflexivity].
  destruct (Qltb (score c) (score b)); reflexivity.
Qed.

(** X1.  The store that a scoring pass builds is in ascending order of score,
    holds exactly the chromosomes of the working population with their scores,
    and ends with the latest chromosome of the highest score: among equal
    scores, [best] is the one scored last. *)
Theorem scored_store_order a (population : list (list T)) :
  StronglySorted (fun x y => (x.1 <= y.1)%Q) (score_population population)
  /\ score_population population ≡ₚ map (fun c => (score c, c)) population
  /\ lastElement (set_population (score_population population) a)
     = (fun c => (score c, c)) <$> latest_best population
  /\ best (set_population (score_population population) a)
     = latest_best population.
Proof.
  split; [apply score_population_sorted|].
  split; [apply score_population_Permutation|].
  unfold best, lastElement. cbn [_population set_population].
  rewrite last_score_population.
  split; [reflexivity|]. destruct (latest_best population); reflexivity.
Qed.

End ScoredStore.

(** ** Ranks and sums in the scored store *)
Section StoreRanks.
Context {T : Type} `{UserFunctions T}.
Implicit Type a : GeneticAlgorithm T.

Lemma sorted_lookup {A} (R : A -> A -> Prop) (l : list A) : forall i j x y,
  StronglySorted R l -> i < j -> l !! i = Some x -> l !! j = Some y -> R x y.
Proof.
  induction l as [|z l IH]; intros i j x y Hsorted Hij Hi Hj; [discriminate|].
  apply StronglySorted_inv in Hsorted as [Hl Hz].
  destruct j as [|j]; [lia|]. destruct i as [|i].
  - injection Hi as <-. rewrite Forall_forall in Hz.
    apply Hz. apply (list_elem_of_lookup_2 _ j). exact Hj.
  - apply (IH i j); [exact Hl|lia|exact Hi|exact Hj].
Qed.

Lemma score_population_length (population : list (list T)) :
  length (score_population population) = length population.
Proof. unfold score_population. rewrite scored_length. reflexivity. Qed.

Lemma score_population_lookup (population : list (list T)) i e :
  score_population population !! i = Some e ->
  In e.2 population /\ e.1 = score e.2.
Proof.
  intros Hi. apply list_elem_of_lookup_2, list_elem_of_In in Hi.
  unfold score_population in Hi.
  apply scored_entries in Hi as [[]|(c & Hc & ->)]. split; [exact Hc|reflexivity].
Qed.

(** X2.  In a scored store [score(index)] and [chromosome(index)] read the
    same entry: below the size they give a chromosome of the working
    population and its score, and the scores do not decrease with the index;
    from the size on, [score(index)] is 0 and [chromosome(index)] is
    [best]. *)
Theorem scored_store_ranks a (population : list (list T)) :
  (forall i, length population <= i ->
     score_index (set_population (score_population population) a) i = 0%Q
     /\ chromosome_index (set_population (score_population population) a) i
        = best (set_population (score_population population) a))
  /\ (forall i, i < length population ->
        exists c,
          In c population
          /\ chromosome_index (set_population (score_population population) a) i
             = Some c
          /\ score_index (set_population (score_population population) a) i
             = score c)
  /\ (forall i j, i <= j < length population ->
        (score_index (set_population (score_population population) a) i
         <= score_index (set_population (score_population population) a) j)%Q).
Proof.
  unfold score_index, chromosome_index. cbn [_population set_population].
  rewrite score_population_length.
  split; [|split].
  - intros i Hi. destruct (Nat.leb_spec (length population) i); [|lia].
    split; reflexivity.
  - intros i Hi. destruct (Nat.leb_spec (length population) i); [lia|].
    destruct (lookup_lt_is_Some_2 (score_population population) i)
      as [e He]; [rewrite score_population_length; lia|].
    rewrite He. destruct (score_population_lookup _ _ _ He) as [Hin Hscore].
    exists e.2. auto.
  - intros i j [Hij Hj].
    destruct (Nat.leb_spec (length population) i); [lia|].
    destruct (Nat.leb_spec (length population) j); [lia|].
    destruct (lookup_lt_is_Some_2 (score_population population) i)
      as [x Hx]; [rewrite score_population_length; lia|].
    destruct (lookup_lt_is_Some_2 (score_population population) j)
      as [y Hy]; [rewrite score_population_length; lia|].
    rewrite Hx, Hy.
    destruct (decide (i = j)) as [->|Hne].
    + rewrite Hx in Hy. injection Hy as <-. lra.
    + apply (sorted_lookup _ _ i j x y (score_population_sorted population));
        [lia|exact Hx|exact Hy].
Qed.

Lemma fold_scores_fmap (entries : list (Score * list T)) : forall s,
  Forall (fun e => e.1 = score e.2) entries ->
  fold_left (fun scoreSum e => (scoreSum + e.1)%Q) entries s
  = fold_left (fun s c => (s + score c)%Q) (snd <$> entries) s.
Proof.
  induction entries as [|e entries IH]; intros s Hall; [reflexivity|].
  apply Forall_cons in Hall as [He Hall]. cbn [fold_left fmap list_fmap].
  rewrite He. apply IH, Hall.
Qed.

(** X3.  [totalScore] of a scored store adds up the scores of the
    chromosomes of the working population, each once, in the order of the
    store: by ascending score. *)
Theorem totalScore_scored a (population : list (list T)) :
  totalScore (set_population (score_population population) a)
  = sum_scores (snd <$> score_population population)
  /\ snd <$> score_population population ≡ₚ population
  /\ StronglySorted (fun c c' => (score c <= score c')%Q)
       (snd <$> score_population population).
Proof.
  split; [|split].
  - unfold totalScore, sum_scores. cbn [_population set_population].
    apply fold_scores_fmap, Forall_forall. intros e He.
    apply list_elem_of_lookup in He as [i Hi].
    apply score_population_lookup in Hi as [_ ->]. reflexivity.
  - rewrite score_population_Permutation, <- list_fmap_compose.
    unfold compose. cbn [snd]. rewrite list_fmap_id. reflexivity.
  - pose proof (score_population_sorted population) as Hsorted.
    assert (Hkeys : Forall (fun e => e.1 = score e.2)
                      (score_population population)).
    { apply Forall_forall. intros e He.
      apply list_elem_of_lookup in He as [i Hi].
      apply score_population_lookup in Hi as [_ ->]. reflexivity. }
    induction Hsorted as [|e entries Hrest IH Hall]; [constructor|].
    apply Forall_cons in Hkeys as [He Hkeys].
    cbn [fmap list_fmap]. constructor; [exact (IH Hkeys)|].
    apply Forall_fmap. rewrite Forall_forall in *. intros e' He'.
    cbn [compose]. rewrite <- He, <- (Hkeys e' He'). exact (Hall e' He').
Qed.

End StoreRanks.

(** ** Fitness proportionate selection *)
Section RouletteWheelProperties.
Context {T : Type} `{UserFunctions T}.
Implicit Type a : GeneticAlgorithm T.

Lemma chromosome_scan_spec (entries : list (Score * list T)) :
  forall fitness acc,
    match chromosome_scan fitness acc entries with
    | Some c =>
        exists i e,
          entries !! i = Some e /\ c = e.2
          /\ (fitness <= fold_left (fun s e => s + e.1) (take (S i) entries) acc)%Q
          /\ forall j, j < i ->
               (fold_left (fun s e => s + e.1) (take (S j) entries) acc
                < fitness)%Q
    | None =>
        forall i, i < length entries ->
          (fold_left (fun s e => s + e.1) (take (S i) entries) acc < fitness)%Q
    end.
Proof.
  induction entries as [|x entries IH]; intros fitness acc.
  - simpl. intros i Hi. lia.
  - cbn [chromosome_scan].
    destruct (Qle_bool fitness (acc + x.1)) eqn:Hle.
    + apply Qle_bool_iff in Hle. exists 0, x.
      split; [reflexivity|]. split; [reflexivity|].
      split; [simpl; exact Hle|]. intros j Hj. lia.
    + apply Qle_bool_false in Hle.
      specialize (IH fitness (acc + x.1)%Q).
      destruct (chromosome_scan fitness (acc + x.1) entries) as [c|].
      * destruct IH as (i & e & He & Hc & Hreach & Hbefore).
        exists (S i), e. split; [exact He|]. split; [exact Hc|].
        split; [exact Hreach|].
        intros [|j] Hj; [simpl; exact Hle|].
        apply Hbefore. lia.
      * intros [|i] Hi; [simpl; exact Hle|].
        apply IH. simpl in Hi. lia.
Qed.

(** X4.  On a non-empty store [chromosome(fitness)] returns the chromosome
    of the first entry, in ascending order of score, whose running sum of
    scores reaches [fitness]; when no running sum does, so that [fitness]
    exceeds the total score, it returns [best]. *)
Theorem chromosome_fitness_rank a fitness :
  _population a <> [] ->
  exists c,
    chromosome_fitness a fitness = Some c
    /\ ((exists i e,
           _population a !! i = Some e /\ c = e.2
           /\ (fitness <= cumulative (_population a) i)%Q
           /\ forall j, j < i -> (cumulative (_population a) j < fitness)%Q)
        \/ ((forall i, i < length (_population a) ->
               (cumulative (_population a) i < fitness)%Q)
            /\ (totalScore a < fitness)%Q
            /\ best a = Some c)).
Proof.
  intros Hne. unfold chromosome_fitness.
  pose proof (chromosome_scan_spec (_population a) fitness 0%Q) as Hscan.
  destruct (chromosome_scan fitness 0 (_population a)) as [c|].
  - exists c. split; [reflexivity|]. left. exact Hscan.
  - destruct (best a) as [c|] eqn:Hbest;
      [|apply best_None in Hbest; contradiction].
    exists c. unfold best in Hbest. split; [exact Hbest|]. right.
    split; [exact Hscan|]. split; [|reflexivity].
    unfold totalScore.
    specialize (Hscan (length (_population a) - 1)).
    rewrite take_ge in Hscan by lia. apply Hscan.
    destruct (_population a); [contradiction|simpl; lia].
Qed.

(** A fitness that the total score reaches is reached at some rank. *)
Lemma chromosome_fitness_reached a fitness :
  _population a <> [] -> (fitness <= totalScore a)%Q ->
  exists i e,
    chromosome_fitness a fitness = Some e.2
    /\ _population a !! i = Some e
    /\ (fitness <= cumulative (_population a) i)%Q
    /\ forall j, j < i -> (cumulative (_population a) j < fitness)%Q.
Proof.
  intros Hne Hle. unfold chromosome_fitness.
  pose proof (chromosome_scan_spec (_population a) fitness 0%Q) as Hscan.
  destruct (chromosome_scan fitness 0 (_population a)) as [c|].
  - destruct Hscan as (i & e & He & -> & Hreach & Hbefore).
    exists i, e. auto.
  - exfalso. unfold totalScore in Hle.
    specialize (Hscan (length (_population a) - 1)).
    rewrite take_ge in Hscan by lia.
    assert (Hlt : length (_population a) - 1 < length (_population a))
      by (destruct (_population a); [contradiction|simpl; lia]).
    specialize (Hscan Hlt). lra.
Qed.

(** X5.  Roulette-wheel selection on a total score below 0 asks for a real
    of an empty range, which is undefined.  On a non-empty store whose total
    score is not negative it draws [p] in [0, totalScore] and returns one
    chromosome, that of the first entry whose running sum of scores reaches
    [p]; the fallback to [best] is never taken. *)
Theorem select_RouletteWheel a r :
  _selectionType a = RouletteWheel ->
  ((totalScore a < 0)%Q -> forall fuel, select fuel a r = Fault)
  /\ (_population a <> [] -> (0 <= totalScore a)%Q ->
      exists p r' i e,
        Random.get_double 0%Q (totalScore a) r = Ok p r'
        /\ (0 <= p <= totalScore a)%Q
        /\ (forall fuel, select fuel a r = Ok [e.2] r')
        /\ _population a !! i = Some e
        /\ (p <= cumulative (_population a) i)%Q
        /\ forall j, j < i -> (cumulative (_population a) j < p)%Q).
Proof.
  intros Hsel. unfold select. rewrite Hsel. split.
  - intros Hneg fuel. unfold bind, Random.get_double.
    apply Qlt_not_le in Hneg. rewrite <- Qle_bool_iff in Hneg.
    destruct (Qle_bool 0 (totalScore a)); [contradiction|reflexivity].
  - intros Hne Htotal.
    destruct (get_double_Ok 0%Q (totalScore a) r Htotal)
      as (p & Hp & Hlo & Hhi & _).
    destruct (chromosome_fitness_reached a p Hne Hhi)
      as (i & e & Hc & He & Hreach & Hbefore).
    exists p. eexists. exists i, e.
    split; [exact Hp|]. split; [split; assumption|].
    split; [|auto].
    intros fuel. rewrite (bind_Ok _ _ _ _ _ Hp), Hc. reflexivity.
Qed.

End RouletteWheelProperties.

(** On the scores 1, 2 and 3 the fitness 2 is reached at the rank 1. *)
Lemma chromosome_fitness_rank_witness :
  _population
    (set_population [(1%Q, [1%Z]); (2%Q, [2%Z]); (3%Q, [3%Z])]
       (Digits.engine 3 BestScore 0%Q RouletteWheel 1 0%Q)) <> []
  /\ chromosome_fitness
       (set_population [(1%Q, [1%Z]); (2%Q, [2%Z]); (3%Q, [3%Z])]
          (Digits.engine 3 BestScore 0%Q RouletteWheel 1 0%Q)) 2%Q
     = Some [2%Z].
Proof.
  split; [discriminate|].
  destruct (chromosome_fitness_rank
              (set_population [(1%Q, [1%Z]); (2%Q, [2%Z]); (3%Q, [3%Z])]
                 (Digits.engine 3 BestScore 0%Q RouletteWheel 1 0%Q)) 2%Q)
    as (c & Hc & _); [discriminate|].
  rewrite Hc. vm_compute in Hc. symmetry. exact Hc.
Defined.

(** A wheel on the scores 1, 2 and 3 that stops at 3: the entry of rank 1. *)
Lemma select_RouletteWheel_witness :
  _selectionType
    (set_population [(1%Q, [1%Z]); (2%Q, [2%Z]); (3%Q, [3%Z])]
       (Digits.engine 3 BestScore 0%Q RouletteWheel 1 0%Q)) = RouletteWheel
  /\ exists selected r',
       select 0
         (set_population [(1%Q, [1%Z]); (2%Q, [2%Z]); (3%Q, [3%Z])]
            (Digits.engine 3 BestScore 0%Q RouletteWheel 1 0%Q))
         (mkRandom (Digits.stream [1 # 2]%Q 0%Q) 0) = Ok selected r'
       /\ length selected = 1.
Proof.
  split; [reflexivity|].
  destruct (select_RouletteWheel
              (set_population [(1%Q, [1%Z]); (2%Q, [2%Z]); (3%Q, [3%Z])]
                 (Digits.engine 3 BestScore 0%Q RouletteWheel 1 0%Q))
              (mkRandom (Digits.stream [1 # 2]%Q 0%Q) 0) eq_refl)
    as [_ Hwheel].
  destruct Hwheel as (p & r' & i & e & _ & _ & Hselect & _);
    [discriminate|vm_compute; discriminate|].
  exists [e.2], r'. split; [apply Hselect|reflexivity].
Defined.

(** ** Tournament selection *)
Section TournamentProperties.
Context {T : Type} `{UserFunctions T}.
Implicit Type a : GeneticAlgorithm T.

(** The second loop of the tournament keeps the first index of the highest
    score. *)
Lemma tournament_fold (f : nat -> Q) l : forall b0,
  exists p,
    let b := (fold_left
                (fun (b : nat * Q) i => if Qltb b.2 (f i) then (i, f i) else b)
                l (b0, f b0)).1 in
    (b0 :: l) !! p = Some b
    /\ (forall i, In i (b0 :: l) -> (f i <= f b)%Q)
    /\ (forall q i, q < p -> (b0 :: l) !! q = Some i -> (f i < f b)%Q).
Proof.
  induction l as [|i l IH]; intros b0.
  - exists 0. simpl. split; [reflexivity|].
    split; [intros i [<-|[]]; lra|intros q i Hq; lia].
  - cbn [fold_left snd]. destruct (Qltb (f b0) (f i)) eqn:Hlt.
    + apply Qltb_lt in Hlt. destruct (IH i) as (p & Hp & Hmax & Hfirst).
      exists (S p). cbv zeta in *.
      set (b := (fold_left _ l (i, f i)).1) in *.
      split; [exact Hp|].
      assert (Hi : (f i <= f b)%Q) by (apply Hmax; left; reflexivity).
      split.
      * intros j [<-|Hj]; [lra|apply Hmax, Hj].
      * intros [|q] j Hq Hj; [injection Hj as <-; lra|].
        apply (Hfirst q); [lia|exact Hj].
    + apply negb_false_iff, Qle_bool_iff in Hlt.
      destruct (IH b0) as (p & Hp & Hmax & Hfirst).
      cbv zeta in *. set (b := (fold_left _ l (b0, f b0)).1) in *.
      assert (Hb0 : (f b0 <= f b)%Q) by (apply Hmax; left; reflexivity).
      destruct p as [|p].
      * exists 0. split; [exact Hp|].
        injection Hp as Hp. split.
        -- intros j [<-|[<-|Hj]]; [lra|rewrite <- Hp; lra|].
           apply Hmax. right. exact Hj.
        -- intros q j Hq. lia.
      * exists (S (S p)). split; [exact Hp|]. split.
        -- intros j [<-|[<-|Hj]]; [lra|lra|]. apply Hmax. right. exact Hj.
        -- intros [|[|q]] j Hq Hj.
           ++ injection Hj as <-. apply (Hfirst 0); [lia|reflexivity].
           ++ injection Hj as <-.
              assert (f b0 < f b)%Q by (apply (Hfirst 0); [lia|reflexivity]).
              lra.
           ++ apply (Hfirst (S q)); [lia|exact Hj].
Qed.

Lemma tournament_draw_spec a n : forall tournament r,
  _population a <> [] ->
  exists drawn,
    tournament_draw a n tournament r
    = Ok (tournament ++ drawn) (mkRandom (_engine r) (_cursor r + n))
    /\ length drawn = n
    /\ Forall (fun i => i < length (_population a)) drawn.
Proof.
  induction n as [|n IH]; intros tournament r Hne.
  - exists []. rewrite app_nil_r, Nat.add_0_r. destruct r.
    split; [reflexivity|]. split; [reflexivity|constructor].
  - destruct (get_int_Ok 0 (Z.of_nat (length (_population a)) - 1) r)
      as (i & Hi & Hrange).
    { destruct (_population a); [contradiction|simpl; lia]. }
    destruct (IH (tournament ++ [Z.to_nat i])
                (mkRandom (_engine r) (S (_cursor r))) Hne)
      as (drawn & Hdraw & Hlen & Hbound).
    exists (Z.to_nat i :: drawn). simpl.
    rewrite (bind_Ok _ _ _ _ _ Hi), Hdraw, <- app_assoc. simpl.
    replace (S (_cursor r + n)) with (_cursor r + S n) by lia.
    replace (S (_cursor r) + n) with (_cursor r + S n) by lia.
    split; [reflexivity|]. split; [lia|].
    constructor; [lia|exact Hbound].
Qed.

(** X6.  Tournament selection on a non-empty store, with a tournament of at
    least one, draws [_tournamentSize] ranks below the size of the store, one
    draw each, and returns the chromosome of the drawn rank with the highest
    score, the first drawn among those of the highest score. *)
Theorem select_Tournament a r :
  _selectionType a = Tournament ->
  1 <= _tournamentSize a ->
  _population a <> [] ->
  exists tournament b c p,
    tournament_draw a (_tournamentSize a) [] r
    = Ok tournament (mkRandom (_engine r) (_cursor r + _tournamentSize a))
    /\ (forall fuel,
          select fuel a r
          = Ok [c] (mkRandom (_engine r) (_cursor r + _tournamentSize a)))
    /\ length tournament = _tournamentSize a
    /\ Forall (fun i => i < length (_population a)) tournament
    /\ tournament !! p = Some b
    /\ _population a !! b = Some (score_index a b, c)
    /\ (forall i, In i tournament -> (score_index a i <= score_index a b)%Q)
    /\ (forall q i, q < p -> tournament !! q = Some i ->
          (score_index a i < score_index a b)%Q).
Proof.
  intros Hsel Hsize Hne.
  destruct (tournament_draw_spec a (_tournamentSize a) [] r Hne)
    as (tournament & Hdraw & Hlen & Hbound).
  simpl in Hdraw.
  destruct tournament as [|b0 rest]; [simpl in Hlen; lia|].
  destruct (tournament_fold (score_index a) (b0 :: rest) b0)
    as (p & Hp & Hmax & Hfirst).
  cbv zeta in *.
  assert (Hbest : (fold_left
                     (fun (b : nat * Q) i =>
                        if Qltb b.2 (score_index a i)
                        then (i, score_index a i) else b)
                     (b0 :: rest) (b0, score_index a b0)).1
                  = tournament_best a (b0 :: rest) b0) by reflexivity.
  rewrite Hbest in *. set (b := tournament_best a (b0 :: rest) b0) in *.
  assert (Hp' : exists p', (b0 :: rest) !! p' = Some b
                           /\ forall q i, q < p' -> (b0 :: rest) !! q = Some i ->
                                (score_index a i < score_index a b)%Q).
  { destruct p as [|p].
    - exists 0. injection Hp as Hp. split; [simpl; congruence|].
      intros q i Hq. lia.
    - exists p. split; [exact Hp|].
      intros q i Hq Hi. apply (Hfirst (S q)); [lia|exact Hi]. }
  destruct Hp' as (p' & Hp' & Hfirst').
  assert (Hb : b < length (_population a)).
  { rewrite Forall_forall in Hbound.
    apply Hbound, (list_elem_of_lookup_2 _ p'), Hp'. }
  destruct (lookup_lt_is_Some_2 (_population a) b Hb) as [e He].
  exists (b0 :: rest), b, e.2, p'.
  split; [exact Hdraw|].
  split.
  { intros fuel. unfold select. rewrite Hsel, (bind_Ok _ _ _ _ _ Hdraw).
    cbn [head defined]. unfold bind at 1. unfold ret at 1. fold b.
    unfold chromosome_index.
    destruct (Nat.leb_spec (length (_population a)) b); [lia|].
    rewrite He. reflexivity. }
  split; [exact Hlen|]. split; [exact Hbound|]. split; [exact Hp'|].
  split.
  { unfold score_index.
    destruct (Nat.leb_spec (length (_population a)) b); [lia|].
    rewrite He. destruct e. reflexivity. }
  split; [|exact Hfirst'].
  intros i Hi. apply Hmax. right. exact Hi.
Qed.

End TournamentProperties.

(** A tournament of two on the scores 0, 1 and 2. *)
Lemma select_Tournament_witness :
  _selectionType
    (set_population [(0%Q, [0%Z]); (1%Q, [1%Z]); (2%Q, [2%Z])]
       (Digits.engine 3 BestScore 0%Q Tournament 2 0%Q)) = Tournament
  /\ exists selected r',
       select 0
         (set_population [(0%Q, [0%Z]); (1%Q, [1%Z]); (2%Q, [2%Z])]
            (Digits.engine 3 BestScore 0%Q Tournament 2 0%Q))
         (mkRandom (Digits.stream [1; 2]%Q 0%Q) 0) = Ok selected r'
       /\ length selected = 1.
Proof.
  split; [reflexivity|].
  destruct (select_Tournament
              (set_population [(0%Q, [0%Z]); (1%Q, [1%Z]); (2%Q, [2%Z])]
                 (Digits.engine 3 BestScore 0%Q Tournament 2 0%Q))
              (mkRandom (Digits.stream [1; 2]%Q 0%Q) 0))
    as (tournament & b & c & p & _ & Hselect & _);
    [reflexivity|simpl; lia|discriminate|].
  eexists. eexists. split; [apply (Hselect 0)|reflexivity].
Defined.

(** ** The evolution loop, one generation at a time *)
Section LoopProperties.
Context {T : Type} `{UserFunctions T}.
Implicit Type a : GeneticAlgorithm T.

Lemma same_configuration_refl a : same_configuration a a.
Proof. repeat split. Qed.

Lemma same_configuration_trans a1 a2 a3 :
  same_configuration a1 a2 -> same_configuration a2 a3 ->
  same_configuration a1 a3.
Proof.
  unfold same_configuration. intros H12 H23.
  decompose [and] H12. decompose [and] H23. repeat split; congruence.
Qed.

(** What the check of a generation answers and leaves behind. *)
Lemma isEvolutionOver_cases a e :
  _endCriterion a <> UnknownEndingCriterion ->
  lastElement a = Some e ->
  exists over a',
    isEvolutionOver a = Ok over a'
    /\ same_but_history a a' /\ same_configuration a a'
    /\ ((_endCriterion a = MaxScore /\ a' = a
         /\ over = Qle_bool (_maxEndScore a) e.1)
        \/ (_endCriterion a = BestScore
            /\ _lastScores a' = buffer_step (_lastScores a) e.1
            /\ over = check_step (_lastScores a) e.1)).
Proof.
  intros Hdeclared He. destruct (_endCriterion a) eqn:Hc; [| |contradiction].
  - rewrite (isEvolutionOver_MaxScore a e Hc He).
    eexists. eexists. split; [reflexivity|].
    split; [repeat split|]. split; [repeat split|]. left. auto.
  - rewrite (isEvolutionOver_BestScore a e Hc He).
    eexists. eexists. split; [reflexivity|].
    split; [repeat split|]. split; [repeat split|]. right. auto.
Qed.

(** The ways in which the breeding half of a generation ends; it throws
    only for a selection type that is none of the enumerators. *)
Lemma breed_cases limit a r :
  (exists bred r1 next r2,
     fill limit limit a [] r = Ok bred r1
     /\ mutate_all a bred r1 = Ok next r2
     /\ breed limit a r = Ok (Some next) (set_generation (S (_generation a)) a, r2))
  \/ (exists r', breed limit a r = OutOfFuel (a, r'))
  \/ breed limit a r = Fault
  \/ (exists msg r',
        _selectionType a = UnknownSelectionType
        /\ breed limit a r = Throw msg (a, r')).
Proof.
  unfold breed.
  destruct (fill limit limit a [] r) as [bred r1|msg r1| |r1] eqn:Hfill.
  - destruct (mutate_all a bred r1) as [next r2|msg r2| |r2] eqn:Hmut.
    + left. exists bred, r1, next, r2. auto.
    + destruct (never_throws_mutate_all _ _ _ _ _ Hmut).
    + right. right. left. reflexivity.
    + right. left. eauto.
  - right. right. right. exists msg, r1. split; [|reflexivity].
    destruct (_selectionType a) eqn:Hsel; try reflexivity;
      destruct (never_throws_fill limit a limit
                  ltac:(rewrite Hsel; discriminate) _ _ _ _ Hfill).
  - right. right. left. reflexivity.
  - right. left. eauto.
Qed.

(** A generation on a non-empty population: scoring, the log line, the check,
    and then either the break or the breeding. *)
Lemma generation_cases limit (population : list (list T)) a r :
  _endCriterion a <> UnknownEndingCriterion ->
  population <> [] ->
  exists e over a',
    last (score_population population) = Some e
    /\ isEvolutionOver (scored population e a) = Ok over a'
    /\ generation limit population (a, r)
       = if over then Ok None (matched a', r) else breed limit a' r.
Proof.
  intros Hdeclared Hne.
  destruct (score_population_nonempty population Hne) as [e He].
  assert (Hlast : lastElement (scored population e a) = Some e).
  { unfold scored, lastElement. destruct (_logEnable a); exact He. }
  assert (Hc : _endCriterion (scored population e a) <> UnknownEndingCriterion).
  { unfold scored. destruct (_logEnable a); exact Hdeclared. }
  destruct (isEvolutionOver_cases _ e Hc Hlast) as (over & a' & Hover & _).
  exists e, over, a'. split; [exact He|]. split; [exact Hover|].
  rewrite (generation_unfold _ _ _ _ e He), Hover.
  destruct over; reflexivity.
Qed.

(** A generation under a criterion that is none of the enumerators: the
    population is scored, the generation line is logged, and the check
    throws. *)
Lemma generation_unknown limit (population : list (list T)) a r :
  _endCriterion a = UnknownEndingCriterion ->
  population <> [] ->
  exists e,
    last (score_population population) = Some e
    /\ generation limit population (a, r)
       = Throw "Unknown ending criterion" (scored population e a, r).
Proof.
  intros Hunknown Hne.
  destruct (score_population_nonempty population Hne) as [e He].
  exists e. split; [exact He|].
  rewrite (generation_unfold _ _ _ _ e He), isEvolutionOver_unknown;
    [reflexivity|].
  unfold scored. destruct (_logEnable a); exact Hunknown.
Qed.

Lemma generation_Ok_declared limit (population : list (list T)) a r v w' :
  generation limit population (a, r) = Ok v w' ->
  _endCriterion a <> UnknownEndingCriterion.
Proof.
  intros Hgen Hunknown.
  destruct population as [|c p]; [generation_of_nothing|].
  destruct (generation_unknown limit (c :: p) a r Hunknown) as (e & _ & Hthrow);
    [discriminate|].
  rewrite Hthrow in Hgen. discriminate.
Qed.

(** Induction over the loop of [evolve]: [Inv] holds of the working population
    and the world at the head of the loop, [J] when the loop is left, [K]
    when the fuel is exhausted, [E] when a generation throws. *)
Lemma evolve_loop_ind limit
    (Inv : list (list T) -> GeneticAlgorithm T * Random -> Prop)
    (J K E : GeneticAlgorithm T * Random -> Prop) :
  (forall population w, Inv population w -> _run w.1 = false -> J w) ->
  (forall population w, Inv population w -> K w) ->
  (forall population w, Inv population w -> _run w.1 = true ->
     match generation limit population w with
     | Ok (Some next) w' => Inv next w'
     | Ok None w' => J w'
     | OutOfFuel w' => K w'
     | Throw _ w' => E w'
     | Fault => True
     end) ->
  forall fuel population w,
    Inv population w ->
    match evolve_loop limit fuel population w with
    | Ok _ w' => J w'
    | OutOfFuel w' => K w'
    | Throw _ w' => E w'
    | Fault => True
    end.
Proof.
  intros Hleft Hfuel Hstep.
  induction fuel as [|fuel IH]; intros population w HI;
    cbn [evolve_loop]; unfold bind at 1; unfold get at 1;
    destruct (_run w.1) eqn:Hrun;
    try (apply (Hleft population); assumption).
  - apply (Hfuel population), HI.
  - specialize (Hstep population w HI Hrun). unfold bind at 1.
    destruct (generation limit population w) as [[next|] w'|msg w'| |w']
      eqn:Hgen.
    + apply IH, Hstep.
    + exact Hstep.
    + exact Hstep.
    + exact I.
    + exact Hstep.
Qed.

Lemma evolve_unfold fuel (population : list (list T)) w :
  evolve fuel population w
  = match evolve_loop fuel fuel population w with
    | Ok _ w' =>
        match finished w'.1 with
        | Some a' => Ok tt (a', w'.2)
        | None => Fault
        end
    | Throw msg w' => Throw msg w'
    | Fault => Fault
    | OutOfFuel w' => OutOfFuel w'
    end.
Proof.
  unfold evolve. unfold bind at 1.
  destruct (evolve_loop fuel fuel population w) as [[] [a' r']|msg w'| |w'];
    try reflexivity.
  unfold finished, on_fst, LOG, line_over, bind, get, modify.
  cbn [fst snd].
  destruct (_logEnable a'); [|reflexivity].
  destruct (lastElement a'); reflexivity.
Qed.

(** A blocking [run] that passes the safety check: the seeding, then
    [evolve]. *)
Lemma run_blocking_unfold fuel enableLogging outputStream a r :
  tournament_too_large a = false ->
  run fuel true enableLogging outputStream (a, r)
  = match seed a (_populationSize a) [] r with
    | Ok population r' =>
        match evolve fuel population
                (started enableLogging outputStream a, r') with
        | Ok _ w' => Ok None w'
        | Throw msg w' => Throw msg w'
        | Fault => Fault
        | OutOfFuel w' => OutOfFuel w'
        end
    | Throw msg r' => Throw msg (started enableLogging outputStream a, r')
    | Fault => Fault
    | OutOfFuel r' => OutOfFuel (started enableLogging outputStream a, r')
    end.
Proof.
  intros Hsafe. rewrite run_unfold, Hsafe. unfold run_checked.
  set (a1 := set_logStream outputStream _).
  rewrite (bind_Ok _ _ _ tt (set_lastScores [] a1, r)) by reflexivity.
  rewrite (bind_Ok _ _ _ tt (set_run true (set_lastScores [] a1), r))
    by reflexivity.
  rewrite (bind_Ok _ _ _ tt (started enableLogging outputStream a, r))
    by reflexivity.
  unfold bind at 1. unfold get at 1. cbn [fst].
  unfold bind at 1. unfold on_snd at 1. cbn [fst snd].
  rewrite (seed_ext (started enableLogging outputStream a) a) by reflexivity.
  change (_populationSize (started enableLogging outputStream a))
    with (_populationSize a).
  destruct (seed a (_populationSize a) [] r) as [population r'|msg r'| |r'];
    reflexivity.
Qed.

End LoopProperties.

Section GenerationSteps.
Context {T : Type} `{UserFunctions T}.
Implicit Type a : GeneticAlgorithm T.

(** Everything that the first half of a generation does to the engine. *)
Lemma generation_step limit (population : list (list T)) a r :
  _endCriterion a <> UnknownEndingCriterion ->
  population <> [] ->
  exists e over a',
    last (score_population population) = Some e
    /\ checked population e over a a'
    /\ generation limit population (a, r)
       = if over then Ok None (matched a', r) else breed limit a' r.
Proof.
  intros Hdeclared Hne.
  destruct (generation_cases limit population a r Hdeclared Hne)
    as (e & over & a' & He & Hover & Hgen).
  assert (Hlast : lastElement (scored population e a) = Some e).
  { unfold scored, lastElement. destruct (_logEnable a); exact He. }
  assert (Hdeclared' :
            _endCriterion (scored population e a) <> UnknownEndingCriterion).
  { unfold scored. destruct (_logEnable a); exact Hdeclared. }
  destruct (isEvolutionOver_cases _ e Hdeclared' Hlast)
    as (over' & a'' & Hover' & Hframe & Hconf & Hcrit).
  rewrite Hover in Hover'. injection Hover' as <- <-.
  destruct Hframe as (_ & _ & _ & _ & _ & Hpop & Hrun & Hgen' & Hlog & Hstream).
  assert (Hscored :
            same_configuration a (scored population e a)
            /\ _population (scored population e a) = score_population population
            /\ _run (scored population e a) = _run a
            /\ _generation (scored population e a) = _generation a
            /\ _logEnable (scored population e a) = _logEnable a
            /\ _logStream (scored population e a)
               = (if _logEnable a
                  then _logStream a
                       ++ [LogGeneration (_generation a) e.1 (print e.2)]
                  else _logStream a)
            /\ _lastScores (scored population e a) = _lastScores a).
  { unfold scored. destruct (_logEnable a) eqn:Hlg; repeat split; exact Hlg. }
  destruct Hscored as (Hc0 & Hp0 & Hr0 & Hg0 & Hl0 & Hs0 & Hh0).
  exists e, over, a'. split; [exact He|].
  split; [|exact Hgen]. unfold checked.
  split; [exact (same_configuration_trans _ _ _ Hc0 Hconf)|].
  split; [congruence|]. split; [congruence|]. split; [congruence|].
  split; [congruence|]. split; [congruence|].
  destruct Hc0 as (_ & Hcrit0 & _ & _ & Hmax0 & _).
  destruct Hcrit as [(Hc & -> & ->)|(Hc & Hh & ->)].
  - left. rewrite <- Hcrit0, <- Hmax0. auto.
  - right. rewrite <- Hcrit0, <- Hh0. auto.
Qed.

Lemma matched_fields a :
  same_configuration a (matched a)
  /\ _population (matched a) = _population a
  /\ _lastScores (matched a) = _lastScores a
  /\ _run (matched a) = _run a
  /\ _generation (matched a) = _generation a
  /\ _logEnable (matched a) = _logEnable a
  /\ _logStream (matched a)
     = (if _logEnable a then _logStream a ++ [LogCriterionMatched]
        else _logStream a).
Proof. unfold matched. destruct (_logEnable a) eqn:Hlog; repeat split; auto. Qed.

Lemma finished_fields a a' :
  finished a = Some a' ->
  same_configuration a a'
  /\ _population a' = _population a
  /\ _lastScores a' = _lastScores a
  /\ _run a' = false
  /\ _generation a' = _generation a
  /\ _logEnable a' = false
  /\ _logStream a'
     = (if _logEnable a
        then match lastElement a with
             | Some e => _logStream a ++ [LogOver e.1 (print e.2)]
             | None => _logStream a
             end
        else _logStream a).
Proof.
  unfold finished. destruct (_logEnable a).
  - destruct (lastElement a); [|discriminate].
    intros [= <-]. repeat split.
  - intros [= <-]. repeat split.
Qed.

Lemma unknown_or_declared (c : EndingCriterion) :
  c = UnknownEndingCriterion \/ c <> UnknownEndingCriterion.
Proof. destruct c; [right|right|left]; congruence. Qed.

Lemma scored_same_configuration (population : list (list T)) e a :
  same_configuration a (scored population e a).
Proof. unfold scored. destruct (_logEnable a); repeat split. Qed.

(** A generation leaves the configuration as it was, however it ends. *)
Lemma generation_same_configuration limit (population : list (list T)) a r :
  match generation limit population (a, r) with
  | Ok _ w' | Throw _ w' | OutOfFuel w' => same_configuration a w'.1
  | Fault => True
  end.
Proof.
  destruct population as [|c p].
  { rewrite generation_empty. destruct (_logEnable a); [exact I|].
    destruct (_endCriterion a); try exact I. repeat split. }
  destruct (unknown_or_declared (_endCriterion a)) as [Hunknown|Hdeclared].
  { destruct (generation_unknown limit (c :: p) a r Hunknown)
      as (e & _ & ->); [discriminate|].
    apply scored_same_configuration. }
  destruct (generation_step limit (c :: p) a r Hdeclared)
    as (e & over & a' & _ & (Hconf & _) & ->); [discriminate|].
  destruct over.
  - cbn [fst]. apply (same_configuration_trans _ _ _ Hconf), matched_fields.
  - destruct (breed_cases limit a' r)
      as [(bred & r1 & next & r2 & _ & _ & ->)
         |[[r1 ->]|[->|(msg & r1 & _ & ->)]]];
      [|exact Hconf|exact I|exact Hconf].
    cbn [fst]. apply (same_configuration_trans _ _ _ Hconf). repeat split.
Qed.

(** X8.  Whatever a [run] does, it never changes a configuration parameter:
    the population size, the ending criterion and its threshold, the
    selection type and the tournament size, the mutation probability and the
    bounds of the chromosome size are, in every outcome, those of the
    call. *)
Theorem run_keeps_configuration fuel blocking enableLogging outputStream a r :
  match run fuel blocking enableLogging outputStream (a, r) with
  | Ok _ w' | Throw _ w' | OutOfFuel w' => same_configuration a w'.1
  | Fault => True
  end.
Proof.
  rewrite run_unfold. destruct (tournament_too_large a) eqn:Hsafe;
    [repeat split|].
  destruct blocking.
  - pose proof (run_blocking_unfold fuel enableLogging outputStream a r Hsafe)
      as Hrun.
    rewrite run_unfold, Hsafe in Hrun. rewrite Hrun.
    destruct (seed a (_populationSize a) [] r) as [population r'|msg r'| |r'];
      try exact I; try (repeat split; fail).
    rewrite evolve_unfold.
    pose proof (evolve_loop_ind fuel
                  (fun _ w => same_configuration a w.1)
                  (fun w => same_configuration a w.1)
                  (fun w => same_configuration a w.1)
                  (fun w => same_configuration a w.1)) as Hloop.
    specialize (Hloop (fun _ w HI _ => HI) (fun _ w HI => HI)).
    assert (Hstep : forall population w,
              same_configuration a w.1 -> _run w.1 = true ->
              match generation fuel population w with
              | Ok (Some _) w' => same_configuration a w'.1
              | Ok None w' => same_configuration a w'.1
              | OutOfFuel w' => same_configuration a w'.1
              | Throw _ w' => same_configuration a w'.1
              | Fault => True
              end).
    { intros p [a0 r0] Hconf _. cbn [fst] in Hconf.
      pose proof (generation_same_configuration fuel p a0 r0) as Hgen.
      destruct (generation fuel p (a0, r0)) as [[?|] ?|? ?| |?];
        try exact I;
        exact (same_configuration_trans _ _ _ Hconf Hgen). }
    specialize (Hloop Hstep fuel population
                  (started enableLogging outputStream a, r')
                  ltac:(repeat split)).
    destruct (evolve_loop fuel fuel population _) as [[] w'|msg w'| |w'];
      try exact I; try exact Hloop.
    destruct (finished w'.1) as [a'|] eqn:Hfin; [|exact I].
    cbn [fst]. apply (same_configuration_trans _ _ _ Hloop).
    apply finished_fields, Hfin.
  - unfold run_checked.
    set (a1 := set_logStream outputStream _).
    rewrite (bind_Ok _ _ _ tt (set_lastScores [] a1, r)) by reflexivity.
    rewrite (bind_Ok _ _ _ tt (set_run true (set_lastScores [] a1), r))
      by reflexivity.
    rewrite (bind_Ok _ _ _ tt (started enableLogging outputStream a, r))
      by reflexivity.
    unfold bind at 1. unfold get at 1. cbn [fst].
    unfold bind at 1. unfold on_snd at 1. cbn [fst snd].
    destruct (seed _ _ [] r) as [population r'|msg r'| |r'];
      try exact I; repeat split.
Qed.

End GenerationSteps.

Section BlockingRuns.
Context {T : Type} `{UserFunctions T}.
Implicit Type a : GeneticAlgorithm T.

(** Invariants of a blocking [run]: [Inv] is to hold of the working
    population and the engine at the head of the loop, [J] of the engine that
    leaves the loop; a run that returns left the loop through the
    [break]. *)
Lemma run_blocking_ind fuel enableLogging outputStream a r
    (Inv : list (list T) -> GeneticAlgorithm T -> Prop)
    (J : GeneticAlgorithm T -> Prop) :
  (forall population r',
     tournament_too_large a = false ->
     seed a (_populationSize a) [] r = Ok population r' ->
     Inv population (started enableLogging outputStream a)) ->
  (forall population a0, Inv population a0 -> _run a0 = true) ->
  (forall population a0 e a1,
     Inv population a0 -> last (score_population population) = Some e ->
     checked population e true a0 a1 -> J (matched a1)) ->
  (forall population a0 e a1 r0 bred r1 next r2,
     Inv population a0 -> last (score_population population) = Some e ->
     checked population e false a0 a1 ->
     fill fuel fuel a1 [] r0 = Ok bred r1 ->
     mutate_all a1 bred r1 = Ok next r2 ->
     Inv next (set_generation (S (_generation a1)) a1)) ->
  forall v a' r',
    run fuel true enableLogging outputStream (a, r) = Ok v (a', r') ->
    exists a0, J a0 /\ finished a0 = Some a'.
Proof.
  intros Hinit Hrunning Hbreak Hnext v a' r' Hrun.
  destruct (tournament_too_large a) eqn:Hsafe;
    [rewrite run_unfold, Hsafe in Hrun; discriminate|].
  rewrite (run_blocking_unfold _ _ _ _ _ Hsafe) in Hrun.
  destruct (seed a (_populationSize a) [] r) as [population r0|msg r0| |r0]
    eqn:Hseed; try discriminate.
  specialize (Hinit population r0 eq_refl eq_refl).
  rewrite evolve_unfold in Hrun.
  pose proof (evolve_loop_ind fuel
                (fun population w => Inv population w.1)
                (fun w => J w.1) (fun _ => True) (fun _ => True)) as Hloop.
  assert (Hstep : forall population w,
            Inv population w.1 -> _run w.1 = true ->
            match generation fuel population w with
            | Ok (Some next) w' => Inv next w'.1
            | Ok None w' => J w'.1
            | OutOfFuel w' => True
            | Throw _ w' => True
            | Fault => True
            end).
  { intros p [a0 r1] HI _. cbn [fst] in HI.
    destruct p as [|c p]; [generation_of_nothing; exact I|].
    destruct (unknown_or_declared (_endCriterion a0)) as [Hunknown|Hdeclared].
    { destruct (generation_unknown fuel (c :: p) a0 r1 Hunknown)
        as (e & _ & ->); [discriminate|exact I]. }
    destruct (generation_step fuel (c :: p) a0 r1 Hdeclared)
      as (e & over & a1 & He & Hchecked & Hgen); [discriminate|].
    rewrite Hgen. destruct over.
    - cbn [fst]. exact (Hbreak _ _ _ _ HI He Hchecked).
    - destruct (breed_cases fuel a1 r1)
        as [(bred & r2 & next & r3 & Hfill & Hmut & ->)
           |[[r2 ->]|[->|(msg & r2 & _ & ->)]]];
        [|exact I|exact I|exact I].
      cbn [fst]. exact (Hnext _ _ _ _ _ _ _ _ _ HI He Hchecked Hfill Hmut). }
  specialize (Hloop
                (fun population w HI Hstopped =>
                   ltac:(rewrite (Hrunning _ _ HI) in Hstopped; discriminate))
                (fun _ _ _ => I) Hstep fuel population
                (started enableLogging outputStream a, r0) Hinit).
  destruct (evolve_loop fuel fuel population _) as [[] w'|msg w'| |w'];
    try discriminate.
  destruct (finished w'.1) as [a1|] eqn:Hfin; [|discriminate].
  injection Hrun as _ <- _. exists w'.1. auto.
Qed.

Lemma numbered_snoc first (lines : list LogLine) s p :
  numbered first lines ->
  numbered first (lines ++ [LogGeneration (first + length lines) s p]).
Proof.
  unfold numbered. intros Hlines.
  rewrite length_app. cbn [length]. rewrite seq_app. cbn [seq].
  apply Forall2_app; [exact Hlines|].
  constructor; [eauto|constructor].
Qed.

(** X9.  The log of a blocking [run] that returns with logging enabled: the
    stream holds what it held, then one line for each generation, numbered
    from 0 to the final value of the generation counter, the last one
    reporting the best entry of the final store, then the line of the
    matched criterion and the closing line, which reports that same entry;
    on return the run flag and logging are off. *)
Theorem blocking_run_log fuel outputStream a r v a' r' :
  run fuel true true outputStream (a, r) = Ok v (a', r') ->
  exists lines e,
    lastElement a' = Some e
    /\ _logStream a'
       = outputStream ++ lines
         ++ [LogGeneration (_generation a') e.1 (print e.2);
             LogCriterionMatched; LogOver e.1 (print e.2)]
    /\ numbered 0 lines
    /\ length lines = _generation a'
    /\ _run a' = false /\ _logEnable a' = false.
Proof.
  intros Hrun.
  destruct (run_blocking_ind fuel true outputStream a r
              (fun _ a0 =>
                 _run a0 = true /\ _logEnable a0 = true
                 /\ exists lines,
                      _logStream a0 = outputStream ++ lines
                      /\ numbered 0 lines
                      /\ length lines = _generation a0)
              (fun a0 =>
                 _logEnable a0 = true
                 /\ exists lines e,
                      lastElement a0 = Some e
                      /\ _logStream a0
                         = outputStream ++ lines
                           ++ [LogGeneration (_generation a0) e.1 (print e.2);
                               LogCriterionMatched]
                      /\ numbered 0 lines
                      /\ length lines = _generation a0)) with v a' r'
    as (a0 & (Hlog & lines & e & He & Hstream & Hnum & Hlen) & Hfin);
    [| | | |exact Hrun|].
  - intros population r0 _ _. split; [reflexivity|]. split; [reflexivity|].
    exists []. cbn. rewrite app_nil_r. repeat split. constructor.
  - intros population a0 [Hr _]. exact Hr.
  - intros population a0 e a1 (Hr & Hlog & lines & Hstream & Hnum & Hlen) He
      (_ & Hpop & _ & Hgen & Hlog1 & Hstream1 & _).
    destruct (matched_fields a1) as (_ & Hpop' & _ & _ & Hgen' & Hlog' & Hstream').
    rewrite Hlog in *. rewrite Hlog1 in *.
    split; [exact Hlog'|]. exists lines, e.
    split; [unfold lastElement; rewrite Hpop', Hpop; exact He|].
    rewrite Hstream', Hstream1, Hstream, Hgen', Hgen, <- !app_assoc.
    repeat split; assumption.
  - intros population a0 e a1 r0 bred r1 next r2
      (Hr & Hlog & lines & Hstream & Hnum & Hlen) He
      (_ & _ & Hrun1 & Hgen & Hlog1 & Hstream1 & _) _ _.
    rewrite Hlog in *.
    split; [cbn; congruence|]. split; [cbn; congruence|].
    exists (lines ++ [LogGeneration (_generation a0) e.1 (print e.2)]).
    cbn [_logStream _generation set_generation].
    rewrite Hstream1, Hstream, <- app_assoc.
    split; [reflexivity|]. split.
    + rewrite <- Hlen. apply (numbered_snoc 0). exact Hnum.
    + rewrite length_app. cbn. lia.
  - destruct (finished_fields _ _ Hfin)
      as (_ & Hpop & _ & Hrun' & Hgen & Hlog' & Hstream').
    rewrite Hlog, He in Hstream'.
    exists lines, e.
    split; [unfold lastElement in *; rewrite Hpop; exact He|].
    rewrite Hstream', Hstream, Hgen, <- !app_assoc.
    repeat split; assumption.
Qed.

(** X10.  With logging disabled, a blocking [run] that returns leaves in the
    stream exactly what it held; the run flag is off on return. *)
Theorem blocking_run_silent fuel outputStream a r v a' r' :
  run fuel true false outputStream (a, r) = Ok v (a', r') ->
  _logStream a' = outputStream /\ _run a' = false /\ _logEnable a' = false.
Proof.
  intros Hrun.
  destruct (run_blocking_ind fuel false outputStream a r
              (fun _ a0 =>
                 _run a0 = true /\ _logEnable a0 = false
                 /\ _logStream a0 = outputStream)
              (fun a0 => _logEnable a0 = false /\ _logStream a0 = outputStream))
    with v a' r' as (a0 & (Hlog & Hstream) & Hfin); [| | | |exact Hrun|].
  - intros population r0 _ _. repeat split.
  - intros population a0 [Hr _]. exact Hr.
  - intros population a0 e a1 (Hr & Hlog & Hstream) He
      (_ & _ & _ & _ & Hlog1 & Hstream1 & _).
    destruct (matched_fields a1) as (_ & _ & _ & _ & _ & Hlog' & Hstream').
    rewrite Hlog in *. rewrite Hlog1 in *. split; congruence.
  - intros population a0 e a1 r0 bred r1 next r2 (Hr & Hlog & Hstream) He
      (_ & _ & Hrun1 & _ & Hlog1 & Hstream1 & _) _ _.
    rewrite Hlog in *. cbn. repeat split; congruence.
  - destruct (finished_fields _ _ Hfin)
      as (_ & _ & _ & Hrun' & _ & Hlog' & Hstream').
    rewrite Hlog in Hstream'. repeat split; congruence.
Qed.

End BlockingRuns.

(** ** Where the chromosomes of a generation come from *)
Section Provenance.
Context {T : Type} `{UserFunctions T}.
Implicit Type a : GeneticAlgorithm T.

Lemma get_int_inv min max r x r' :
  Random.get_int min max r = Ok x r' -> (min <= x <= max)%Z.
Proof.
  destruct (Z.le_gt_cases min max) as [Hle|Hgt].
  - destruct (get_int_Ok min max r Hle) as (x' & -> & Hrange).
    intros [= <- _]. exact Hrange.
  - unfold Random.get_int. apply Z.leb_gt in Hgt. rewrite Hgt. discriminate.
Qed.

Lemma get_unsigned_inv min max r x r' :
  Random.get_unsigned min max r = Ok x r' -> min <= x <= max.
Proof.
  destruct (Nat.le_gt_cases min max) as [Hle|Hgt].
  - destruct (get_unsigned_Ok min max r Hle) as (x' & -> & Hrange & _).
    intros [= <- _]. exact Hrange.
  - unfold Random.get_unsigned. apply Nat.leb_gt in Hgt. rewrite Hgt.
    discriminate.
Qed.

Lemma chromosome_scan_stored (entries : list (Score * list T)) :
  forall fitness acc c,
    chromosome_scan fitness acc entries = Some c -> c ∈ snd <$> entries.
Proof.
  induction entries as [|e entries IH]; intros fitness acc c; simpl;
    [discriminate|].
  destruct (Qle_bool fitness (acc + e.1)).
  - intros [= <-]. apply list_elem_of_here.
  - intros Hscan. apply list_elem_of_further, (IH _ _ _ Hscan).
Qed.

Lemma best_stored a c : snd <$> lastElement a = Some c -> stored a c.
Proof.
  unfold lastElement, stored.
  destruct (last (_population a)) as [e|] eqn:Hlast; [|discriminate].
  intros [= <-]. apply list_elem_of_fmap_2, last_Some_elem_of, Hlast.
Qed.

Lemma chromosome_fitness_stored a fitness c :
  chromosome_fitness a fitness = Some c -> stored a c.
Proof.
  unfold chromosome_fitness.
  destruct (chromosome_scan fitness 0 (_population a)) as [c'|] eqn:Hscan.
  - intros [= <-]. exact (chromosome_scan_stored _ _ _ _ Hscan).
  - apply best_stored.
Qed.

Lemma chromosome_index_stored a index c :
  chromosome_index a index = Some c -> stored a c.
Proof.
  unfold chromosome_index.
  destruct (length (_population a) <=? index); [apply best_stored|].
  destruct (_population a !! index) as [e|] eqn:He; [|discriminate].
  intros [= <-]. apply list_elem_of_fmap_2, (list_elem_of_lookup_2 _ index), He.
Qed.

Lemma sus_loop_stored a d fuel : forall s selected r selected' r',
  Forall (stored a) selected ->
  sus_loop fuel a s d selected r = Ok selected' r' ->
  Forall (stored a) selected'.
Proof.
  induction fuel as [|fuel IH]; intros s selected r selected' r' Hsel; simpl;
    destruct (Qle_bool s (totalScore a));
    try discriminate; try (intros [= <- _]; exact Hsel).
  intros Hloop. apply bind_Ok_inv in Hloop as (c & r1 & Hc & Hloop).
  apply defined_Ok_inv in Hc as [Hc ->].
  refine (IH _ _ _ _ _ _ Hloop).
  apply Forall_app. split; [exact Hsel|].
  constructor; [exact (chromosome_fitness_stored _ _ _ Hc)|constructor].
Qed.

Lemma select_stored limit a r selected r' :
  select limit a r = Ok selected r' -> Forall (stored a) selected.
Proof.
  unfold select. destruct (_selectionType a).
  - intros Hsel. apply bind_Ok_inv in Hsel as (p & r1 & _ & Hsel).
    apply bind_Ok_inv in Hsel as (c & r2 & Hc & Hsel).
    apply defined_Ok_inv in Hc as [Hc ->]. injection Hsel as <- _.
    constructor; [exact (chromosome_fitness_stored _ _ _ Hc)|constructor].
  - intros Hsel. apply bind_Ok_inv in Hsel as (k & r1 & _ & Hsel).
    apply bind_Ok_inv in Hsel as (firstScore & r2 & _ & Hsel).
    apply (sus_loop_stored _ _ _ _ _ _ _ _ (Forall_nil_2 _) Hsel).
  - intros Hsel. apply bind_Ok_inv in Hsel as (tournament & r1 & _ & Hsel).
    apply bind_Ok_inv in Hsel as (b & r2 & _ & Hsel).
    apply bind_Ok_inv in Hsel as (c & r3 & Hc & Hsel).
    apply defined_Ok_inv in Hc as [Hc ->]. injection Hsel as <- _.
    constructor; [exact (chromosome_index_stored _ _ _ Hc)|constructor].
  - discriminate.
Qed.

Lemma get_double_inv min max r x r' :
  Random.get_double min max r = Ok x r' ->
  (min <= max)%Q /\ (min <= x)%Q /\ (x <= max)%Q.
Proof.
  destruct (Qlt_le_dec max min) as [Hgt|Hle].
  - unfold Random.get_double. apply Qlt_not_le in Hgt.
    rewrite <- Qle_bool_iff in Hgt.
    destruct (Qle_bool min max); [contradiction|discriminate].
  - destruct (get_double_Ok min max r Hle) as (x' & -> & Hmin & Hmax & _).
    intros [= <- _]. auto.
Qed.

Lemma sus_loop_extends a d fuel : forall s selected r selected' r',
  sus_loop fuel a s d selected r = Ok selected' r' ->
  exists picked, selected' = selected ++ picked.
Proof.
  induction fuel as [|fuel IH]; intros s selected r selected' r'; simpl;
    destruct (Qle_bool s (totalScore a));
    try discriminate;
    try (intros [= <- _]; exists []; rewrite app_nil_r; reflexivity).
  intros Hloop. apply bind_Ok_inv in Hloop as (c & r1 & Hc & Hloop).
  apply IH in Hloop as [picked ->].
  exists (c :: picked). rewrite <- app_assoc. reflexivity.
Qed.

(** X11.  Whatever the selection type, a [select] that returns gives at
    least one chromosome, and every chromosome it gives is a chromosome of
    the store. *)
Theorem select_from_store limit a r selected r' :
  select limit a r = Ok selected r' ->
  selected <> [] /\ Forall (stored a) selected.
Proof.
  intros Hsel. split; [|exact (select_stored _ _ _ _ _ Hsel)].
  unfold select in Hsel. destruct (_selectionType a).
  - apply bind_Ok_inv in Hsel as (p & r1 & _ & Hsel).
    apply bind_Ok_inv in Hsel as (c & r2 & _ & Hsel).
    injection Hsel as <- _. discriminate.
  - apply bind_Ok_inv in Hsel as (k & r1 & Hk & Hsel).
    apply bind_Ok_inv in Hsel as (firstScore & r2 & Hfirst & Hsel).
    apply get_int_inv in Hk.
    apply get_double_inv in Hfirst as (Hd & _ & Hle).
    set (K := inject_Z (Z.of_nat (Z.to_nat k))) in *.
    assert (HK : (1 <= K)%Q).
    { unfold K. rewrite Z2Nat.id by lia.
      change 1%Q with (inject_Z 1). rewrite <- Zle_Qle. lia. }
    assert (Htotal : (totalScore a == totalScore a / K * K)%Q)
      by (field; lra).
    assert (Hfirst : (firstScore <= totalScore a)%Q) by nra.
    apply Qle_bool_iff in Hfirst.
    destruct limit as [|limit]; simpl in Hsel; rewrite Hfirst in Hsel;
      [discriminate|].
    apply bind_Ok_inv in Hsel as (c & r3 & _ & Hsel).
    apply sus_loop_extends in Hsel as [picked ->]. discriminate.
  - apply bind_Ok_inv in Hsel as (tournament & r1 & _ & Hsel).
    apply bind_Ok_inv in Hsel as (b & r2 & _ & Hsel).
    apply bind_Ok_inv in Hsel as (c & r3 & _ & Hsel).
    injection Hsel as <- _. discriminate.
  - discriminate.
Qed.

(** The two chromosomes that [cross] returns, in terms of its arguments. *)
Lemma cross_crossed limit (x y : list T) r result r' :
  cross limit [x; y] r = Ok result r' ->
  crossed x y (Nat.min (length x) (length y)) result.
Proof.
  set (m := Nat.min (length x) (length y)).
  change (cross limit [x; y] r)
    with (bind (cross_select limit m 0 true [])
            (fun genes => defined (exchange genes [x; y])) r).
  intros Hcross. apply bind_Ok_inv in Hcross as (genes & r1 & Hsel & Hex).
  apply defined_Ok_inv in Hex as [Hex ->].
  apply cross_select_bound in Hsel as [Hgenes _]; [|lia|constructor].
  destruct (exchange_crossed x y m genes [x; y])
    as (result' & Hex' & Hcrossed);
    [lia|lia|exact Hgenes|apply crossed_initially|].
  rewrite Hex in Hex'. injection Hex' as <-. exact Hcrossed.
Qed.

Lemma mutate_length a (c : list T) r c' r' :
  mutate a c r = Ok c' r' -> length c' = length c.
Proof.
  unfold mutate. intros Hmut.
  apply bind_Ok_inv in Hmut as (p & r1 & _ & Hmut).
  destruct (Qle_bool p (_mutationProbability a)); [|injection Hmut as <- _; auto].
  apply bind_Ok_inv in Hmut as (b & r2 & Hb & Hmut).
  apply bind_Ok_inv in Hmut as (e & r3 & He & Hmut).
  apply get_int_inv in Hb. apply get_unsigned_inv in He.
  destruct (mutate_loop_spec (e - Z.to_nat b) c (Z.to_nat b) r3)
    as (fresh & r4 & Hfresh & Hloop); [lia|].
  rewrite Hloop in Hmut. injection Hmut as <- _.
  destruct (generate_Ok (e - Z.to_nat b) r3) as (fresh' & r5 & Hgen & Hlen).
  rewrite Hfresh in Hgen. injection Hgen as <- _.
  replace (Z.to_nat b + (e - Z.to_nat b)) with e by lia.
  apply splice_length; [lia|exact Hlen].
Qed.

Section Sizes.
Variable Q : nat -> Prop.

Lemma recombine_sizes limit (selection : list (list T)) n :
  forall i population r population' r',
    Forall (fun c => Q (length c)) selection ->
    Forall (fun c => Q (length c)) population ->
    recombine limit selection i n population r = Ok population' r' ->
    Forall (fun c => Q (length c)) population'.
Proof.
  induction n as [|n IH]; intros i population r population' r' Hsel Hpop; simpl.
  - intros [= <- _]. exact Hpop.
  - intros Hrec.
    apply bind_Ok_inv in Hrec as (x & r1 & Hx & Hrec).
    apply defined_Ok_inv in Hx as [Hx ->].
    apply bind_Ok_inv in Hrec as (y & r2 & Hy & Hrec).
    apply defined_Ok_inv in Hy as [Hy ->].
    apply bind_Ok_inv in Hrec as (result & r3 & Hcross & Hrec).
    apply cross_crossed in Hcross as (x' & y' & -> & Hlx & Hly & _).
    apply bind_Ok_inv in Hrec as (front & r4 & Hfront & Hrec).
    apply defined_Ok_inv in Hfront as [[= <-] ->].
    apply bind_Ok_inv in Hrec as (back & r5 & Hback & Hrec).
    apply defined_Ok_inv in Hback as [[= <-] ->].
    refine (IH _ _ _ _ _ Hsel _ Hrec).
    apply Forall_app. split; [exact Hpop|].
    rewrite Forall_forall in Hsel.
    constructor; [|constructor; [|constructor]].
    + rewrite Hlx. apply Hsel, (list_elem_of_lookup_2 _ _ _ Hx).
    + rewrite Hly. apply Hsel, (list_elem_of_lookup_2 _ _ _ Hy).
Qed.

Lemma gather_stored limit a fuel : forall selection r selection' r',
  Forall (stored a) selection ->
  gather limit fuel a selection r = Ok selection' r' ->
  Forall (stored a) selection'.
Proof.
  induction fuel as [|fuel IH]; intros selection r selection' r' Hsel; simpl;
    destruct (length selection <? 2);
    try discriminate; try (intros [= <- _]; exact Hsel).
  intros Hg. apply bind_Ok_inv in Hg as (tmp & r1 & Htmp & Hg).
  refine (IH _ _ _ _ _ Hg).
  apply Forall_app. split; [exact Hsel|].
  exact (select_stored _ _ _ _ _ Htmp).
Qed.

Lemma fill_sizes limit a fuel : forall population r population' r',
  (forall c, stored a c -> Q (length c)) ->
  Forall (fun c => Q (length c)) population ->
  fill limit fuel a population r = Ok population' r' ->
  Forall (fun c => Q (length c)) population'.
Proof.
  induction fuel as [|fuel IH]; intros population r population' r' Hstore Hpop;
    simpl; destruct (length population <? _populationSize a);
    try discriminate; try (intros [= <- _]; exact Hpop).
  intros Hfill. apply bind_Ok_inv in Hfill as (selection & r1 & Hg & Hfill).
  apply bind_Ok_inv in Hfill as (population1 & r2 & Hrec & Hfill).
  refine (IH _ _ _ _ Hstore _ Hfill).
  refine (recombine_sizes _ _ _ _ _ _ _ _ _ Hpop Hrec).
  apply gather_stored in Hg; [|constructor].
  eapply Forall_impl; [exact Hg|]. exact Hstore.
Qed.

Lemma mutate_all_sizes a (population : list (list T)) :
  forall r population' r',
    Forall (fun c => Q (length c)) population ->
    mutate_all a population r = Ok population' r' ->
    Forall (fun c => Q (length c)) population'.
Proof.
  induction population as [|c population IH]; intros r population' r' Hpop;
    simpl.
  - intros [= <- _]. constructor.
  - intros Hmut. apply Forall_cons in Hpop as [Hc Hpop].
    apply bind_Ok_inv in Hmut as (c' & r1 & Hc' & Hmut).
    apply bind_Ok_inv in Hmut as (rest & r2 & Hrest & Hmut).
    injection Hmut as <- _.
    constructor; [|exact (IH _ _ _ Hpop Hrest)].
    rewrite (mutate_length _ _ _ _ _ Hc'). exact Hc.
Qed.

End Sizes.

Lemma stored_scored (population : list (list T)) a c :
  _population a = score_population population ->
  stored a c <-> c ∈ population.
Proof.
  intros Hpop. unfold stored. rewrite Hpop, score_population_Permutation.
  rewrite <- list_fmap_compose. unfold compose. cbn [snd].
  rewrite list_fmap_id. reflexivity.
Qed.

(** X12.  Breeding neither creates nor loses a chromosome length: every
    chromosome of the population that a generation hands to the next one has
    the length of a chromosome of the population that the generation
    received. *)
Theorem generation_keeps_lengths limit (population : list (list T)) w next w' :
  generation limit population w = Ok (Some next) w' ->
  Forall (fun c' => exists c, c ∈ population /\ length c' = length c) next.
Proof.
  destruct w as [a r]. intros Hgen.
  destruct population as [|c0 population];
    [generation_of_nothing|].
  set (p := c0 :: population) in *.
  destruct (generation_step limit p a r (generation_Ok_declared _ _ _ _ _ _ Hgen))
    as (e & over & a1 & He & (_ & Hpop & _) & Hstep); [discriminate|].
  rewrite Hstep in Hgen. destruct over; [discriminate|].
  destruct (breed_cases limit a1 r)
    as [(bred & r1 & next' & r2 & Hfill & Hmut & Hbreed)
       |[[r1 Hbreed]|[Hbreed|(msg & r1 & _ & Hbreed)]]];
    rewrite Hbreed in Hgen; try discriminate.
  injection Hgen as <- _.
  set (Q := fun n => exists c, c ∈ p /\ n = length c).
  apply (mutate_all_sizes Q _ _ _ _ _) in Hmut; [exact Hmut|].
  apply (fill_sizes Q _ _ _ _ _ _ _) in Hfill; [exact Hfill| |constructor].
  intros c Hc. apply (stored_scored p a1 c Hpop) in Hc. exists c. auto.
Qed.

End Provenance.

(** ** The sizes of the chromosomes of a run *)
Section ChromosomeSizes.
Context {T : Type} `{UserFunctions T}.
Implicit Type a : GeneticAlgorithm T.

Lemma randomChromosome_sized a r c r' :
  randomChromosome a r = Ok c r' -> sized a c.
Proof.
  unfold randomChromosome. intros Hc.
  apply bind_Ok_inv in Hc as (size & r1 & Hsize & Hgen).
  apply get_unsigned_inv in Hsize.
  destruct (generate_Ok size r1) as (c' & r2 & Hgen' & Hlen).
  rewrite Hgen in Hgen'. injection Hgen' as <- _.
  unfold sized. lia.
Qed.

Lemma seed_sized a n : forall population r population' r',
  Forall (sized a) population ->
  seed a n population r = Ok population' r' ->
  Forall (sized a) population' /\ length population' = length population + n.
Proof.
  induction n as [|n IH]; intros population r population' r' Hpop; simpl.
  - intros [= <- _]. split; [exact Hpop|lia].
  - intros Hseed. apply bind_Ok_inv in Hseed as (c & r1 & Hc & Hseed).
    apply IH in Hseed as [Hsized Hlen].
    + split; [exact Hsized|]. rewrite Hlen, length_app. simpl. lia.
    + apply Forall_app. split; [exact Hpop|].
      constructor; [exact (randomChromosome_sized _ _ _ _ Hc)|constructor].
Qed.

Lemma run_nonblocking_unfold fuel enableLogging outputStream a r :
  tournament_too_large a = false ->
  run fuel false enableLogging outputStream (a, r)
  = match seed a (_populationSize a) [] r with
    | Ok population r' =>
        Ok (Some population) (started enableLogging outputStream a, r')
    | Throw msg r' => Throw msg (started enableLogging outputStream a, r')
    | Fault => Fault
    | OutOfFuel r' => OutOfFuel (started enableLogging outputStream a, r')
    end.
Proof.
  intros Hsafe. rewrite run_unfold, Hsafe. unfold run_checked.
  set (a1 := set_logStream outputStream _).
  rewrite (bind_Ok _ _ _ tt (set_lastScores [] a1, r)) by reflexivity.
  rewrite (bind_Ok _ _ _ tt (set_run true (set_lastScores [] a1), r))
    by reflexivity.
  rewrite (bind_Ok _ _ _ tt (started enableLogging outputStream a, r))
    by reflexivity.
  unfold bind at 1. unfold get at 1. cbn [fst].
  unfold bind at 1. unfold on_snd at 1. cbn [fst snd].
  rewrite (seed_ext (started enableLogging outputStream a) a) by reflexivity.
  change (_populationSize (started enableLogging outputStream a))
    with (_populationSize a).
  destruct (seed a (_populationSize a) [] r); reflexivity.
Qed.

(** X13.  The bounds of the chromosome size hold throughout a run.  A
    non-blocking [run] that returns hands over [_populationSize]
    chromosomes whose lengths are within the bounds; a blocking [run] that
    returns leaves a non-empty store in which the length of every
    chromosome, that of [best] included, is within the bounds. *)
Theorem run_chromosome_sizes fuel blocking enableLogging outputStream a r v a' r' :
  run fuel blocking enableLogging outputStream (a, r) = Ok v (a', r') ->
  match v with
  | Some population =>
      blocking = false
      /\ length population = _populationSize a
      /\ Forall (sized a) population
  | None =>
      blocking = true
      /\ Forall (fun e => sized a e.2) (_population a')
      /\ exists c, best a' = Some c /\ sized a c
  end.
Proof.
  intros Hrun. destruct blocking.
  - destruct (run_blocking_ind fuel enableLogging outputStream a r
                (fun population a0 =>
                   _run a0 = true /\ Forall (sized a) population)
                (fun a0 =>
                   Forall (fun e => sized a e.2) (_population a0)
                   /\ exists e, lastElement a0 = Some e)) with v a' r'
      as (a0 & (Hsized & e & He) & Hfin); [| | | |exact Hrun|].
    + intros population r0 _ Hseed. split; [reflexivity|].
      apply (seed_sized a _ [] r population r0 (Forall_nil_2 _) Hseed).
    + intros population a0 [Hr _]. exact Hr.
    + intros population a0 e a1 (_ & Hsized) He (_ & Hpop & _).
      destruct (matched_fields a1) as (_ & Hpop' & _).
      unfold lastElement. rewrite Hpop', Hpop. split; [|eauto].
      rewrite Forall_forall. intros x Hx.
      rewrite Forall_forall in Hsized. apply Hsized.
      apply list_elem_of_lookup in Hx as [i Hi].
      apply score_population_lookup in Hi as [Hin _].
      apply list_elem_of_In, Hin.
    + intros population a0 e a1 r0 bred r1 next r2 (Hr & Hsized) He
        (_ & Hpop & Hrun1 & _) Hfill Hmut.
      split; [cbn; congruence|].
      apply (mutate_all_sizes
               (fun n => _minChromosomeSize a <= n <= _maxChromosomeSize a)
               _ _ _ _ _) in Hmut; [exact Hmut|].
      apply (fill_sizes
               (fun n => _minChromosomeSize a <= n <= _maxChromosomeSize a)
               _ _ _ _ _ _ _) in Hfill; [exact Hfill| |constructor].
      intros c Hc. apply (stored_scored population a1 c Hpop) in Hc.
      rewrite Forall_forall in Hsized. exact (Hsized c Hc).
    + assert (v = None) as ->.
      { destruct (tournament_too_large a) eqn:Hsafe;
          [rewrite run_unfold, Hsafe in Hrun; discriminate|].
        rewrite (run_blocking_unfold _ _ _ _ _ Hsafe) in Hrun.
        destruct (seed a (_populationSize a) [] r); try discriminate.
        destruct (evolve fuel _ _); try discriminate.
        injection Hrun as <- _. reflexivity. }
      destruct (finished_fields _ _ Hfin) as (_ & Hpop & _).
      split; [reflexivity|]. rewrite Hpop. split; [exact Hsized|].
      exists e.2. unfold best, lastElement in *. rewrite Hpop, He.
      split; [reflexivity|].
      rewrite Forall_forall in Hsized. apply Hsized.
      apply last_Some_elem_of, He.
  - destruct (tournament_too_large a) eqn:Hsafe;
      [rewrite run_unfold, Hsafe in Hrun; discriminate|].
    rewrite (run_nonblocking_unfold _ _ _ _ _ Hsafe) in Hrun.
    destruct (seed a (_populationSize a) [] r) as [population r0|msg r0| |r0]
      eqn:Hseed; try discriminate.
    injection Hrun as <- _ _.
    apply seed_sized in Hseed as [Hsized Hlen]; [|constructor].
    split; [reflexivity|]. split; [exact Hlen|exact Hsized].
Qed.

(** X14.  [setChromosomesSize] accepts a minimum above the maximum, and a
    [run] with such bounds and a population of at least one chromosome asks
    the random number generator for an integer of an empty range when it
    creates the first chromosome: undefined behaviour, whatever the other
    parameters. *)
Theorem run_with_inverted_sizes fuel blocking enableLogging outputStream
    min max a r :
  max < min ->
  1 <= _populationSize a ->
  tournament_too_large a = false ->
  run fuel blocking enableLogging outputStream (setChromosomesSize min max a, r)
  = Fault.
Proof.
  intros Hinv Hsize Hsafe.
  set (a0 := setChromosomesSize min max a).
  assert (Hsafe0 : tournament_too_large a0 = false) by exact Hsafe.
  assert (Hseed : seed a0 (_populationSize a0) [] r = Fault).
  { change (_populationSize a0) with (_populationSize a).
    destruct (_populationSize a) as [|n]; [lia|].
    simpl. unfold bind, randomChromosome, bind, Random.get_unsigned.
    change (_minChromosomeSize a0) with min.
    change (_maxChromosomeSize a0) with max.
    apply Nat.leb_gt in Hinv. rewrite Hinv. reflexivity. }
  destruct blocking.
  - rewrite (run_blocking_unfold _ _ _ _ _ Hsafe0), Hseed. reflexivity.
  - rewrite (run_nonblocking_unfold _ _ _ _ _ Hsafe0), Hseed. reflexivity.
Qed.

End ChromosomeSizes.

(** ** The state in which a blocking run ends *)
Section RunEnds.
Context {T : Type} `{UserFunctions T}.
Implicit Type a : GeneticAlgorithm T.

Lemma score_population_last (population : list (list T)) e :
  last (score_population population) = Some e ->
  e.2 ∈ population /\ e.1 = score e.2.
Proof.
  intros He. apply last_Some_elem_of, list_elem_of_lookup_1 in He as [i Hi].
  apply score_population_lookup in Hi as [Hin Hscore].
  split; [apply list_elem_of_In, Hin|exact Hscore].
Qed.

Lemma run_MaxScore_end fuel enableLogging outputStream a r v a' r' :
  _endCriterion a = MaxScore ->
  run fuel true enableLogging outputStream (a, r) = Ok v (a', r') ->
  _lastScores a' = []
  /\ exists e,
       lastElement a' = Some e /\ e.1 = score e.2
       /\ (_maxEndScore a <= e.1)%Q.
Proof.
  intros Hcrit Hrun.
  destruct (run_blocking_ind fuel enableLogging outputStream a r
              (fun _ a0 =>
                 _run a0 = true /\ same_configuration a a0
                 /\ _lastScores a0 = [])
              (fun a0 =>
                 _lastScores a0 = []
                 /\ exists e, lastElement a0 = Some e /\ e.1 = score e.2
                              /\ (_maxEndScore a <= e.1)%Q)) with v a' r'
    as (a0 & (Hhist & e & He & Hscore & Hle) & Hfin); [| | | |exact Hrun|].
  - intros population r0 _ _. repeat split.
  - intros population a0 [Hr _]. exact Hr.
  - intros population a0 e a1 (_ & Hconf & Hhist) He
      (_ & Hpop & _ & _ & _ & _ & Hcheck).
    destruct Hconf as (_ & Hcrit0 & _ & _ & Hmax0 & _).
    destruct (matched_fields a1) as (_ & Hpop' & Hhist' & _).
    destruct Hcheck as [(_ & Hhist1 & Hover)|(Hbest & _)]; [|congruence].
    split; [congruence|]. exists e.
    split; [unfold lastElement; rewrite Hpop', Hpop; exact He|].
    split; [apply (score_population_last _ _ He)|].
    symmetry in Hover. apply Qle_bool_iff in Hover. rewrite <- Hmax0.
    exact Hover.
  - intros population a0 e a1 r0 bred r1 next r2 (Hr & Hconf & Hhist) He
      (Hconf1 & _ & Hrun1 & _ & _ & _ & Hcheck) _ _.
    split; [cbn; congruence|].
    split; [exact (same_configuration_trans _ _ _ Hconf
                     (same_configuration_trans _ _ _ Hconf1
                        ltac:(repeat split)))|].
    destruct Hconf as (_ & Hcrit0 & _).
    destruct Hcheck as [(_ & Hhist1 & _)|(Hbest & _)]; [|congruence].
    cbn. congruence.
  - destruct (finished_fields _ _ Hfin) as (_ & Hpop & Hhist' & _).
    split; [congruence|]. exists e.
    split; [unfold lastElement in *; rewrite Hpop; exact He|].
    split; [exact Hscore|exact Hle].
Qed.

(** X15.  A blocking [run] under the [MaxScore] criterion that returns
    leaves a store whose best chromosome has a score that reaches the
    threshold; the history of best scores is not used and is empty. *)
Theorem blocking_run_MaxScore fuel enableLogging outputStream a r v a' r' :
  _endCriterion a = MaxScore ->
  run fuel true enableLogging outputStream (a, r) = Ok v (a', r') ->
  _lastScores a' = []
  /\ exists c, best a' = Some c /\ (_maxEndScore a <= score c)%Q.
Proof.
  intros Hcrit Hrun.
  destruct (run_MaxScore_end _ _ _ _ _ _ _ _ Hcrit Hrun)
    as (Hhist & e & He & Hscore & Hle).
  split; [exact Hhist|]. exists e.2.
  unfold best. rewrite He. split; [reflexivity|].
  rewrite <- Hscore. exact Hle.
Qed.

(** X16.  A blocking [run] under the [BestScore] criterion that returns has
    scored at least eleven generations.  Its history holds ten scores, the
    last of them the best score of the final store, and none of them exceeds
    the first, the oldest that the history retains: the final best score is
    at most that first entry. *)
Theorem blocking_run_BestScore fuel enableLogging outputStream a r v a' r' :
  _endCriterion a = BestScore ->
  run fuel true enableLogging outputStream (a, r) = Ok v (a', r') ->
  10 <= _generation a'
  /\ length (_lastScores a') = 10
  /\ exists first e,
       head (_lastScores a') = Some first
       /\ (forall s, In s (_lastScores a') -> (s <= first)%Q)
       /\ lastElement a' = Some e
       /\ last (_lastScores a') = Some e.1
       /\ (e.1 <= first)%Q.
Proof.
  intros Hcrit Hrun.
  destruct (run_blocking_ind fuel enableLogging outputStream a r
              (fun _ a0 =>
                 _run a0 = true /\ _endCriterion a0 = BestScore
                 /\ length (_lastScores a0) = Nat.min (_generation a0) 10)
              (fun a0 =>
                 10 <= _generation a0
                 /\ length (_lastScores a0) = 10
                 /\ steady (_lastScores a0) = true
                 /\ exists e, lastElement a0 = Some e
                              /\ last (_lastScores a0) = Some e.1))
    with v a' r'
    as (a0 & (Hgen & Hlen & Hsteady & e & He & Hlast) & Hfin);
    [| | | |exact Hrun|].
  - intros population r0 _ _. repeat split. exact Hcrit.
  - intros population a0 [Hr _]. exact Hr.
  - intros population a0 e a1 (_ & Hbest & Hlen) He
      (_ & Hpop & _ & Hgen & _ & _ & Hcheck).
    destruct (matched_fields a1) as (_ & Hpop' & Hhist' & _ & Hgen' & _).
    destruct Hcheck as [(Hmax & _)|(_ & Hhist1 & Hover)]; [congruence|].
    rewrite Hhist', Hgen', Hgen, Hhist1.
    unfold check_step in Hover. unfold buffer_step.
    rewrite length_app in *. cbn [length] in *.
    destruct (Nat.leb_spec (length (_lastScores a0) + 1) 10) as [Hle|Hgt];
      [discriminate|].
    destruct (_lastScores a0) as [|x l] eqn:Hold; cbn [length] in *; [lia|].
    cbn [app tail] in *.
    split; [lia|]. split; [rewrite length_app; cbn; lia|].
    split; [auto|]. exists e.
    split; [unfold lastElement; rewrite Hpop', Hpop; exact He|].
    apply last_snoc.
  - intros population a0 e a1 r0 bred r1 next r2 (Hr & Hbest & Hlen) He
      ((_ & Hcrit1 & _) & _ & Hrun1 & Hgen & _ & _ & Hcheck) _ _.
    split; [cbn; congruence|]. split; [cbn; congruence|].
    destruct Hcheck as [(Hmax & _)|(_ & Hhist1 & _)]; [congruence|].
    cbn [_lastScores _generation set_generation]. rewrite Hhist1, Hgen.
    destruct (buffer_step_length (_lastScores a0) e.1) as [Heq|Hgt]; lia.
  - destruct (finished_fields _ _ Hfin) as (_ & Hpop & Hhist' & _ & Hgen' & _).
    rewrite Hgen', Hhist'. split; [exact Hgen|]. split; [exact Hlen|].
    destruct (_lastScores a0) as [|first l] eqn:Hold; [discriminate|].
    assert (Hall : forall s, In s (first :: l) -> (s <= first)%Q).
    { intros s Hs. apply Qnot_lt_le.
      apply (proj1 (steady_true (first :: l) first eq_refl) Hsteady s Hs). }
    exists first, e. split; [reflexivity|]. split; [exact Hall|].
    split; [unfold lastElement in *; rewrite Hpop; exact He|].
    split; [exact Hlast|].
    apply Hall. apply list_elem_of_In, last_Some_elem_of, Hlast.
Qed.

End RunEnds.

(** ** A parameter that is stored and never read *)
Section SteadyGenerations.
Context {T : Type} `{UserFunctions T}.
Implicit Type a : GeneticAlgorithm T.
Variable n : nat.

Local Abbreviation ws := (with_steadyGenerations n).

Lemma sus_loop_steady a d fuel : forall s selected r,
  sus_loop fuel (ws a) s d selected r = sus_loop fuel a s d selected r.
Proof.
  induction fuel as [|fuel IH]; intros s selected r; [reflexivity|].
  cbn [sus_loop]. change (totalScore (ws a)) with (totalScore a).
  destruct (Qle_bool s (totalScore a)); [|reflexivity].
  unfold bind. change (chromosome_fitness (ws a) s) with (chromosome_fitness a s).
  destruct (defined (chromosome_fitness a s) r); try reflexivity. apply IH.
Qed.

Lemma tournament_draw_steady a k : forall tournament r,
  tournament_draw (ws a) k tournament r = tournament_draw a k tournament r.
Proof.
  induction k as [|k IH]; intros tournament r; [reflexivity|].
  cbn [tournament_draw]. unfold bind.
  change (_population (ws a)) with (_population a).
  destruct (Random.get_int _ _ r); try reflexivity. apply IH.
Qed.

Lemma select_steady limit a r : select limit (ws a) r = select limit a r.
Proof.
  unfold select. change (_selectionType (ws a)) with (_selectionType a).
  destruct (_selectionType a); [reflexivity| | |reflexivity].
  - unfold bind. change (_population (ws a)) with (_population a).
    destruct (Random.get_int _ _ r) as [k r1| | |]; try reflexivity.
    change (totalScore (ws a)) with (totalScore a).
    destruct (Random.get_double _ _ r1); try reflexivity.
    apply sus_loop_steady.
  - unfold bind. rewrite tournament_draw_steady. reflexivity.
Qed.

Lemma gather_steady limit a fuel : forall selection r,
  gather limit fuel (ws a) selection r = gather limit fuel a selection r.
Proof.
  induction fuel as [|fuel IH]; intros selection r; [reflexivity|].
  cbn [gather]. destruct (length selection <? 2); [|reflexivity].
  unfold bind. rewrite select_steady.
  destruct (select limit a r); try reflexivity. apply IH.
Qed.

Lemma fill_steady limit a fuel : forall population r,
  fill limit fuel (ws a) population r = fill limit fuel a population r.
Proof.
  induction fuel as [|fuel IH]; intros population r; [reflexivity|].
  cbn [fill]. change (_populationSize (ws a)) with (_populationSize a).
  destruct (length population <? _populationSize a); [|reflexivity].
  unfold bind at 1 3. rewrite gather_steady.
  destruct (gather limit limit a [] r) as [selection r1| | |]; try reflexivity.
  unfold bind. destruct (recombine _ _ _ _ _ r1); try reflexivity. apply IH.
Qed.

Lemma mutate_all_steady a (population : list (list T)) : forall r,
  mutate_all (ws a) population r = mutate_all a population r.
Proof.
  induction population as [|c population IH]; intros r; [reflexivity|].
  cbn [mutate_all]. unfold bind at 1 3.
  change (mutate (ws a) c r) with (mutate a c r).
  destruct (mutate a c r) as [c' r1| | |]; try reflexivity.
  unfold bind. rewrite IH. reflexivity.
Qed.

Lemma isEvolutionOver_steady a :
  isEvolutionOver (ws a)
  = match isEvolutionOver a with
    | Ok over a' => Ok over (ws a')
    | Throw msg a' => Throw msg (ws a')
    | Fault => Fault
    | OutOfFuel a' => OutOfFuel (ws a')
    end.
Proof.
  destruct (unknown_or_declared (_endCriterion a)) as [Hunknown|Hdeclared].
  { rewrite (isEvolutionOver_unknown a Hunknown).
    rewrite (isEvolutionOver_unknown (ws a) Hunknown). reflexivity. }
  destruct (lastElement a) as [e|] eqn:He.
  - destruct (_endCriterion a) eqn:Hc; [| |contradiction].
    + rewrite (isEvolutionOver_MaxScore a e Hc He).
      rewrite (isEvolutionOver_MaxScore (ws a) e Hc He). reflexivity.
    + rewrite (isEvolutionOver_BestScore a e Hc He).
      rewrite (isEvolutionOver_BestScore (ws a) e Hc He). reflexivity.
  - apply lastElement_None in He.
    rewrite (isEvolutionOver_empty a Hdeclared He).
    rewrite (isEvolutionOver_empty (ws a) Hdeclared He). reflexivity.
Qed.

Lemma generation_steady limit (population : list (list T)) a r :
  generation limit population (ws a, r)
  = on_engine ws (generation limit population (a, r)).
Proof.
  destruct population as [|c population].
  { rewrite !generation_empty.
    change (_logEnable (ws a)) with (_logEnable a).
    change (_endCriterion (ws a)) with (_endCriterion a).
    destruct (_logEnable a); [reflexivity|].
    destruct (_endCriterion a); reflexivity. }
  destruct (score_population_nonempty (c :: population)) as [e He];
    [discriminate|].
  rewrite !(generation_unfold _ _ _ _ e He).
  replace (scored (c :: population) e (ws a))
    with (ws (scored (c :: population) e a))
    by (unfold scored; change (_logEnable (ws a)) with (_logEnable a);
        destruct (_logEnable a); reflexivity).
  rewrite isEvolutionOver_steady.
  destruct (isEvolutionOver (scored (c :: population) e a))
    as [[|] a'|msg a'| |a']; try reflexivity.
  - unfold on_engine, matched. cbn [fst snd].
    change (_logEnable (ws a')) with (_logEnable a').
    destruct (_logEnable a'); reflexivity.
  - unfold breed. rewrite fill_steady.
    destruct (fill limit limit a' [] r) as [p r1| | |]; try reflexivity.
    rewrite mutate_all_steady.
    destruct (mutate_all a' p r1); reflexivity.
Qed.

Lemma evolve_loop_steady limit fuel : forall (population : list (list T)) a r,
  evolve_loop limit fuel population (ws a, r)
  = on_engine ws (evolve_loop limit fuel population (a, r)).
Proof.
  induction fuel as [|fuel IH]; intros population a r; cbn [evolve_loop].
  - unfold bind, get. cbn [fst].
    change (_run (ws a)) with (_run a). destruct (_run a); reflexivity.
  - unfold bind at 1 3. unfold get at 1 2. cbn [fst].
    change (_run (ws a)) with (_run a). destruct (_run a); [|reflexivity].
    unfold bind. rewrite generation_steady.
    destruct (generation limit population (a, r)) as [[next|] [a' r']| | |];
      try reflexivity.
    apply IH.
Qed.

Lemma evolve_steady fuel (population : list (list T)) a r :
  evolve fuel population (ws a, r)
  = on_engine ws (evolve fuel population (a, r)).
Proof.
  rewrite !evolve_unfold, evolve_loop_steady.
  destruct (evolve_loop fuel fuel population (a, r)) as [[] [a' r']| | |];
    try reflexivity.
  unfold on_engine. cbn [fst snd]. unfold finished.
  change (_logEnable (ws a')) with (_logEnable a').
  change (lastElement (ws a')) with (lastElement a').
  destruct (_logEnable a'); [|reflexivity].
  destruct (lastElement a'); reflexivity.
Qed.

Lemma run_steady fuel blocking enableLogging outputStream a r :
  run fuel blocking enableLogging outputStream (ws a, r)
  = on_engine ws (run fuel blocking enableLogging outputStream (a, r)).
Proof.
  destruct (tournament_too_large a) eqn:Hsafe.
  - rewrite !run_unfold. change (tournament_too_large (ws a)) with (tournament_too_large a).
    rewrite Hsafe. reflexivity.
  - assert (Hsafe' : tournament_too_large (ws a) = false) by exact Hsafe.
    destruct blocking.
    + rewrite (run_blocking_unfold _ _ _ _ _ Hsafe).
      rewrite (run_blocking_unfold _ _ _ _ _ Hsafe').
      rewrite (seed_ext (ws a) a) by reflexivity.
      change (_populationSize (ws a)) with (_populationSize a).
      destruct (seed a (_populationSize a) [] r) as [population r'| | |];
        try reflexivity.
      change (started enableLogging outputStream (ws a))
        with (ws (started enableLogging outputStream a)).
      rewrite evolve_steady.
      destruct (evolve fuel population _); reflexivity.
    + rewrite (run_nonblocking_unfold _ _ _ _ _ Hsafe).
      rewrite (run_nonblocking_unfold _ _ _ _ _ Hsafe').
      rewrite (seed_ext (ws a) a) by reflexivity.
      change (_populationSize (ws a)) with (_populationSize a).
      destruct (seed a (_populationSize a) [] r); reflexivity.
Qed.

End SteadyGenerations.

Section EndingCriterionParameters.
Context {T : Type} `{UserFunctions T}.

(** X17.  The number of generations without improvement given to
    [setEndingCriterion] is stored and never read: whatever its value, a
    [run] ends with the same outcome, the same result, the same engine but
    for that field and the same state of the random number generator.  The
    window of the [BestScore] criterion is the constant 10. *)
Theorem steadyGenerations_is_never_read
    fuel blocking enableLogging outputStream s m m' a r :
  run fuel blocking enableLogging outputStream
    (setEndingCriterion BestScore s m a, r)
  = on_engine (with_steadyGenerations m)
      (run fuel blocking enableLogging outputStream
         (setEndingCriterion BestScore s m' a, r)).
Proof.
  change (setEndingCriterion BestScore s m a)
    with (with_steadyGenerations m (setEndingCriterion BestScore s m' a)).
  apply run_steady.
Qed.

End EndingCriterionParameters.

(** ** Stopping, and the edges of the operators *)
Section Edges.
Context {T : Type} `{UserFunctions T}.
Implicit Type a : GeneticAlgorithm T.

(** X18.  [stop] writes its line when logging is enabled, clears the run
    flag and disables logging, and touches nothing else.  A second [stop]
    changes nothing, and an [evolve] that starts after a [stop] returns at
    once for every population and every fuel: nothing is scored, no line is
    written, the closing line included, and no random number is drawn. *)
Theorem stop_then_evolve a r fuel (population : list (list T)) :
  exists a',
    stop a = Ok tt a'
    /\ _run a' = false /\ _logEnable a' = false
    /\ _logStream a'
       = (if _logEnable a then _logStream a ++ [LogUserStopped]
          else _logStream a)
    /\ same_configuration a a'
    /\ _population a' = _population a
    /\ _lastScores a' = _lastScores a
    /\ _generation a' = _generation a
    /\ stop a' = Ok tt a'
    /\ evolve fuel population (a', r) = Ok tt (a', r).
Proof.
  unfold stop at 1. unfold LOG, bind, get, modify, defined, ret.
  destruct (_logEnable a) eqn:Hlog; eexists; (split; [reflexivity|]).
  all: do 3 (split; [reflexivity|]).
  all: split; [repeat split|].
  all: do 4 (split; [reflexivity|]).
  all: rewrite evolve_unfold, evolve_loop_stopped by reflexivity.
  all: reflexivity.
Qed.

Lemma sus_loop_zero a d fuel : forall s selected r,
  _population a <> [] ->
  (totalScore a == 0)%Q -> (d == 0)%Q -> (s == 0)%Q ->
  sus_loop fuel a s d selected r = OutOfFuel r.
Proof.
  induction fuel as [|fuel IH]; intros s selected r Hne Htotal Hd Hs;
    cbn [sus_loop];
    (assert (Hle : Qle_bool s (totalScore a) = true)
      by (apply Qle_bool_iff; lra)); rewrite Hle; [reflexivity|].
  destruct (chromosome_fitness_defined a s Hne) as [c Hc].
  unfold bind. rewrite Hc. cbn [defined ret].
  apply IH; try assumption. lra.
Qed.

(** X19.  The edges of stochastic universal sampling.  On a store of fewer
    than 10 entries it asks for an integer of the empty range [1, 0], and
    on a negative total score for a real of an empty range: both are
    undefined.  On a total score of 0 the spacing is 0, the cumulative score
    never passes the total, and the loop selects for ever. *)
Theorem select_StochasticUniversal_edges a r :
  _selectionType a = StochasticUniversal ->
  (length (_population a) < 10 -> forall fuel, select fuel a r = Fault)
  /\ (10 <= length (_population a) -> (totalScore a < 0)%Q ->
      forall fuel, select fuel a r = Fault)
  /\ (10 <= length (_population a) -> (totalScore a == 0)%Q ->
      forall fuel,
        select fuel a r
        = OutOfFuel (mkRandom (_engine r) (S (S (_cursor r))))).
Proof.
  intros Hsel. unfold select. rewrite Hsel.
  split; [|split].
  - intros Hlen fuel. unfold bind, Random.get_int.
    rewrite (Nat.div_small _ 10 Hlen). reflexivity.
  - intros Hlen Hneg fuel.
    assert (Hk : 1 <= length (_population a) / 10)
      by (apply Nat.div_le_lower_bound; lia).
    destruct (get_int_Ok 1 (Z.of_nat (length (_population a) / 10)) r)
      as (k & Hdraw & Hrange); [lia|].
    unfold bind at 1. rewrite Hdraw.
    set (K := inject_Z (Z.of_nat (Z.to_nat k))).
    assert (HK : (1 <= K)%Q).
    { unfold K. rewrite Z2Nat.id by lia.
      change 1%Q with (inject_Z 1). rewrite <- Zle_Qle. lia. }
    assert (Htotal : (totalScore a == totalScore a / K * K)%Q)
      by (field; lra).
    assert (Hd : ~ (0 <= totalScore a / K)%Q) by (intros Hd; nra).
    rewrite <- Qle_bool_iff in Hd.
    unfold bind, Random.get_double.
    destruct (Qle_bool 0 (totalScore a / K)); [contradiction|reflexivity].
  - intros Hlen Hzero fuel.
    assert (Hk : 1 <= length (_population a) / 10)
      by (apply Nat.div_le_lower_bound; lia).
    destruct (get_int_Ok 1 (Z.of_nat (length (_population a) / 10)) r)
      as (k & Hdraw & Hrange); [lia|].
    unfold bind at 1. rewrite Hdraw.
    set (K := inject_Z (Z.of_nat (Z.to_nat k))).
    assert (HK : (1 <= K)%Q).
    { unfold K. rewrite Z2Nat.id by lia.
      change 1%Q with (inject_Z 1). rewrite <- Zle_Qle. lia. }
    assert (Hd : (totalScore a / K == 0)%Q)
      by (rewrite Hzero; field; lra).
    destruct (get_double_Ok 0%Q (totalScore a / K)%Q
                (mkRandom (_engine r) (S (_cursor r))))
      as (first & Hfirst & Hlo & Hhi & _); [lra|].
    unfold bind. rewrite Hfirst.
    apply sus_loop_zero; try assumption; [|lra].
    destruct (_population a); [simpl in Hlen; lia|discriminate].
Qed.

(** X20.  The edges of [mutate].  The probability check compares a real
    of [0, 1) with [_mutationProbability]: below 0 no chromosome is ever
    changed, from 1 on every chromosome takes the mutation branch.  On the
    empty chromosome that branch asks for an integer of the empty range
    [0, -1], which is undefined; when the check fails the empty chromosome is
    returned as it is. *)
Theorem mutate_edges a r :
  exists p,
    Random.get_double 0%Q 1%Q r = Ok p (mkRandom (_engine r) (S (_cursor r)))
    /\ (0 <= p)%Q /\ (p < 1)%Q
    /\ ((_mutationProbability a < 0)%Q ->
        forall c, mutate a c r = Ok c (mkRandom (_engine r) (S (_cursor r))))
    /\ ((1 <= _mutationProbability a)%Q -> mutate a [] r = Fault)
    /\ mutate a [] r
       = if Qle_bool p (_mutationProbability a) then Fault
         else Ok [] (mkRandom (_engine r) (S (_cursor r))).
Proof.
  destruct (get_double_Ok 0%Q 1%Q r) as (p & Hp & Hlo & _ & Hhi & _); [lra|].
  specialize (Hhi ltac:(lra)).
  exists p. split; [exact Hp|]. split; [exact Hlo|]. split; [exact Hhi|].
  assert (Hempty : mutate a [] r
                   = if Qle_bool p (_mutationProbability a) then Fault
                     else Ok [] (mkRandom (_engine r) (S (_cursor r)))).
  { unfold mutate. unfold bind at 1. rewrite Hp.
    destruct (Qle_bool p (_mutationProbability a)); reflexivity. }
  split; [|split; [|exact Hempty]].
  - intros Hneg c. unfold mutate. unfold bind at 1. rewrite Hp.
    assert (Hcheck : ~ (p <= _mutationProbability a)%Q) by lra.
    rewrite <- Qle_bool_iff in Hcheck.
    destruct (Qle_bool p (_mutationProbability a)); [contradiction|reflexivity].
  - intros Hone. rewrite Hempty.
    assert (Hcheck : (p <= _mutationProbability a)%Q) by lra.
    apply Qle_bool_iff in Hcheck. rewrite Hcheck. reflexivity.
Qed.

(** X29.  [setMainParameters] accepts a population size of 0.  A
    non-blocking [run] then hands an empty population to the evolution
    thread, and a blocking [run] scores nothing in its first generation and
    reads the last element of an empty store, which is undefined, whatever
    the ending criterion, [MaxScore] or [BestScore], and with or without
    logging.  Only under a criterion that is none of the enumerators and
    without logging is the store not read: the check throws first. *)
Theorem run_with_empty_population fuel enableLogging outputStream
    mutationProbability a r :
  tournament_too_large (setMainParameters 0 mutationProbability a) = false ->
  (_endCriterion a <> UnknownEndingCriterion ->
   run (S fuel) true enableLogging outputStream
     (setMainParameters 0 mutationProbability a, r) = Fault)
  /\ run (S fuel) true enableLogging outputStream
       (setMainParameters 0 mutationProbability a, r)
     = (if enableLogging then Fault
        else match _endCriterion a with
             | UnknownEndingCriterion =>
                 Throw "Unknown ending criterion"
                   (set_population []
                      (started false outputStream
                         (setMainParameters 0 mutationProbability a)), r)
             | _ => Fault
             end)
  /\ run fuel false enableLogging outputStream
       (setMainParameters 0 mutationProbability a, r)
     = Ok (Some [])
         (started enableLogging outputStream
            (setMainParameters 0 mutationProbability a), r).
Proof.
  intros Hsafe.
  assert (Hrun : run (S fuel) true enableLogging outputStream
                   (setMainParameters 0 mutationProbability a, r)
                 = (if enableLogging then Fault
                    else match _endCriterion a with
                         | UnknownEndingCriterion =>
                             Throw "Unknown ending criterion"
                               (set_population []
                                  (started false outputStream
                                     (setMainParameters 0 mutationProbability a)),
                                r)
                         | _ => Fault
                         end)).
  { rewrite (run_blocking_unfold _ _ _ _ _ Hsafe).
    change (seed _ _ [] r) with (@Ok Random (list (list T)) [] r).
    cbv beta iota. rewrite evolve_unfold. cbn [evolve_loop].
    unfold bind at 1. unfold get at 1. cbn [fst].
    change (_run (started _ _ _)) with true. cbv beta iota.
    unfold bind. rewrite generation_empty.
    change (_logEnable (started _ _ _)) with enableLogging.
    change (_endCriterion (started _ _ _)) with (_endCriterion a).
    destruct enableLogging; [reflexivity|].
    destruct (_endCriterion a); reflexivity. }
  split; [|split; [exact Hrun|]].
  - intros Hdeclared. rewrite Hrun.
    destruct enableLogging; [reflexivity|].
    destruct (_endCriterion a); [reflexivity|reflexivity|contradiction].
  - rewrite (run_nonblocking_unfold _ _ _ _ _ Hsafe). reflexivity.
Qed.

End Edges.

(** ** The genes that a crossing exchanges *)
Section Exchanges.
Context {T : Type}.

Lemma sorted_seq a n : StronglySorted lt (seq a n).
Proof.
  revert a. induction n as [|n IH]; intros a; simpl; constructor; [apply IH|].
  apply Forall_forall. intros i Hi. apply elem_of_seq in Hi. lia.
Qed.

Lemma sorted_app_seq (l : list nat) a n :
  StronglySorted lt l -> Forall (fun i => i < a) l ->
  StronglySorted lt (l ++ seq a n).
Proof.
  induction l as [|x l IH]; intros Hsorted Hbound; simpl; [apply sorted_seq|].
  apply StronglySorted_inv in Hsorted as [Hsorted Hx].
  apply Forall_cons in Hbound as [Hxa Hbound].
  constructor; [exact (IH Hsorted Hbound)|].
  apply Forall_app. split; [exact Hx|].
  apply Forall_forall. intros i Hi. apply elem_of_seq in Hi. lia.
Qed.

(** The positions that the first loop of [cross] selects are strictly
    increasing. *)
Lemma cross_select_sorted fuel m : forall index add genes r genes' r',
  StronglySorted lt genes -> Forall (fun i => i < index) genes ->
  cross_select fuel m index add genes r = Ok genes' r' ->
  StronglySorted lt genes'.
Proof.
  induction fuel as [|fuel IH]; intros index add genes r genes' r' Hsorted Hbound;
    simpl; destruct (index <? m);
    try discriminate; try (intros [= <- _]; exact Hsorted).
  intros Hsel. apply bind_Ok_inv in Hsel as (next & r1 & Hnext & Hsel).
  apply get_unsigned_inv in Hnext.
  destruct add.
  - refine (IH _ _ _ _ _ _ _ _ Hsel).
    + apply sorted_app_seq; assumption.
    + apply Forall_app. split.
      * eapply Forall_impl; [exact Hbound|]. simpl. intros i Hi. lia.
      * apply Forall_forall. intros i Hi. apply elem_of_seq in Hi. lia.
  - refine (IH _ _ _ _ _ _ Hsorted _ Hsel).
    eapply Forall_impl; [exact Hbound|]. simpl. intros i Hi. lia.
Qed.

(** The second loop of [cross] on strictly increasing positions. *)
Lemma exchange_sorted (genes : list nat) : forall (x y : list T) result,
  StronglySorted lt genes ->
  exchange genes [x; y] = Some result ->
  exists x' y',
    result = [x'; y']
    /\ (forall i, i ∈ genes -> x' !! i = y !! i /\ y' !! i = x !! i)
    /\ (forall i, i ∉ genes -> x' !! i = x !! i /\ y' !! i = y !! i).
Proof.
  induction genes as [|g genes IH]; intros x y result Hsorted; simpl.
  - intros [= <-]. exists x, y. split; [reflexivity|]. split; [|auto].
    intros i Hi. apply elem_of_nil in Hi. contradiction.
  - apply StronglySorted_inv in Hsorted as [Hsorted Hg].
    unfold exchange_gene. cbn [lookup list_lookup].
    destruct (x !! g) as [gx|] eqn:Hx; [|discriminate].
    destruct (y !! g) as [gy|] eqn:Hy; [|discriminate].
    cbn [insert list_insert].
    intros Hex.
    destruct (IH _ _ _ Hsorted Hex) as (x' & y' & -> & Hin & Hout).
    assert (Hfresh : g ∉ genes).
    { intros Hin'. rewrite Forall_forall in Hg. specialize (Hg g Hin'). lia. }
    exists x', y'. split; [reflexivity|]. split.
    + intros i Hi. apply elem_of_cons in Hi as [->|Hi].
      * destruct (Hout g Hfresh) as [Hx' Hy'].
        rewrite Hx', Hy', Hx, Hy.
        rewrite !list_lookup_insert_eq
          by (eapply lookup_lt_Some; eassumption).
        auto.
      * destruct (Hin i Hi) as [Hx' Hy'].
        assert (g <> i) by (intros ->; contradiction).
        rewrite Hx', Hy', !list_lookup_insert_ne by assumption. auto.
    + intros i Hi. apply not_elem_of_cons in Hi as [Hne Hi].
      destruct (Hout i Hi) as [Hx' Hy'].
      rewrite Hx', Hy', !list_lookup_insert_ne by auto. auto.
Qed.

End Exchanges.

Section CrossProperties.
Context {T : Type} `{UserFunctions T}.

(** X21.  What [cross] exchanges.  The positions selected by its first
    loop are strictly increasing and below the length of the shorter
    chromosome, so that no position is exchanged twice; the two chromosomes
    returned hold each other's genes at exactly these positions and their
    own genes everywhere else.  A chromosome crossed with itself, as happens
    when a selection picks the same entry twice, is returned twice. *)
Theorem cross_exchanges limit (x y : list T) r result r' :
  cross limit [x; y] r = Ok result r' ->
  exists genes x' y',
    cross_select limit (Nat.min (length x) (length y)) 0 true [] r
    = Ok genes r'
    /\ StronglySorted lt genes
    /\ Forall (fun i => i < Nat.min (length x) (length y)) genes
    /\ result = [x'; y']
    /\ (forall i, i ∈ genes -> x' !! i = y !! i /\ y' !! i = x !! i)
    /\ (forall i, i ∉ genes -> x' !! i = x !! i /\ y' !! i = y !! i)
    /\ (x = y -> result = [x; y]).
Proof.
  set (m := Nat.min (length x) (length y)).
  change (cross limit [x; y] r)
    with (bind (cross_select limit m 0 true [])
            (fun genes => defined (exchange genes [x; y])) r).
  intros Hcross. apply bind_Ok_inv in Hcross as (genes & r1 & Hsel & Hex).
  apply defined_Ok_inv in Hex as [Hex ->].
  pose proof (cross_select_sorted _ _ _ _ _ _ _ _
                (SSorted_nil lt) (Forall_nil_2 _) Hsel) as Hsorted.
  pose proof Hsel as Hbound.
  apply cross_select_bound in Hbound as [Hbound _]; [|lia|constructor].
  destruct (exchange_sorted genes x y result Hsorted Hex)
    as (x' & y' & -> & Hin & Hout).
  exists genes, x', y'.
  split; [exact Hsel|]. split; [exact Hsorted|]. split; [exact Hbound|].
  split; [reflexivity|]. split; [exact Hin|]. split; [exact Hout|].
  intros <-.
  assert (Hsame : forall i, x' !! i = x !! i /\ y' !! i = x !! i).
  { intros i. destruct (decide (i ∈ genes)) as [Hi|Hi]; [|exact (Hout i Hi)].
    destruct (Hin i Hi). auto. }
  f_equal; [|f_equal]; apply list_eq; intros i; apply (Hsame i).
Qed.

End CrossProperties.

(** ** Runs without undefined behaviour *)
Section Safety.
Context {T : Type} `{UserFunctions T}.
Implicit Type a : GeneticAlgorithm T.

Lemma cross_select_safe fuel m : forall index add genes r,
  index <= m -> cross_select fuel m index add genes r <> Fault.
Proof.
  induction fuel as [|fuel IH]; intros index add genes r Hindex; simpl;
    destruct (index <? m); try discriminate.
  destruct (get_unsigned_Ok index m r Hindex) as (next & Hnext & Hrange & _).
  unfold bind. rewrite Hnext. destruct add; apply IH; lia.
Qed.

Lemma cross_safe limit (x y : list T) r : cross limit [x; y] r <> Fault.
Proof.
  set (m := Nat.min (length x) (length y)).
  change (cross limit [x; y] r)
    with (bind (cross_select limit m 0 true [])
            (fun genes => defined (exchange genes [x; y])) r).
  unfold bind.
  destruct (cross_select limit m 0 true [] r) as [genes r1|msg r1| |r1]
    eqn:Hsel; try discriminate.
  - apply cross_select_bound in Hsel as [Hgenes _]; [|lia|constructor].
    destruct (exchange_crossed x y m genes [x; y])
      as (result & -> & _); [lia|lia|exact Hgenes|apply crossed_initially|].
    discriminate.
  - exfalso. apply (cross_select_safe limit m 0 true [] r); [lia|exact Hsel].
Qed.

Lemma gather_safe limit a fuel : forall selection r,
  selects_one a -> gather limit fuel a selection r <> Fault.
Proof.
  induction fuel as [|fuel IH]; intros selection r Hone; simpl;
    destruct (length selection <? 2); try discriminate.
  destruct (select_returns limit a r Hone) as (c & r1 & Hsel & _).
  unfold bind. rewrite Hsel. apply IH, Hone.
Qed.

Lemma recombine_safe limit (selection : list (list T)) n :
  forall i population r,
    2 * (i + n) <= length selection ->
    recombine limit selection i n population r <> Fault.
Proof.
  induction n as [|n IH]; intros i population r Hlen; simpl; [discriminate|].
  destruct (lookup_lt_is_Some_2 selection (2 * i)) as [x Hx]; [lia|].
  destruct (lookup_lt_is_Some_2 selection (2 * i + 1)) as [y Hy]; [lia|].
  unfold bind at 1. simpl in Hx. rewrite Hx. cbn [defined ret].
  unfold bind at 1. simpl in Hy. rewrite Hy. cbn [defined ret].
  unfold bind at 1.
  destruct (cross limit [x; y] r) as [result r1|msg r1| |r1] eqn:Hcross;
    try discriminate.
  - apply cross_crossed in Hcross as (x' & y' & -> & _).
    unfold bind. cbn [head last defined ret]. apply IH. lia.
  - exfalso. exact (cross_safe _ _ _ _ Hcross).
Qed.

Lemma fill_safe limit a fuel : forall population r,
  selects_one a -> fill limit fuel a population r <> Fault.
Proof.
  induction fuel as [|fuel IH]; intros population r Hone; cbn [fill];
    destruct (length population <? _populationSize a); try discriminate.
  unfold bind at 1.
  destruct (gather limit limit a [] r) as [selection r1|msg r1| |r1] eqn:Hg;
    try discriminate.
  - unfold bind.
    destruct (recombine limit selection 0 (length selection / 2) population r1)
      as [population1 r2|msg r2| |r2] eqn:Hrec; try discriminate.
    + apply IH, Hone.
    + exfalso. revert Hrec. apply recombine_safe.
      pose proof (Nat.Div0.mul_div_le (length selection) 2). lia.
  - exfalso. exact (gather_safe _ _ _ _ _ Hone Hg).
Qed.

Lemma mutate_returns a (c : list T) r :
  1 <= length c -> exists c' r', mutate a c r = Ok c' r'.
Proof.
  intros Hlen. unfold mutate.
  destruct (get_double_Ok 0%Q 1%Q r) as (p & Hp & _); [lra|].
  unfold bind at 1. rewrite Hp.
  destruct (Qle_bool p (_mutationProbability a)); [|eexists; eexists; reflexivity].
  set (r1 := mkRandom (_engine r) (S (_cursor r))).
  destruct (get_int_Ok 0 (Z.of_nat (length c) - 1) r1) as (b & Hb & Hrange);
    [lia|].
  unfold bind at 1. rewrite Hb.
  set (r2 := mkRandom (_engine r1) (S (_cursor r1))).
  destruct (get_unsigned_Ok (Z.to_nat b) (length c) r2)
    as (e & He & Hrange' & _); [lia|].
  unfold bind. rewrite He.
  destruct (mutate_loop_spec (e - Z.to_nat b) c (Z.to_nat b)
              (mkRandom (_engine r2) (S (_cursor r2))))
    as (fresh & r4 & _ & Hloop); [lia|].
  rewrite Hloop. eauto.
Qed.

Lemma mutate_all_returns a (population : list (list T)) :
  Forall (fun c => 1 <= length c) population ->
  forall r, exists population' r', mutate_all a population r = Ok population' r'.
Proof.
  induction population as [|c population IH]; intros Hpop r; simpl;
    [eexists; eexists; reflexivity|].
  apply Forall_cons in Hpop as [Hc Hpop].
  destruct (mutate_returns a c r Hc) as (c' & r1 & Hmut).
  unfold bind at 1. rewrite Hmut.
  destruct (IH Hpop r1) as (rest & r2 & Hrest).
  unfold bind. rewrite Hrest. eauto.
Qed.

(** The evolution loop under an invariant that excludes faults. *)
Lemma evolve_loop_safe limit
    (Inv : list (list T) -> GeneticAlgorithm T * Random -> Prop)
    (J : GeneticAlgorithm T * Random -> Prop) :
  (forall population w, Inv population w -> _run w.1 = false -> J w) ->
  (forall population w, Inv population w -> _run w.1 = true ->
     match generation limit population w with
     | Ok (Some next) w' => Inv next w'
     | Ok None w' => J w'
     | OutOfFuel _ => True
     | _ => False
     end) ->
  forall fuel population w, Inv population w ->
    match evolve_loop limit fuel population w with
    | Ok _ w' => J w'
    | OutOfFuel _ => True
    | _ => False
    end.
Proof.
  intros Hstopped Hstep.
  induction fuel as [|fuel IH]; intros population w HI; simpl;
    unfold bind at 1; unfold get at 1;
    destruct (_run w.1) eqn:Hrun;
    try exact (Hstopped _ _ HI Hrun); try exact I.
  specialize (Hstep _ _ HI Hrun). unfold bind.
  destruct (generation limit population w) as [[next|] w'|msg w'| |w'];
    try contradiction; try exact I; [|exact Hstep].
  apply IH, Hstep.
Qed.

Lemma total_not_negative (entries : list (Score * list T)) :
  Forall (fun e => (0 <= e.1)%Q) entries ->
  forall s, (0 <= s)%Q ->
    (0 <= fold_left (fun scoreSum e => scoreSum + e.1) entries s)%Q.
Proof.
  induction entries as [|e entries IH]; intros Hall s Hs; simpl; [exact Hs|].
  apply Forall_cons in Hall as [He Hall]. apply IH; [exact Hall|lra].
Qed.

Lemma well_configured_selects_one a0 a (population : list (list T)) e :
  well_configured a -> same_configuration a a0 ->
  _population a0 = score_population population ->
  last (score_population population) = Some e ->
  selects_one a0.
Proof.
  intros (_ & _ & Hsel & _) (Hsize & _ & Htype & _ & _ & _ & Htour & _) Hpop He.
  split.
  - rewrite Hpop. intros Hnil. rewrite Hnil in He. discriminate.
  - destruct Hsel as [[Ht Hrange]|[Hr Hscore]].
    + left. split; [congruence|lia].
    + right. split; [congruence|].
      unfold totalScore. rewrite Hpop.
      apply total_not_negative; [|lra].
      apply Forall_forall. intros x Hx.
      apply list_elem_of_lookup in Hx as [i Hi].
      apply score_population_lookup in Hi as [_ ->]. apply Hscore.
Qed.

Lemma well_configured_safe a :
  well_configured a -> tournament_too_large a = false.
Proof.
  intros (_ & _ & Hsel & _). unfold tournament_too_large.
  destruct Hsel as [[-> Hrange]|[-> _]]; [|reflexivity].
  apply Nat.ltb_ge. lia.
Qed.

(** The loop of a blocking run of a well-configured engine. *)
Lemma evolve_loop_well_configured fuel a (population : list (list T)) a0 r :
  well_configured a -> same_configuration a a0 -> _run a0 = true ->
  population <> [] -> Forall (fun c => 1 <= length c) population ->
  match evolve_loop fuel fuel population (a0, r) with
  | Ok _ w' => lastElement w'.1 <> None
  | OutOfFuel _ => True
  | _ => False
  end.
Proof.
  intros Hwell Hconf Hrun Hne Hsized.
  apply (evolve_loop_safe fuel
           (fun population w =>
              _run w.1 = true /\ same_configuration a w.1
              /\ population <> []
              /\ Forall (fun c => 1 <= length c) population)
           (fun w => lastElement w.1 <> None)).
  - intros p w (Hr & _) Hstopped. congruence.
  - clear population a0 r Hconf Hrun Hne Hsized.
    intros population [a0 r] (Hrun & Hconf & Hne & Hsized) _.
    cbn [fst] in *.
    assert (Hdeclared : _endCriterion a0 <> UnknownEndingCriterion).
    { destruct Hwell as (_ & _ & _ & Hcrit).
      destruct Hconf as (_ & -> & _). destruct Hcrit as [-> | ->]; discriminate. }
    destruct (generation_step fuel population a0 r Hdeclared Hne)
      as (e & over & a1 & He & (Hconf1 & Hpop & Hrun1 & _) & ->).
    pose proof (same_configuration_trans _ _ _ Hconf Hconf1) as Hconf'.
    destruct over.
    + cbn [fst]. destruct (matched_fields a1) as (_ & Hpop' & _).
      unfold lastElement. rewrite Hpop', Hpop, He. discriminate.
    + pose proof (well_configured_selects_one a1 a population e
                    Hwell Hconf' Hpop He) as Hone.
      unfold breed.
      destruct (fill fuel fuel a1 [] r) as [bred r1|msg r1| |r1] eqn:Hfill.
      * assert (Hbred : Forall (fun c => 1 <= length c) bred).
        { apply (fill_sizes (fun n => 1 <= n) _ _ _ _ _ _ _) in Hfill;
            [exact Hfill| |constructor].
          intros c Hc. apply (stored_scored population a1 c Hpop) in Hc.
          rewrite Forall_forall in Hsized. exact (Hsized c Hc). }
        destruct (mutate_all_returns a1 bred Hbred r1) as (next & r2 & Hmut).
        rewrite Hmut. cbn [fst].
        split; [cbn; congruence|].
        split; [exact (same_configuration_trans _ _ _ Hconf'
                         ltac:(repeat split))|].
        pose proof (mutate_all_sizes (fun n => 1 <= n) _ _ _ _ _ Hbred Hmut)
          as Hnext.
        split; [|exact Hnext].
        apply mutate_all_length in Hmut.
        apply fill_length in Hfill as (pairs & Hlen & Hsize & _);
          [|exists 0; reflexivity].
        destruct Hwell as (Hpopsize & _).
        destruct Hconf' as (Hsize' & _).
        intros ->. simpl in Hmut. lia.
      * refine (never_throws_fill _ _ _ _ _ _ _ _ Hfill).
        destruct Hone as (_ & [[-> _]|[-> _]]); discriminate.
      * exact (fill_safe _ _ _ _ _ Hone Hfill).
      * exact I.
  - split; [exact Hrun|]. split; [exact Hconf|]. split; assumption.
Qed.

(** A blocking run of a well-configured engine. *)
Lemma run_blocking_safe fuel enableLogging outputStream a r :
  well_configured a ->
  match run fuel true enableLogging outputStream (a, r) with
  | Ok v w' => v = None /\ _run w'.1 = false /\ exists c, best w'.1 = Some c
  | OutOfFuel _ => True
  | Throw _ _ | Fault => False
  end.
Proof.
  intros Hwell.
  pose proof (well_configured_safe a Hwell) as Hsafe.
  destruct Hwell as (Hpopsize & Hsizes & Hsel).
  destruct (seed_Ok a (_populationSize a) [] r) as (population & r0 & Hseed & Hlen);
    [lia|].
  rewrite (run_blocking_unfold _ _ _ _ _ Hsafe), Hseed, evolve_unfold.
  assert (Hne : population <> []) by (intros ->; simpl in Hlen; lia).
  assert (Hsized : Forall (fun c => 1 <= length c) population).
  { apply (seed_sized a _ [] r population r0) in Hseed as [Hsized _];
      [|constructor].
    eapply Forall_impl; [exact Hsized|].
    intros c [Hmin _]. simpl in *. lia. }
  pose proof (evolve_loop_well_configured fuel a population
                (started enableLogging outputStream a) r0
                (conj Hpopsize (conj Hsizes Hsel))
                ltac:(repeat split) eq_refl Hne Hsized) as Hloop.
  destruct (evolve_loop fuel fuel population _) as [[] w'|msg w'| |w'];
    try exact Hloop.
  destruct (finished w'.1) as [a'|] eqn:Hfin.
  - destruct (finished_fields _ _ Hfin) as (_ & Hpop & _ & Hrun & _).
    cbn [fst]. split; [reflexivity|]. split; [exact Hrun|].
    unfold best, lastElement in *. rewrite Hpop.
    destruct (last (_population w'.1)) as [e|]; [|contradiction].
    exists e.2. reflexivity.
  - unfold finished in Hfin.
    destruct (_logEnable w'.1); [|discriminate].
    destruct (lastElement w'.1); [discriminate|contradiction].
Qed.

(** X22.  A well-configured engine runs without undefined behaviour and
    without exception, whatever the draws.  A non-blocking [run] returns the
    population it created; a blocking [run] either is still evolving when the
    fuel is spent, or returns with the run flag cleared and a non-empty
    store, so that [best] is defined. *)
Theorem run_is_safe fuel blocking enableLogging outputStream a r :
  well_configured a ->
  match run fuel blocking enableLogging outputStream (a, r) with
  | Ok v w' =>
      if blocking
      then v = None /\ _run w'.1 = false /\ exists c, best w'.1 = Some c
      else exists population, v = Some population
  | OutOfFuel _ => blocking = true
  | Throw _ _ | Fault => False
  end.
Proof.
  intros Hwell. destruct blocking.
  - pose proof (run_blocking_safe fuel enableLogging outputStream a r Hwell)
      as Hrun.
    destruct (run fuel true enableLogging outputStream (a, r));
      [exact Hrun|exact Hrun|exact Hrun|reflexivity].
  - pose proof (well_configured_safe a Hwell) as Hsafe.
    destruct Hwell as (_ & Hsizes & _).
    destruct (seed_Ok a (_populationSize a) [] r)
      as (population & r0 & Hseed & _); [lia|].
    rewrite (run_nonblocking_unfold _ _ _ _ _ Hsafe), Hseed. eauto.
Qed.

End Safety.

(** ** The exceptions of a run *)
Section Exceptions.
Context {T : Type} `{UserFunctions T}.
Implicit Type a : GeneticAlgorithm T.

Lemma type_unknown_or_declared (t : SelectionType) :
  t = UnknownSelectionType \/ t <> UnknownSelectionType.
Proof. destruct t; [right|right|right|left]; congruence. Qed.

Lemma select_Throw fuel a r msg r' :
  select fuel a r = Throw msg r' ->
  _selectionType a = UnknownSelectionType /\ msg = "Unknown selection type"%string.
Proof.
  intros Hthrow.
  destruct (type_unknown_or_declared (_selectionType a)) as [Hunknown|Hdeclared].
  - rewrite (select_unknown fuel a r Hunknown) in Hthrow.
    injection Hthrow as <- _. auto.
  - destruct (never_throws_select fuel a Hdeclared _ _ _ Hthrow).
Qed.

Lemma gather_Throw limit a fuel : forall selection r msg r',
  gather limit fuel a selection r = Throw msg r' ->
  _selectionType a = UnknownSelectionType /\ msg = "Unknown selection type"%string.
Proof.
  induction fuel as [|fuel IH]; intros selection r msg r'; simpl;
    destruct (length selection <? 2); try discriminate.
  unfold bind.
  destruct (select limit a r) as [tmp r1|msg1 r1| |r1] eqn:Hsel;
    try discriminate.
  - apply IH.
  - intros [= <- _]. exact (select_Throw _ _ _ _ _ Hsel).
Qed.

Lemma fill_Throw limit a fuel : forall population r msg r',
  fill limit fuel a population r = Throw msg r' ->
  _selectionType a = UnknownSelectionType /\ msg = "Unknown selection type"%string.
Proof.
  induction fuel as [|fuel IH]; intros population r msg r'; cbn [fill];
    destruct (length population <? _populationSize a); try discriminate.
  unfold bind at 1.
  destruct (gather limit limit a [] r) as [selection r1|msg1 r1| |r1] eqn:Hg;
    try discriminate.
  - unfold bind.
    destruct (recombine limit selection 0 (length selection / 2) population r1)
      as [population1 r2|msg2 r2| |r2] eqn:Hrec; try discriminate.
    + apply IH.
    + destruct (never_throws_recombine _ _ _ _ _ _ _ _ Hrec).
  - intros [= <- _]. exact (gather_Throw _ _ _ _ _ _ _ Hg).
Qed.

(** Under a selection type that is none of the enumerators the filling loop
    throws at its first selection, and returns only when it has nothing to
    select. *)
Lemma fill_unknown limit a fuel (population : list (list T)) r :
  _selectionType a = UnknownSelectionType ->
  1 <= limit -> 1 <= fuel -> length population < _populationSize a ->
  fill limit fuel a population r = Throw "Unknown selection type" r.
Proof.
  intros Hunknown Hlimit Hfuel Hlen.
  destruct fuel as [|fuel]; [lia|]. destruct limit as [|limit]; [lia|].
  cbn [fill]. apply Nat.ltb_lt in Hlen. rewrite Hlen.
  unfold bind at 1. cbn [gather].
  change (length (@nil (list T)) <? 2) with true. cbv iota.
  unfold bind at 1. rewrite (select_unknown _ a r Hunknown). reflexivity.
Qed.

Lemma fill_unknown_Ok limit a fuel (population : list (list T)) r bred r' :
  _selectionType a = UnknownSelectionType ->
  fill limit fuel a population r = Ok bred r' -> bred = population.
Proof.
  intros Hunknown.
  destruct fuel as [|fuel]; cbn [fill];
    destruct (length population <? _populationSize a); try discriminate;
    try (intros [= <- _]; reflexivity).
  unfold bind at 1.
  destruct limit as [|limit]; cbn [gather];
    change (length (@nil (list T)) <? 2) with true; cbv iota;
    [discriminate|].
  unfold bind at 1. rewrite (select_unknown _ a r Hunknown). discriminate.
Qed.

Lemma breed_Throw limit a r msg w' :
  breed limit a r = Throw msg w' ->
  _selectionType a = UnknownSelectionType
  /\ msg = "Unknown selection type"%string /\ w'.1 = a.
Proof.
  unfold breed.
  destruct (fill limit limit a [] r) as [bred r1|msg1 r1| |r1] eqn:Hfill;
    try discriminate.
  - destruct (mutate_all a bred r1) as [next r2|msg2 r2| |r2] eqn:Hmut;
      try discriminate.
    destruct (never_throws_mutate_all _ _ _ _ _ Hmut).
  - intros [= <- <-]. destruct (fill_Throw _ _ _ _ _ _ _ Hfill). auto.
Qed.

(** A generation throws only for a criterion or a selection type that is
    none of the enumerators, and leaves the run flag and the generation
    counter as they were. *)
Lemma generation_Throw limit (population : list (list T)) a r msg w' :
  generation limit population (a, r) = Throw msg w' ->
  _run w'.1 = _run a /\ _generation w'.1 = _generation a
  /\ ((_endCriterion a = UnknownEndingCriterion
       /\ msg = "Unknown ending criterion"%string)
      \/ (_selectionType a = UnknownSelectionType
          /\ msg = "Unknown selection type"%string)).
Proof.
  intros Hgen.
  destruct population as [|c p].
  { rewrite generation_empty in Hgen.
    destruct (_logEnable a); [discriminate|].
    destruct (_endCriterion a) eqn:Hc; try discriminate.
    injection Hgen as <- <-. auto. }
  destruct (unknown_or_declared (_endCriterion a)) as [Hunknown|Hdeclared].
  { destruct (generation_unknown limit (c :: p) a r Hunknown)
      as (e & _ & Hthrow); [discriminate|].
    rewrite Hthrow in Hgen. injection Hgen as <- <-.
    destruct (scored_frame (c :: p) e a) as (_ & _ & Hrun & Hg). auto. }
  destruct (generation_step limit (c :: p) a r Hdeclared)
    as (e & over & a1 & _ & (Hconf & _ & Hrun & Hg & _) & Hstep);
    [discriminate|].
  rewrite Hstep in Hgen. destruct over; [discriminate|].
  apply breed_Throw in Hgen as (Hsel & -> & ->).
  destruct Hconf as (_ & _ & Htype & _).
  split; [exact Hrun|]. split; [exact Hg|]. right. split; [congruence|reflexivity].
Qed.

Lemma evolve_loop_running limit fuel (population : list (list T)) a r :
  _run a = true ->
  evolve_loop limit (S fuel) population (a, r)
  = match generation limit population (a, r) with
    | Ok (Some next) w' => evolve_loop limit fuel next w'
    | Ok None w' => Ok tt w'
    | Throw msg w' => Throw msg w'
    | Fault => Fault
    | OutOfFuel w' => OutOfFuel w'
    end.
Proof.
  intros Hrun. cbn [evolve_loop]. unfold bind at 1. unfold get at 1.
  cbn [fst]. rewrite Hrun. unfold bind at 1.
  destruct (generation limit population (a, r)) as [[next|] w'|msg w'| |w'];
    reflexivity.
Qed.

(** With a criterion and a selection type among the enumerators the
    evolution loop throws nothing. *)
Lemma evolve_loop_declared limit fuel (population : list (list T)) a r msg w' :
  _endCriterion a <> UnknownEndingCriterion ->
  _selectionType a <> UnknownSelectionType ->
  evolve_loop limit fuel population (a, r) <> Throw msg w'.
Proof.
  intros Hc Hsel Hthrow.
  pose proof (evolve_loop_ind limit
                (fun _ w => _endCriterion w.1 <> UnknownEndingCriterion
                            /\ _selectionType w.1 <> UnknownSelectionType)
                (fun _ => True) (fun _ => True) (fun _ => False)
                (fun _ _ _ _ => I) (fun _ _ _ => I)) as Hloop.
  assert (Hstep : forall population w,
            _endCriterion w.1 <> UnknownEndingCriterion
            /\ _selectionType w.1 <> UnknownSelectionType ->
            _run w.1 = true ->
            match generation limit population w with
            | Ok (Some next) w' =>
                _endCriterion w'.1 <> UnknownEndingCriterion
                /\ _selectionType w'.1 <> UnknownSelectionType
            | Ok None w' => True
            | OutOfFuel w' => True
            | Throw _ w' => False
            | Fault => True
            end).
  { intros p [a0 r0] [Hc0 Hsel0] _. cbn [fst] in *.
    pose proof (generation_same_configuration limit p a0 r0) as Hconf.
    destruct (generation limit p (a0, r0)) as [[next|] w1|msg1 w1| |w1] eqn:Hgen;
      try exact I.
    - destruct Hconf as (_ & Hc1 & Hsel1 & _). split; congruence.
    - apply generation_Throw in Hgen as (_ & _ & [[Hu _]|[Hu _]]);
        contradiction. }
  specialize (Hloop Hstep fuel population (a, r) (conj Hc Hsel)).
  rewrite Hthrow in Hloop. exact Hloop.
Qed.

(** The evolution loop throws in its first generation or not at all. *)
Lemma evolve_loop_Throw limit fuel (population : list (list T)) a r msg w' :
  evolve_loop limit fuel population (a, r) = Throw msg w' ->
  _run a = true /\ generation limit population (a, r) = Throw msg w'.
Proof.
  destruct (_run a) eqn:Hrun.
  2:{ rewrite (evolve_loop_stopped limit fuel population (a, r) Hrun).
      discriminate. }
  destruct fuel as [|fuel].
  { cbn [evolve_loop]. unfold bind, get. cbn [fst]. rewrite Hrun.
    discriminate. }
  rewrite (evolve_loop_running _ _ _ _ _ Hrun).
  destruct (generation limit population (a, r)) as [[next|] [a1 r1]|msg1 w1| |w1]
    eqn:Hgen; try discriminate; [|intros [= <- <-]; auto].
  intros Hthrow. exfalso.
  pose proof (generation_Ok_declared _ _ _ _ _ _ Hgen) as Hdeclared.
  pose proof (generation_same_configuration limit population a r) as Hconf.
  rewrite Hgen in Hconf. cbn [fst] in Hconf.
  destruct Hconf as (_ & Hc1 & Hsel1 & _).
  destruct (type_unknown_or_declared (_selectionType a)) as [Hunknown|Hsel].
  - assert (next = []) as ->.
    { destruct population as [|c p]; [generation_of_nothing|].
      destruct (generation_step limit (c :: p) a r Hdeclared)
        as (e & over & a2 & _ & ((_ & _ & Htype & _) & _) & Hstep);
        [discriminate|].
      rewrite Hstep in Hgen. destruct over; [discriminate|].
      unfold breed in Hgen.
      destruct (fill limit limit a2 [] r) as [bred r2|msg2 r2| |r2] eqn:Hfill;
        try discriminate.
      apply fill_unknown_Ok in Hfill; [|congruence]. subst bred.
      cbn [mutate_all] in Hgen. injection Hgen as <- _ _. reflexivity. }
    destruct fuel as [|fuel]; cbn [evolve_loop] in Hthrow;
      unfold bind at 1 in Hthrow; unfold get at 1 in Hthrow;
      cbn [fst] in Hthrow; destruct (_run a1); try discriminate.
    unfold bind at 1 in Hthrow. rewrite generation_empty in Hthrow.
    destruct (_logEnable a1); [discriminate|].
    destruct (_endCriterion a1) eqn:Hc; try discriminate. congruence.
  - refine (evolve_loop_declared limit fuel next a1 r1 msg w' _ _ Hthrow);
      congruence.
Qed.

(** A blocking [run] that passes the safety check throws in its first
    generation or not at all. *)
Lemma run_blocking_Throw fuel enableLogging outputStream a r msg w' :
  tournament_too_large a = false ->
  run fuel true enableLogging outputStream (a, r) = Throw msg w' ->
  exists population r1,
    seed a (_populationSize a) [] r = Ok population r1
    /\ generation fuel population (started enableLogging outputStream a, r1)
       = Throw msg w'.
Proof.
  intros Hsafe. rewrite (run_blocking_unfold _ _ _ _ _ Hsafe).
  destruct (seed a (_populationSize a) [] r) as [population r1|msg1 r1| |r1]
    eqn:Hseed; try discriminate.
  2:{ destruct (never_throws_seed _ _ _ _ _ _ Hseed). }
  rewrite evolve_unfold.
  destruct (evolve_loop fuel fuel population _) as [[] w1|msg1 w1| |w1] eqn:Hloop;
    try discriminate.
  - destruct (finished w1.1); discriminate.
  - intros [= <- <-]. exists population, r1. split; [reflexivity|].
    apply evolve_loop_Throw in Hloop as [_ Hgen]. exact Hgen.
Qed.

(** The first generation of a blocking [run]. *)
Lemma run_blocking_first fuel enableLogging outputStream a r population r1 :
  tournament_too_large a = false ->
  seed a (_populationSize a) [] r = Ok population r1 ->
  run (S fuel) true enableLogging outputStream (a, r)
  = match generation (S fuel) population
            (started enableLogging outputStream a, r1) with
    | Ok (Some next) w1 =>
        match evolve_loop (S fuel) fuel next w1 with
        | Ok _ w' =>
            match finished w'.1 with
            | Some a' => Ok None (a', w'.2)
            | None => Fault
            end
        | Throw msg w' => Throw msg w'
        | Fault => Fault
        | OutOfFuel w' => OutOfFuel w'
        end
    | Ok None w1 =>
        match finished w1.1 with
        | Some a' => Ok None (a', w1.2)
        | None => Fault
        end
    | Throw msg w' => Throw msg w'
    | Fault => Fault
    | OutOfFuel w' => OutOfFuel w'
    end.
Proof.
  intros Hsafe Hseed.
  rewrite (run_blocking_unfold _ _ _ _ _ Hsafe), Hseed, evolve_unfold.
  rewrite (evolve_loop_running (S fuel) fuel population
             (started enableLogging outputStream a) r1 eq_refl).
  destruct (generation (S fuel) population _) as [[next|] w1|msg w1| |w1];
    try reflexivity.
  - destruct (evolve_loop (S fuel) fuel next w1) as [[] w'|msg w'| |w'];
      try reflexivity.
    destruct (finished w'.1); reflexivity.
  - destruct (finished w1.1); reflexivity.
Qed.

(** C8 (as amended).  [run] raises "The tournament size cannot be greater
    than the population size" exactly when the selection type is [Tournament]
    and the tournament size exceeds the population size: at once, before the
    population is seeded (no random draw is consumed) and before [evolve] is
    started or handed to a thread, leaving the engine as it was except for
    the logging settings, which already hold the arguments of the call.  The
    only other errors are those of a blocking [run] whose ending criterion or
    selection type is none of the enumerators: "Unknown ending criterion"
    from the first ending check, "Unknown selection type" from the first
    selection, both during generation 0, with the population seeded and
    scored and the run flag left set.  With a criterion and a selection type
    among the enumerators, and in non-blocking mode, [run] raises nothing
    else than the tournament error. *)
Theorem run_configuration_error fuel blocking enableLogging outputStream
    (w : GeneticAlgorithm T * Random) :
  (_selectionType w.1 = Tournament ->
   _populationSize w.1 < _tournamentSize w.1 ->
   run fuel blocking enableLogging outputStream w
   = Throw "The tournament size cannot be greater than the population size"
       (set_logStream outputStream (set_logEnable enableLogging w.1), w.2))
  /\ ((exists w',
         run fuel blocking enableLogging outputStream w
         = Throw "The tournament size cannot be greater than the population size"
             w')
      <-> _selectionType w.1 = Tournament
          /\ _populationSize w.1 < _tournamentSize w.1)
  /\ (forall msg w',
        run fuel blocking enableLogging outputStream w = Throw msg w' ->
        (_selectionType w.1 = Tournament
         /\ _populationSize w.1 < _tournamentSize w.1
         /\ msg = "The tournament size cannot be greater than the population size"%string
         /\ w' = (set_logStream outputStream
                    (set_logEnable enableLogging w.1), w.2))
        \/ (blocking = true
            /\ tournament_too_large w.1 = false
            /\ _run w'.1 = true /\ _generation w'.1 = 0
            /\ ((_endCriterion w.1 = UnknownEndingCriterion
                 /\ msg = "Unknown ending criterion"%string)
                \/ (_selectionType w.1 = UnknownSelectionType
                    /\ msg = "Unknown selection type"%string))))
  /\ ((blocking = false
       \/ (_endCriterion w.1 <> UnknownEndingCriterion
           /\ _selectionType w.1 <> UnknownSelectionType)) ->
      ((exists msg w',
          run fuel blocking enableLogging outputStream w = Throw msg w')
       <-> _selectionType w.1 = Tournament
           /\ _populationSize w.1 < _tournamentSize w.1))
  /\ (_endCriterion w.1 = UnknownEndingCriterion ->
      tournament_too_large w.1 = false ->
      1 <= _populationSize w.1 ->
      _minChromosomeSize w.1 <= _maxChromosomeSize w.1 ->
      1 <= fuel ->
      exists population r1 e,
        seed w.1 (_populationSize w.1) [] w.2 = Ok population r1
        /\ last (score_population population) = Some e
        /\ run fuel true enableLogging outputStream w
           = Throw "Unknown ending criterion"
               (scored population e
                  (started enableLogging outputStream w.1), r1))
  /\ (_selectionType w.1 = UnknownSelectionType ->
      (_endCriterion w.1 = BestScore
       \/ (_endCriterion w.1 = MaxScore
           /\ forall c : list T, (score c < _maxEndScore w.1)%Q)) ->
      1 <= _populationSize w.1 ->
      _minChromosomeSize w.1 <= _maxChromosomeSize w.1 ->
      1 <= fuel ->
      exists population r1 e a1,
        seed w.1 (_populationSize w.1) [] w.2 = Ok population r1
        /\ last (score_population population) = Some e
        /\ checked population e false
             (started enableLogging outputStream w.1) a1
        /\ run fuel true enableLogging outputStream w
           = Throw "Unknown selection type" (a1, r1)).
Proof.
  destruct w as [a r]. cbn [fst snd].
  assert (Hstart : _selectionType a = Tournament ->
                   _populationSize a < _tournamentSize a ->
                   run fuel blocking enableLogging outputStream (a, r)
                   = Throw "The tournament size cannot be greater than the population size"
                       (set_logStream outputStream
                          (set_logEnable enableLogging a), r)).
  { intros Hsel Hlt. rewrite run_unfold.
    rewrite (proj2 (tournament_too_large_true a) (conj Hsel Hlt)).
    reflexivity. }
  assert (Hall : forall msg w',
            run fuel blocking enableLogging outputStream (a, r) = Throw msg w' ->
            (_selectionType a = Tournament
             /\ _populationSize a < _tournamentSize a
             /\ msg = "The tournament size cannot be greater than the population size"%string
             /\ w' = (set_logStream outputStream
                        (set_logEnable enableLogging a), r))
            \/ (blocking = true
                /\ tournament_too_large a = false
                /\ _run w'.1 = true /\ _generation w'.1 = 0
                /\ ((_endCriterion a = UnknownEndingCriterion
                     /\ msg = "Unknown ending criterion"%string)
                    \/ (_selectionType a = UnknownSelectionType
                        /\ msg = "Unknown selection type"%string)))).
  { intros msg w' Hthrow.
    destruct (tournament_too_large a) eqn:Hlarge.
    - left. apply tournament_too_large_true in Hlarge as [Hsel Hlt].
      rewrite (Hstart Hsel Hlt) in Hthrow. injection Hthrow as <- <-. auto.
    - right. destruct blocking.
      + destruct (run_blocking_Throw _ _ _ _ _ _ _ Hlarge Hthrow)
          as (population & r1 & _ & Hgen).
        apply generation_Throw in Hgen as (Hrun & Hg & Hcause).
        split; [reflexivity|]. split; [reflexivity|].
        split; [exact Hrun|]. split; [exact Hg|exact Hcause].
      + rewrite (run_nonblocking_unfold _ _ _ _ _ Hlarge) in Hthrow.
        destruct (seed a (_populationSize a) [] r) as [p r1|msg1 r1| |r1]
          eqn:Hseed; try discriminate.
        destruct (never_throws_seed _ _ _ _ _ _ Hseed). }
  split; [exact Hstart|].
  split.
  { split.
    - intros (w' & Hthrow).
      destruct (Hall _ w' Hthrow)
        as [(Hsel & Hlt & _)|(_ & _ & _ & _ & [[_ Hmsg]|[_ Hmsg]])];
        [auto|discriminate|discriminate].
    - intros [Hsel Hlt]. rewrite (Hstart Hsel Hlt). eauto. }
  split; [exact Hall|]. split; [|split].
  - intros Hcalm. split.
    + intros (msg & w' & Hthrow).
      destruct (Hall msg w' Hthrow)
        as [(Hsel & Hlt & _)|(Hblocking & _ & _ & _ & Hcause)]; [auto|].
      destruct Hcalm as [Hnon|[Hc Hsel]]; [congruence|].
      destruct Hcause as [[Hu _]|[Hu _]]; contradiction.
    + intros [Hsel Hlt]. rewrite (Hstart Hsel Hlt). eauto.
  - intros Hunknown Hlarge Hsize Hle Hfuel.
    destruct (seed_Ok a (_populationSize a) [] r Hle)
      as (population & r1 & Hseed & Hlen).
    assert (Hne : population <> []).
    { intros ->. simpl in Hlen. lia. }
    destruct (generation_unknown fuel population
                (started enableLogging outputStream a) r1 Hunknown Hne)
      as (e & He & Hgen).
    exists population, r1, e. split; [exact Hseed|]. split; [exact He|].
    destruct fuel as [|fuel]; [lia|].
    rewrite (run_blocking_first _ _ _ _ _ _ _ Hlarge Hseed), Hgen.
    reflexivity.
  - intros Hunknown Hcrit Hsize Hle Hfuel.
    assert (Hlarge : tournament_too_large a = false).
    { unfold tournament_too_large. rewrite Hunknown. reflexivity. }
    destruct (seed_Ok a (_populationSize a) [] r Hle)
      as (population & r1 & Hseed & Hlen).
    assert (Hne : population <> []).
    { intros ->. simpl in Hlen. lia. }
    assert (Hdeclared : _endCriterion (started enableLogging outputStream a)
                        <> UnknownEndingCriterion).
    { cbn. destruct Hcrit as [-> |[-> _]]; discriminate. }
    destruct (generation_step fuel population
                (started enableLogging outputStream a) r1 Hdeclared Hne)
      as (e & over & a1 & He & Hchecked & Hgen).
    assert (Hover : over = false).
    { destruct Hchecked as (_ & _ & _ & _ & _ & _ & Hcheck).
      destruct Hcheck as [(Hc & _ & ->)|(Hc & _ & ->)].
      - destruct Hcrit as [Hbest|[_ Hbelow]]; [cbn in Hc; congruence|].
        destruct (score_population_best _ _ He) as (_ & Hscore & _).
        apply Qle_bool_false. cbn. rewrite Hscore. apply Hbelow.
      - reflexivity. }
    subst over.
    exists population, r1, e, a1.
    split; [exact Hseed|]. split; [exact He|]. split; [exact Hchecked|].
    destruct fuel as [|fuel]; [lia|].
    rewrite (run_blocking_first _ _ _ _ _ _ _ Hlarge Hseed), Hgen.
    unfold breed.
    destruct Hchecked as ((Hsize1 & _ & Hsel1 & _) & _).
    rewrite fill_unknown; [reflexivity| |lia|lia|].
    + cbn in Hsel1. congruence.
    + cbn in Hsize1. simpl. lia.
Qed.

(** ** The ending criteria and the end of the loop *)

(** C3 (as amended).  The ending criteria are the enumerators [MaxScore] and
    [BestScore]; there is no criterion that never stops.  The check answers
    for these two, each of which signals stop on some engine, and throws for
    any other value.  The evolution loop returns at once when the run flag is
    cleared, which is what [stop] does; otherwise it runs a generation, and
    that generation leaves the loop exactly when the check signals stop.  A
    loop that never ends without [stop] is obtained from [MaxScore] with a
    threshold above every score: the check then never signals stop, the loop
    never returns, and a blocking run of a well-configured engine is still
    evolving whatever the fuel. *)
Theorem ending_criteria limit fuel (population : list (list T)) a r :
  (forall e, lastElement a = Some e ->
     (exists over a', isEvolutionOver a = Ok over a')
     <-> _endCriterion a = MaxScore \/ _endCriterion a = BestScore)
  /\ (_endCriterion a = UnknownEndingCriterion ->
      isEvolutionOver a = Throw "Unknown ending criterion" a)
  /\ (forall c, c = MaxScore \/ c = BestScore ->
        exists a0 a1 : GeneticAlgorithm T,
          _endCriterion a0 = c /\ isEvolutionOver a0 = Ok true a1)
  /\ (exists a', stop a = Ok tt a' /\ _run a' = false)
  /\ (_run a = false -> evolve_loop limit fuel population (a, r) = Ok tt (a, r))
  /\ (_run a = true ->
      evolve_loop limit (S fuel) population (a, r)
      = match generation limit population (a, r) with
        | Ok (Some next) w' => evolve_loop limit fuel next w'
        | Ok None w' => Ok tt w'
        | Throw msg w' => Throw msg w'
        | Fault => Fault
        | OutOfFuel w' => OutOfFuel w'
        end)
  /\ (forall e w', last (score_population population) = Some e ->
        generation limit population (a, r) = Ok None w'
        <-> exists a',
              isEvolutionOver (scored population e a) = Ok true a'
              /\ w' = (matched a', r))
  /\ (_endCriterion a = MaxScore ->
      (forall c : list T, (score c < _maxEndScore a)%Q) ->
      (forall e a', last (score_population population) = Some e ->
         isEvolutionOver (scored population e a) <> Ok true a')
      /\ (_run a = true ->
          forall w', evolve_loop limit fuel population (a, r) <> Ok tt w')
      /\ (well_configured a ->
          forall enableLogging outputStream,
            exists w',
              run fuel true enableLogging outputStream (a, r) = OutOfFuel w')).
Proof.
  split.
  { intros e He. split.
    - intros (over & a' & Hover).
      destruct (_endCriterion a) eqn:Hc; [auto|auto|].
      rewrite (isEvolutionOver_unknown a Hc) in Hover. discriminate.
    - intros [Hc|Hc].
      + rewrite (isEvolutionOver_MaxScore a e Hc He). eauto.
      + rewrite (isEvolutionOver_BestScore a e Hc He). eauto. }
  split; [apply isEvolutionOver_unknown|].
  split.
  { intros c Hc.
    exists (mkGeneticAlgorithm 1 c Tournament 0%Q 0%Q 10 1 1 1
              [(0%Q, [])] (repeat 0%Q 10) true 0 false []).
    eexists. split; [reflexivity|]. destruct Hc as [-> | ->]; reflexivity. }
  split; [apply stop_clears_run|].
  split; [exact (evolve_loop_stopped limit fuel population (a, r))|].
  split; [apply evolve_loop_running|].
  split.
  { intros e w' He. rewrite (generation_unfold _ _ _ _ e He).
    destruct (isEvolutionOver (scored population e a))
      as [[|] a1|msg a1| |a1]; split;
      try discriminate;
      try (intros (a' & Hover & _); discriminate).
    - intros [= <-]. eauto.
    - intros (a' & [= <-] & ->). reflexivity.
    - intros Hbreed. destruct (breed_not_None _ _ _ _ Hbreed). }
  intros Hc Hbelow.
  assert (Hnever : forall (p : list (list T)) e,
            last (score_population p) = Some e ->
            ~ (_maxEndScore a <= e.1)%Q).
  { intros p e He Hle.
    destruct (score_population_best _ _ He) as (_ & Hscore & _).
    rewrite Hscore in Hle. exact (Qlt_not_le _ _ (Hbelow e.2) Hle). }
  split; [|split].
  - intros e a' He Hover.
    destruct (scored_frame population e a) as (Hc' & Hmax & _).
    rewrite (isEvolutionOver_MaxScore _ e) in Hover; [|congruence|].
    + injection Hover as Hreach _. rewrite Hmax in Hreach.
      apply Qle_bool_iff in Hreach. exact (Hnever _ _ He Hreach).
    + unfold scored, lastElement. destruct (_logEnable a); exact He.
  - intros Hrun w' Hloop.
    apply (evolve_loop_MaxScore limit fuel population a r w' Hc Hrun) in Hloop
      as (n & pn & an & rn & en & _ & _ & Hen & Hle & _).
    exact (Hnever _ _ Hen Hle).
  - intros Hwell enableLogging outputStream.
    pose proof (run_blocking_safe fuel enableLogging outputStream a r Hwell)
      as Hsafe.
    destruct (run fuel true enableLogging outputStream (a, r))
      as [v [a' r']|msg w'| |w'] eqn:Hrun; try contradiction; [|eauto].
    destruct (run_MaxScore_end _ _ _ _ _ _ _ _ Hc Hrun)
      as (_ & e & He & Hscore & Hle).
    rewrite Hscore in Hle. destruct (Qlt_not_le _ _ (Hbelow e.2) Hle).
Qed.

(** X7.  A tournament of size 0, which is what [setSelectionType] stores
    when the size is left to its default, passes the safety check of [run],
    yet every selection then reads [tournament[0]] of an empty vector.  A
    blocking run on a population of at least one is therefore undefined in
    its first generation whenever the first ending check says continue:
    always under [BestScore], and under [MaxScore] when the best score of the
    seeded population is below the threshold.  Otherwise nothing is selected:
    under [MaxScore] with the threshold reached the run returns at
    generation 0, and under a criterion that is none of the enumerators the
    check throws. *)
Theorem Tournament_of_size_0 a :
  tournament_too_large (setSelectionType Tournament 0 a) = false
  /\ (forall fuel r, select fuel (setSelectionType Tournament 0 a) r = Fault)
  /\ (1 <= _populationSize a ->
      _minChromosomeSize a <= _maxChromosomeSize a ->
      forall fuel enableLogging outputStream r,
        1 <= fuel ->
        exists population r1 e,
          seed (setSelectionType Tournament 0 a) (_populationSize a) [] r
          = Ok population r1
          /\ last (score_population population) = Some e
          /\ (_endCriterion a = BestScore ->
              run fuel true enableLogging outputStream
                (setSelectionType Tournament 0 a, r) = Fault)
          /\ (_endCriterion a = MaxScore -> (e.1 < _maxEndScore a)%Q ->
              run fuel true enableLogging outputStream
                (setSelectionType Tournament 0 a, r) = Fault)
          /\ (_endCriterion a = MaxScore -> (_maxEndScore a <= e.1)%Q ->
              exists w',
                run fuel true enableLogging outputStream
                  (setSelectionType Tournament 0 a, r) = Ok None w'
                /\ _generation w'.1 = 0)
          /\ (_endCriterion a = UnknownEndingCriterion ->
              exists w',
                run fuel true enableLogging outputStream
                  (setSelectionType Tournament 0 a, r)
                = Throw "Unknown ending criterion" w')).
Proof.
  split; [reflexivity|]. split; [reflexivity|].
  intros Hsize Hle fuel enableLogging outputStream r Hfuel.
  set (b := setSelectionType Tournament 0 a).
  assert (Hlarge : tournament_too_large b = false) by reflexivity.
  destruct (seed_Ok b (_populationSize a) [] r Hle)
    as (population & r1 & Hseed & Hlen).
  assert (Hne : population <> []).
  { intros ->. simpl in Hlen. lia. }
  destruct (score_population_nonempty population Hne) as [e He].
  exists population, r1, e. split; [exact Hseed|]. split; [exact He|].
  destruct fuel as [|fuel]; [lia|].
  rewrite (run_blocking_first fuel enableLogging outputStream b r population r1
             Hlarge Hseed).
  set (b0 := started enableLogging outputStream b).
  assert (Hbreed : forall a1,
            same_configuration b0 a1 -> breed (S fuel) a1 r1 = Fault).
  { intros a1 (Hsize1 & _ & Htype1 & _ & _ & _ & Htour1 & _).
    cbn in Hsize1, Htype1, Htour1.
    unfold breed. cbn [fill].
    destruct (Nat.ltb_spec (length (@nil (list T))) (_populationSize a1));
      [|simpl in *; lia].
    unfold bind at 1. cbn [gather].
    change (length (@nil (list T)) <? 2) with true. cbv iota.
    unfold bind at 1. unfold select. rewrite Htype1, Htour1. reflexivity. }
  assert (Hcontinue : forall a1,
            checked population e false b0 a1 ->
            generation (S fuel) population (b0, r1) = breed (S fuel) a1 r1 ->
            generation (S fuel) population (b0, r1) = Fault).
  { intros a1 (Hconf & _) ->. apply Hbreed, Hconf. }
  split; [|split; [|split]].
  - intros Hc.
    destruct (generation_step (S fuel) population b0 r1) as
      (e' & over & a1 & He' & Hchecked & Hgen);
      [cbn; rewrite Hc; discriminate|exact Hne|].
    rewrite He in He'. injection He' as <-.
    assert (over = false) as ->.
    { destruct Hchecked as (_ & _ & _ & _ & _ & _ & Hcheck).
      destruct Hcheck as [(Hc' & _)|(_ & _ & ->)];
        [cbn in Hc'; congruence|reflexivity]. }
    rewrite (Hcontinue a1 Hchecked Hgen). reflexivity.
  - intros Hc Hbelow.
    destruct (generation_step (S fuel) population b0 r1) as
      (e' & over & a1 & He' & Hchecked & Hgen);
      [cbn; rewrite Hc; discriminate|exact Hne|].
    rewrite He in He'. injection He' as <-.
    assert (over = false) as ->.
    { destruct Hchecked as (_ & _ & _ & _ & _ & _ & Hcheck).
      destruct Hcheck as [(_ & _ & ->)|(Hc' & _)];
        [|cbn in Hc'; congruence].
      apply Qle_bool_false. exact Hbelow. }
    rewrite (Hcontinue a1 Hchecked Hgen). reflexivity.
  - intros Hc Hreach.
    destruct (generation_step (S fuel) population b0 r1) as
      (e' & over & a1 & He' & Hchecked & Hgen);
      [cbn; rewrite Hc; discriminate|exact Hne|].
    rewrite He in He'. injection He' as <-.
    assert (over = true) as ->.
    { destruct Hchecked as (_ & _ & _ & _ & _ & _ & Hcheck).
      destruct Hcheck as [(_ & _ & ->)|(Hc' & _)];
        [|cbn in Hc'; congruence].
      apply Qle_bool_iff. exact Hreach. }
    rewrite Hgen. cbn [fst snd].
    destruct Hchecked as (_ & Hpop & _ & Hg & _).
    destruct (matched_fields a1) as (_ & Hpop' & _ & _ & Hg' & _).
    destruct (finished (matched a1)) as [a'|] eqn:Hfin.
    + exists (a', r1). split; [reflexivity|].
      destruct (finished_fields _ _ Hfin) as (_ & _ & _ & _ & Hg'' & _).
      cbn [fst]. rewrite Hg'', Hg', Hg. reflexivity.
    + unfold finished in Hfin. unfold lastElement in Hfin.
      rewrite Hpop', Hpop, He in Hfin.
      destruct (_logEnable (matched a1)); discriminate.
  - intros Hc.
    destruct (generation_unknown (S fuel) population b0 r1 Hc Hne)
      as (e' & _ & ->).
    eauto.
Qed.

End Exceptions.

(** C8 (as stated) fails twice.  A refused [run] that was asked to log
    leaves the engine with logging enabled.  And a blocking [run] under
    roulette-wheel selection, which the check of the tournament size does not
    concern, raises an error when its ending criterion is none of the
    enumerators: after the seeding, which has consumed random draws. *)
Lemma run_errors_not_as_stated :
  (exists msg w',
     run 0 true true []
       (Digits.engine 2 BestScore 0%Q Tournament 3 0%Q,
        mkRandom (Digits.stream [] 0%Q) 0) = Throw msg w'
     /\ _logEnable (Digits.engine 2 BestScore 0%Q Tournament 3 0%Q) = false
     /\ _logEnable w'.1 = true
     /\ w'.1 <> Digits.engine 2 BestScore 0%Q Tournament 3 0%Q)
  /\ (exists w',
        run 1 true false []
          (Digits.engine 2 UnknownEndingCriterion 0%Q RouletteWheel 1 0%Q,
           Digits.ones) = Throw "Unknown ending criterion" w'
        /\ _selectionType
             (Digits.engine 2 UnknownEndingCriterion 0%Q RouletteWheel 1 0%Q)
           <> Tournament
        /\ _cursor Digits.ones = 0 /\ _cursor w'.2 = 4
        /\ _run w'.1 = true).
Proof.
  split.
  - eexists. eexists. split; [reflexivity|]. simpl.
    split; [reflexivity|]. split; [reflexivity|]. discriminate.
  - eexists. split; [vm_compute; reflexivity|].
    split; [discriminate|]. split; [reflexivity|]. split; reflexivity.
Qed.

(** C3 (as stated) fails: no value of the ending criterion makes the check
    answer "continue" on every engine.  [MaxScore] and [BestScore] each
    signal stop on some engine, and any other value makes the check throw. *)
Lemma NeverStop_not_offered :
  ~ (exists c : EndingCriterion,
       forall (a : GeneticAlgorithm Z) e,
         _endCriterion a = c -> lastElement a = Some e ->
         exists a', isEvolutionOver a = Ok false a').
Proof.
  intros [c Hnever].
  pose (a := set_lastScores (repeat 0%Q 10)
               (set_population [(0%Q, [])]
                  (Digits.engine 2 c 0%Q Tournament 1 0%Q))).
  destruct (Hnever a (0%Q, []) eq_refl eq_refl) as [a' Hover].
  destruct c; discriminate.
Qed.

(** ** What a run keeps of the runs before it *)
Section Reruns.
Context {T : Type} `{UserFunctions T}.
Implicit Type a : GeneticAlgorithm T.

(** The first statement of a generation overwrites the store. *)
Lemma generation_overwrites limit (population : list (list T)) store a r :
  generation limit population (set_population store a, r)
  = generation limit population (a, r).
Proof.
  unfold generation.
  rewrite (bind_Ok _ _ (set_population store a, r) tt
             (set_population (score_population population) a, r))
    by reflexivity.
  rewrite (bind_Ok _ _ (a, r) tt
             (set_population (score_population population) a, r))
    by reflexivity.
  reflexivity.
Qed.

Lemma evolve_loop_overwrites limit fuel (population : list (list T)) store a r :
  _run a = true ->
  evolve_loop limit (S fuel) population (set_population store a, r)
  = evolve_loop limit (S fuel) population (a, r).
Proof.
  intros Hrun. cbn [evolve_loop].
  unfold bind at 1 3. unfold get at 1 2. cbn [fst].
  change (_run (set_population store a)) with (_run a). rewrite Hrun.
  unfold bind. rewrite generation_overwrites. reflexivity.
Qed.

Lemma started_same_configuration enableLogging outputStream a b :
  same_configuration a b ->
  started enableLogging outputStream b
  = set_population (_population b) (started enableLogging outputStream a).
Proof.
  destruct a, b. unfold same_configuration. cbn.
  intros (-> & -> & -> & -> & -> & -> & -> & -> & ->). reflexivity.
Qed.

Lemma seed_has_fuel a n : forall (population : list (list T)) r r',
  seed a n population r <> OutOfFuel r'.
Proof.
  induction n as [|n IH]; intros population r r'; simpl; [discriminate|].
  unfold bind at 1.
  destruct (randomChromosome a r) as [c r1|msg r1| |r1] eqn:Hc;
    try discriminate; [apply IH|].
  exfalso. unfold randomChromosome, bind, Random.get_unsigned in Hc.
  destruct (_minChromosomeSize a <=? _maxChromosomeSize a); [|discriminate].
  unfold bind in Hc. cbn [Random.next ret] in Hc.
  match type of Hc with
  | context [generate ?k ?r2] =>
      destruct (generate_Ok k r2) as (c & r3 & Hgen & _);
      rewrite Hgen in Hc
  end.
  discriminate.
Qed.

(** X26.  A blocking [run] resets whatever earlier runs left in the engine.
    Two engines with the same configuration, whatever their stores, score
    histories, generation counters, run flags and logging states, run alike
    on the same draws: the same return with the same final engine, the same
    state in which the fuel is spent, the same undefined behaviour, the same
    exception. *)
Theorem run_resets_the_engine fuel enableLogging outputStream a b r :
  same_configuration a b ->
  match run (S fuel) true enableLogging outputStream (a, r) with
  | Ok v w' =>
      run (S fuel) true enableLogging outputStream (b, r) = Ok v w'
  | OutOfFuel w' =>
      run (S fuel) true enableLogging outputStream (b, r) = OutOfFuel w'
  | Fault => run (S fuel) true enableLogging outputStream (b, r) = Fault
  | Throw msg _ =>
      exists w', run (S fuel) true enableLogging outputStream (b, r)
                 = Throw msg w'
  end.
Proof.
  intros Hconf.
  assert (Hlarge : tournament_too_large b = tournament_too_large a).
  { destruct Hconf as (Hsize & _ & Htype & _ & _ & _ & Htour & _).
    unfold tournament_too_large. rewrite Htype, Hsize, Htour. reflexivity. }
  destruct (tournament_too_large a) eqn:Hsafe.
  - rewrite !run_unfold, Hlarge, Hsafe. eauto.
  - rewrite (run_blocking_unfold _ _ _ _ _ Hsafe).
    rewrite (run_blocking_unfold _ _ _ b _ Hlarge).
    assert (Hseed : seed b (_populationSize b) [] r
                    = seed a (_populationSize a) [] r).
    { destruct Hconf as (-> & _ & _ & _ & _ & _ & _ & Hmin & Hmax).
      apply seed_ext; assumption. }
    rewrite Hseed.
    destruct (seed a (_populationSize a) [] r) as [population r0|msg r0| |r0]
      eqn:Hs; [|eauto|reflexivity|].
    + rewrite (started_same_configuration _ _ a b Hconf).
      rewrite !evolve_unfold, evolve_loop_overwrites by reflexivity.
      destruct (evolve_loop (S fuel) (S fuel) population _)
        as [[] w'|msg w'| |w']; eauto.
      destruct (finished w'.1); reflexivity.
    + destruct (seed_has_fuel _ _ _ _ _ Hs).
Qed.

End Reruns.

(** ** The threshold under the [BestScore] criterion *)
Section MaxEndScore.
Context {T : Type} `{UserFunctions T}.
Implicit Type a : GeneticAlgorithm T.
Variable m : Score.

Local Abbreviation wm := (with_maxEndScore m).

Lemma sus_loop_threshold a d fuel : forall s selected r,
  sus_loop fuel (wm a) s d selected r = sus_loop fuel a s d selected r.
Proof.
  induction fuel as [|fuel IH]; intros s selected r; [reflexivity|].
  cbn [sus_loop]. change (totalScore (wm a)) with (totalScore a).
  destruct (Qle_bool s (totalScore a)); [|reflexivity].
  unfold bind. change (chromosome_fitness (wm a) s) with (chromosome_fitness a s).
  destruct (defined (chromosome_fitness a s) r); try reflexivity. apply IH.
Qed.

Lemma tournament_draw_threshold a k : forall tournament r,
  tournament_draw (wm a) k tournament r = tournament_draw a k tournament r.
Proof.
  induction k as [|k IH]; intros tournament r; [reflexivity|].
  cbn [tournament_draw]. unfold bind.
  change (_population (wm a)) with (_population a).
  destruct (Random.get_int _ _ r); try reflexivity. apply IH.
Qed.

Lemma select_threshold limit a r : select limit (wm a) r = select limit a r.
Proof.
  unfold select. change (_selectionType (wm a)) with (_selectionType a).
  destruct (_selectionType a); [reflexivity| | |reflexivity].
  - unfold bind. change (_population (wm a)) with (_population a).
    destruct (Random.get_int _ _ r) as [k r1| | |]; try reflexivity.
    change (totalScore (wm a)) with (totalScore a).
    destruct (Random.get_double _ _ r1); try reflexivity.
    apply sus_loop_threshold.
  - unfold bind. rewrite tournament_draw_threshold. reflexivity.
Qed.

Lemma gather_threshold limit a fuel : forall selection r,
  gather limit fuel (wm a) selection r = gather limit fuel a selection r.
Proof.
  induction fuel as [|fuel IH]; intros selection r; [reflexivity|].
  cbn [gather]. destruct (length selection <? 2); [|reflexivity].
  unfold bind. rewrite select_threshold.
  destruct (select limit a r); try reflexivity. apply IH.
Qed.

Lemma fill_threshold limit a fuel : forall population r,
  fill limit fuel (wm a) population r = fill limit fuel a population r.
Proof.
  induction fuel as [|fuel IH]; intros population r; [reflexivity|].
  cbn [fill]. change (_populationSize (wm a)) with (_populationSize a).
  destruct (length population <? _populationSize a); [|reflexivity].
  unfold bind at 1 3. rewrite gather_threshold.
  destruct (gather limit limit a [] r) as [selection r1| | |]; try reflexivity.
  unfold bind. destruct (recombine _ _ _ _ _ r1); try reflexivity. apply IH.
Qed.

Lemma mutate_all_threshold a (population : list (list T)) : forall r,
  mutate_all (wm a) population r = mutate_all a population r.
Proof.
  induction population as [|c population IH]; intros r; [reflexivity|].
  cbn [mutate_all]. unfold bind at 1 3.
  change (mutate (wm a) c r) with (mutate a c r).
  destruct (mutate a c r) as [c' r1| | |]; try reflexivity.
  unfold bind. rewrite IH. reflexivity.
Qed.

Lemma isEvolutionOver_threshold a :
  _endCriterion a = BestScore ->
  isEvolutionOver (wm a)
  = match isEvolutionOver a with
    | Ok over a' => Ok over (wm a')
    | Throw msg a' => Throw msg (wm a')
    | Fault => Fault
    | OutOfFuel a' => OutOfFuel (wm a')
    end.
Proof.
  intros Hc. destruct (lastElement a) as [e|] eqn:He.
  - rewrite (isEvolutionOver_BestScore a e Hc He).
    rewrite (isEvolutionOver_BestScore (wm a) e Hc He). reflexivity.
  - apply lastElement_None in He.
    assert (Hdeclared : _endCriterion a <> UnknownEndingCriterion)
      by (rewrite Hc; discriminate).
    rewrite (isEvolutionOver_empty a Hdeclared He).
    rewrite (isEvolutionOver_empty (wm a) Hdeclared He). reflexivity.
Qed.

Lemma generation_threshold limit (population : list (list T)) a r :
  _endCriterion a = BestScore ->
  generation limit population (wm a, r)
  = on_engine wm (generation limit population (a, r))
  /\ match generation limit population (a, r) with
     | Ok _ w' => _endCriterion w'.1 = BestScore /\ _run w'.1 = _run a
     | _ => True
     end.
Proof.
  intros Hc.
  destruct population as [|c population].
  { rewrite !generation_empty.
    change (_logEnable (wm a)) with (_logEnable a).
    change (_endCriterion (wm a)) with (_endCriterion a).
    rewrite Hc. destruct (_logEnable a); split; try reflexivity; exact I. }
  destruct (score_population_nonempty (c :: population)) as [e He];
    [discriminate|].
  rewrite !(generation_unfold _ _ _ _ e He).
  replace (scored (c :: population) e (wm a))
    with (wm (scored (c :: population) e a))
    by (unfold scored; change (_logEnable (wm a)) with (_logEnable a);
        destruct (_logEnable a); reflexivity).
  assert (Hc' : _endCriterion (scored (c :: population) e a) = BestScore)
    by (unfold scored; destruct (_logEnable a); exact Hc).
  assert (Hr' : _run (scored (c :: population) e a) = _run a)
    by (unfold scored; destruct (_logEnable a); reflexivity).
  rewrite (isEvolutionOver_threshold _ Hc').
  assert (He' : lastElement (scored (c :: population) e a) = Some e)
    by (unfold scored, lastElement; destruct (_logEnable a); exact He).
  rewrite (isEvolutionOver_BestScore _ e Hc' He').
  destruct (check_step _ e.1).
  - split.
    + unfold on_engine, matched. cbn [fst snd].
      match goal with
      | |- context [_logEnable (wm ?x)] =>
          change (_logEnable (wm x)) with (_logEnable x);
          destruct (_logEnable x); reflexivity
      end.
    + cbn [fst]. unfold matched. cbn [_logEnable set_lastScores].
      destruct (_logEnable (scored (c :: population) e a));
        cbn; rewrite Hc', Hr'; auto.
  - unfold breed. rewrite fill_threshold.
    destruct (fill limit limit _ [] r) as [p r1| | |];
      try (split; [reflexivity|exact I]).
    rewrite mutate_all_threshold.
    destruct (mutate_all _ p r1);
      try (split; [reflexivity|exact I]).
    split; [reflexivity|]. cbn. rewrite Hc', Hr'. auto.
Qed.

Lemma evolve_loop_threshold limit fuel : forall (population : list (list T)) a r,
  _endCriterion a = BestScore ->
  evolve_loop limit fuel population (wm a, r)
  = on_engine wm (evolve_loop limit fuel population (a, r)).
Proof.
  induction fuel as [|fuel IH]; intros population a r Hc; cbn [evolve_loop].
  - unfold bind, get. cbn [fst].
    change (_run (wm a)) with (_run a). destruct (_run a); reflexivity.
  - unfold bind at 1 3. unfold get at 1 2. cbn [fst].
    change (_run (wm a)) with (_run a). destruct (_run a); [|reflexivity].
    destruct (generation_threshold limit population a r Hc) as [Hgen Hnext].
    unfold bind. rewrite Hgen.
    destruct (generation limit population (a, r)) as [[next|] [a' r']| | |];
      try reflexivity.
    apply IH. apply Hnext.
Qed.

Lemma evolve_threshold fuel (population : list (list T)) a r :
  _endCriterion a = BestScore ->
  evolve fuel population (wm a, r)
  = on_engine wm (evolve fuel population (a, r)).
Proof.
  intros Hc. rewrite !evolve_unfold, evolve_loop_threshold by exact Hc.
  destruct (evolve_loop fuel fuel population (a, r)) as [[] [a' r']| | |];
    try reflexivity.
  unfold on_engine. cbn [fst snd]. unfold finished.
  change (_logEnable (wm a')) with (_logEnable a').
  change (lastElement (wm a')) with (lastElement a').
  destruct (_logEnable a'); [|reflexivity].
  destruct (lastElement a'); reflexivity.
Qed.

Lemma run_threshold fuel blocking enableLogging outputStream a r :
  _endCriterion a = BestScore ->
  run fuel blocking enableLogging outputStream (wm a, r)
  = on_engine wm (run fuel blocking enableLogging outputStream (a, r)).
Proof.
  intros Hc. destruct (tournament_too_large a) eqn:Hsafe.
  - rewrite !run_unfold.
    change (tournament_too_large (wm a)) with (tournament_too_large a).
    rewrite Hsafe. reflexivity.
  - assert (Hsafe' : tournament_too_large (wm a) = false) by exact Hsafe.
    destruct blocking.
    + rewrite (run_blocking_unfold _ _ _ _ _ Hsafe).
      rewrite (run_blocking_unfold _ _ _ _ _ Hsafe').
      rewrite (seed_ext (wm a) a) by reflexivity.
      change (_populationSize (wm a)) with (_populationSize a).
      destruct (seed a (_populationSize a) [] r) as [population r'| | |];
        try reflexivity.
      change (started enableLogging outputStream (wm a))
        with (wm (started enableLogging outputStream a)).
      rewrite evolve_threshold by exact Hc.
      destruct (evolve fuel population _); reflexivity.
    + rewrite (run_nonblocking_unfold _ _ _ _ _ Hsafe).
      rewrite (run_nonblocking_unfold _ _ _ _ _ Hsafe').
      rewrite (seed_ext (wm a) a) by reflexivity.
      change (_populationSize (wm a)) with (_populationSize a).
      destruct (seed a (_populationSize a) [] r); reflexivity.
Qed.

End MaxEndScore.

Section UninitialisedFields.
Context {T : Type} `{UserFunctions T}.
Implicit Type a : GeneticAlgorithm T.

Lemma run_generation_reset fuel blocking enableLogging outputStream g a r :
  tournament_too_large a = false ->
  run fuel blocking enableLogging outputStream (set_generation g a, r)
  = run fuel blocking enableLogging outputStream (a, r).
Proof.
  intros Hsafe.
  assert (Hsafe' : tournament_too_large (set_generation g a) = false)
    by exact Hsafe.
  destruct blocking.
  - rewrite (run_blocking_unfold _ _ _ _ _ Hsafe).
    rewrite (run_blocking_unfold _ _ _ _ _ Hsafe').
    rewrite (seed_ext (set_generation g a) a) by reflexivity.
    reflexivity.
  - rewrite (run_nonblocking_unfold _ _ _ _ _ Hsafe).
    rewrite (run_nonblocking_unfold _ _ _ _ _ Hsafe').
    rewrite (seed_ext (set_generation g a) a) by reflexivity.
    reflexivity.
Qed.

(** X27.  The three fields that the constructor leaves uninitialised are
    not read by a [run] under the [BestScore] criterion, the default one,
    when the safety check passes: whatever [_maxEndScore],
    [_steadyGenerations] and [_generation] hold at the call, the outcome, the
    result, the state of the generator and the engine are the same, but for
    the first two fields, which keep their values; the generation counter is
    reset. *)
Theorem uninitialised_fields_are_not_read
    fuel blocking enableLogging outputStream m s g a r :
  _endCriterion a = BestScore ->
  tournament_too_large a = false ->
  run fuel blocking enableLogging outputStream
    (with_maxEndScore m (with_steadyGenerations s (set_generation g a)), r)
  = on_engine (fun a' => with_maxEndScore m (with_steadyGenerations s a'))
      (run fuel blocking enableLogging outputStream (a, r)).
Proof.
  intros Hc Hsafe.
  rewrite run_threshold by exact Hc.
  rewrite run_steady.
  rewrite run_generation_reset by exact Hsafe.
  destruct (run fuel blocking enableLogging outputStream (a, r)); reflexivity.
Qed.

End UninitialisedFields.

(** * The example [01-FindNumber] *)
Module FindNumberProperties.
Import FindNumber.

Lemma written_snoc (digits : list nat) d :
  written (digits ++ [d]) = (10 * written digits + Z.of_nat d)%Z.
Proof. unfold written. rewrite fold_left_app. reflexivity. Qed.

Lemma char_to_gene_digit d :
  (0 <= d < 10)%Z -> char_to_gene (digit d) = Z.to_nat d.
Proof.
  intros Hd. unfold char_to_gene, digit.
  rewrite Ascii.nat_ascii_embedding by lia.
  rewrite Nat2Z.inj_add, Z2Nat.id by lia.
  replace (Z.of_nat 48 + d - 48)%Z with d by lia.
  rewrite Z.mod_small by lia. reflexivity.
Qed.

Lemma decimal_unfold fuel number acc :
  decimal (S fuel) number acc
  = if (number <? 10)%Z then String (digit (number mod 10)) acc
    else decimal fuel (number / 10) (String (digit (number mod 10)) acc).
Proof. reflexivity. Qed.

(** The decimal writing of a number of at most [S fuel] digits. *)
Lemma decimal_spec fuel : forall number acc,
  (0 <= number < 10 ^ Z.of_nat (S fuel))%Z ->
  exists digits,
    map char_to_gene (list_ascii_of_string (decimal (S fuel) number acc))
    = digits ++ map char_to_gene (list_ascii_of_string acc)
    /\ 1 <= length digits <= S fuel
    /\ written digits = number
    /\ Forall (fun d => d < 10) digits.
Proof.
  induction fuel as [|fuel IH]; intros number acc Hrange.
  - change (10 ^ Z.of_nat 1)%Z with 10%Z in Hrange.
    exists [Z.to_nat number]. rewrite decimal_unfold.
    assert (Hlt : (number <? 10)%Z = true) by (apply Z.ltb_lt; lia).
    rewrite Hlt, Z.mod_small by lia.
    cbn [list_ascii_of_string map app]. rewrite char_to_gene_digit by lia.
    split; [reflexivity|]. split; [simpl; lia|].
    split; [unfold written; simpl; lia|].
    constructor; [lia|constructor].
  - rewrite decimal_unfold. destruct (Z.ltb_spec number 10) as [Hlt|Hge].
    + exists [Z.to_nat number]. rewrite Z.mod_small by lia.
      cbn [list_ascii_of_string map app]. rewrite char_to_gene_digit by lia.
      split; [reflexivity|]. split; [simpl; lia|].
      split; [unfold written; simpl; lia|].
      constructor; [lia|constructor].
    + destruct (IH (number / 10)%Z (String (digit (number mod 10)) acc))
        as (digits & Hdigits & Hlen & Hwritten & Hall).
      { split; [apply Z.div_pos; lia|].
        apply Z.div_lt_upper_bound; [lia|].
        rewrite <- Z.pow_succ_r by lia. rewrite <- Nat2Z.inj_succ. lia. }
      pose proof (Z.mod_pos_bound number 10 ltac:(lia)) as Hmod.
      exists (digits ++ [Z.to_nat (number mod 10)]).
      rewrite Hdigits. cbn [list_ascii_of_string map].
      rewrite char_to_gene_digit by lia. rewrite <- app_assoc.
      split; [reflexivity|]. split; [rewrite length_app; simpl; lia|].
      split.
      * rewrite written_snoc, Hwritten, Z2Nat.id by lia.
        symmetry. apply Z.div_mod. lia.
      * apply Forall_app. split; [exact Hall|].
        constructor; [lia|constructor].
Qed.

Lemma numberToChromosome_spec number :
  (0 <= number < 2 ^ 64)%Z ->
  1 <= length (numberToChromosome number) <= 20
  /\ written (numberToChromosome number) = number
  /\ Forall (fun d => d < 10) (numberToChromosome number).
Proof.
  intros Hrange. unfold numberToChromosome, to_string.
  destruct (decimal_spec 19 number EmptyString) as (digits & -> & Hrest).
  { split; [lia|]. change (10 ^ Z.of_nat 20)%Z with (10 ^ 20)%Z. lia. }
  cbn [list_ascii_of_string map]. rewrite app_nil_r. exact Hrest.
Qed.

(** The loop of [chromosomeToNumber] after [i] iterations. *)
Lemma chromosomeToNumber_loop_spec (chromosome : list nat) n : forall i res,
  i + n = length chromosome -> length chromosome <= 20 ->
  (0 <= res < 2 ^ 64)%Z ->
  chromosomeToNumber_loop chromosome (length chromosome - 1) i n res
  = Some ((res + 10 ^ Z.of_nat i * written (take n chromosome)) mod 2 ^ 64)%Z.
Proof.
  induction n as [|n IH]; intros i res Hlen Hmax Hres; cbn [chromosomeToNumber_loop].
  - rewrite take_0. unfold written. simpl fold_left.
    rewrite Z.mul_0_r, Z.add_0_r, Z.mod_small by lia. reflexivity.
  - replace (length chromosome - 1 - i) with n by lia.
    destruct (lookup_lt_is_Some_2 chromosome n) as [g Hg]; [lia|].
    rewrite Hg. unfold pow10.
    destruct (Nat.leb_spec i 19) as [_|Hgt]; [|lia].
    rewrite IH; [|lia|lia|apply Z.mod_pos_bound; lia].
    rewrite (take_S_r _ _ _ Hg), written_snoc.
    f_equal. unfold ull.
    rewrite Zplus_mod_idemp_r, Zplus_mod_idemp_l.
    f_equal. rewrite Nat2Z.inj_succ, Z.pow_succ_r by lia. ring.
Qed.

Lemma chromosomeToNumber_written (chromosome : list nat) :
  length chromosome <= 20 ->
  chromosomeToNumber chromosome = Some (written chromosome mod 2 ^ 64)%Z.
Proof.
  intros Hlen. unfold chromosomeToNumber.
  rewrite chromosomeToNumber_loop_spec by (simpl; lia).
  rewrite firstn_all.
  f_equal. f_equal. simpl. lia.
Qed.

Lemma chromosomeToNumber_numberToChromosome number :
  (0 <= number < 2 ^ 64)%Z ->
  chromosomeToNumber (numberToChromosome number) = Some number.
Proof.
  intros Hrange.
  destruct (numberToChromosome_spec number Hrange) as (Hlen & Hwritten & _).
  rewrite chromosomeToNumber_written by lia.
  rewrite Hwritten, Z.mod_small by lia. reflexivity.
Qed.

(** X23.  A number of the range of [unsigned long long] and its chromosome:
    [numberToChromosome] gives between 1 and 20 decimal digits, and
    [chromosomeToNumber] reads the number back; on every chromosome of at
    most 20 genes [chromosomeToNumber] is the number that the genes write in
    base 10, modulo [2^64], and on a longer one it is undefined. *)
Theorem chromosome_of_number number :
  (0 <= number < 2 ^ 64)%Z ->
  1 <= length (numberToChromosome number) <= 20
  /\ Forall (fun d => d < 10) (numberToChromosome number)
  /\ chromosomeToNumber (numberToChromosome number) = Some number
  /\ (forall chromosome,
        length chromosome <= 20 ->
        chromosomeToNumber chromosome
        = Some (written chromosome mod 2 ^ 64)%Z)
  /\ (forall chromosome,
        20 < length chromosome -> chromosomeToNumber chromosome = None).
Proof.
  intros Hrange.
  destruct (numberToChromosome_spec number Hrange) as (Hlen & _ & Hall).
  split; [exact Hlen|]. split; [exact Hall|].
  split; [exact (chromosomeToNumber_numberToChromosome number Hrange)|].
  split; [exact chromosomeToNumber_written|].
  intros chromosome Hlong. unfold chromosomeToNumber.
  assert (Hloop : forall n i res,
            i + n = length chromosome -> i <= 20 ->
            chromosomeToNumber_loop chromosome (length chromosome - 1) i n res
            = None).
  { induction n as [|n IH]; intros i res Hsum Hi; [lia|].
    cbn [chromosomeToNumber_loop].
    destruct (lookup_lt_is_Some_2 chromosome (length chromosome - 1 - i))
      as [g ->]; [lia|].
    unfold pow10. destruct (Nat.leb_spec i 19) as [Hle|Hgt]; [|reflexivity].
    apply IH; lia. }
  apply Hloop; lia.
Qed.

Section Scores.
Variable objectiveChromosome : list nat.

Local Abbreviation size := (length objectiveChromosome).

Lemma inject_S n :
  (inject_Z (Z.of_nat (S n)) == inject_Z (Z.of_nat n) + 1)%Q.
Proof.
  rewrite Nat2Z.inj_succ, <- Z.add_1_r, inject_Z_plus. reflexivity.
Qed.

Lemma inject_nonneg n : (0 <= inject_Z (Z.of_nat n))%Q.
Proof. change 0%Q with (inject_Z 0). rewrite <- Zle_Qle. lia. Qed.

(** The loop of [GA::score] past the end of the objective. *)
Lemma GA_score_loop_past genes : forall i s,
  size <= i ->
  (GA_score_loop objectiveChromosome i genes s
   == s - inject_Z (Z.of_nat (length genes)))%Q.
Proof.
  induction genes as [|g genes IH]; intros i s Hi; cbn [GA_score_loop length].
  - change (inject_Z (Z.of_nat 0)) with 0%Q. ring.
  - apply Nat.leb_le in Hi as Hb. rewrite Hb.
    rewrite IH by lia. rewrite inject_S. ring.
Qed.

(** The loop of [GA::score] on the objective itself. *)
Lemma GA_score_loop_exact k : forall i s,
  i + k = size ->
  (GA_score_loop objectiveChromosome i (drop i objectiveChromosome) s
   == s + inject_Z (Z.of_nat k))%Q.
Proof.
  induction k as [|k IH]; intros i s Hi.
  - rewrite drop_ge by lia. cbn [GA_score_loop].
    change (inject_Z (Z.of_nat 0)) with 0%Q. ring.
  - destruct (lookup_lt_is_Some_2 objectiveChromosome i) as [o Ho]; [lia|].
    rewrite (drop_S _ _ _ Ho). cbn [GA_score_loop].
    destruct (Nat.leb_spec size i) as [Hle|_]; [lia|].
    rewrite Ho, Nat.eqb_refl, IH by lia. rewrite inject_S. ring.
Qed.

(** The loop of [GA::score] and the final penalty, from the index [i] on:
    the best that the genes left can do is one point for each gene of the
    objective left, and only the genes of the objective do it. *)
Lemma GA_score_loop_bound genes : forall i s,
  i <= size ->
  (GA_score_loop objectiveChromosome i genes s
   - inject_Z (Z.of_nat (size - i - length genes))
   <= s + inject_Z (Z.of_nat (size - i)))%Q
  /\ ((s + inject_Z (Z.of_nat (size - i))
       <= GA_score_loop objectiveChromosome i genes s
          - inject_Z (Z.of_nat (size - i - length genes)))%Q ->
      genes = drop i objectiveChromosome).
Proof.
  induction genes as [|g genes IH]; intros i s Hi; cbn [GA_score_loop length].
  - rewrite Nat.sub_0_r.
    pose proof (inject_nonneg (size - i)) as Hpos.
    split; [lra|]. intros Hle.
    assert (Hzero : (inject_Z (Z.of_nat (size - i)) <= inject_Z 0)%Q)
      by (change (inject_Z 0) with 0%Q; lra).
    rewrite <- Zle_Qle in Hzero.
    rewrite drop_ge by lia. reflexivity.
  - destruct (Nat.leb_spec size i) as [Hle|Hlt].
    + rewrite GA_score_loop_past by lia.
      replace (size - i) with 0 by lia. cbn [Nat.sub].
      change (inject_Z (Z.of_nat 0)) with 0%Q.
      pose proof (inject_nonneg (length genes)) as Hpos.
      split; [lra|]. intros Hcontra. lra.
    + destruct (lookup_lt_is_Some_2 objectiveChromosome i) as [o Ho]; [lia|].
      rewrite Ho.
      destruct (IH (S i) (s + (if g =? o then 1 else 0))%Q ltac:(lia))
        as [Hbound Hexact].
      replace (size - i - S (length genes))
        with (size - S i - length genes) by lia.
      replace (size - i) with (S (size - S i)) by lia.
      rewrite inject_S.
      destruct (g =? o) eqn:Hgo.
      * split; [lra|]. intros Hle.
        apply Nat.eqb_eq in Hgo as ->.
        rewrite (drop_S _ _ _ Ho). f_equal. apply Hexact. lra.
      * split; [lra|]. intros Hle. lra.
Qed.

Lemma GA_score_penalty (chromosome : list nat) :
  (GA_score objectiveChromosome chromosome
   == GA_score_loop objectiveChromosome 0 chromosome 0
      - inject_Z (Z.of_nat (size - length chromosome)))%Q.
Proof.
  unfold GA_score.
  destruct (Nat.ltb_spec (length chromosome) size) as [Hlt|Hge]; [ring|].
  replace (size - length chromosome) with 0 by lia.
  change (inject_Z (Z.of_nat 0)) with 0%Q. ring.
Qed.

(** X24.  The score of [01-FindNumber] never exceeds the number of digits
    of the objective, and the objective is the only chromosome that reaches
    it: the threshold that [main] gives to the [MaxScore] criterion is met
    by the objective and by nothing else. *)
Theorem GA_score_maximum (chromosome : list nat) :
  (GA_score objectiveChromosome chromosome <= inject_Z (Z.of_nat size))%Q
  /\ ((inject_Z (Z.of_nat size) <= GA_score objectiveChromosome chromosome)%Q
      <-> chromosome = objectiveChromosome).
Proof.
  rewrite GA_score_penalty.
  destruct (GA_score_loop_bound chromosome 0 0%Q ltac:(lia))
    as [Hbound Hexact].
  rewrite Nat.sub_0_r in *.
  split; [lra|]. split.
  - intros Hle. rewrite (Hexact ltac:(lra)). apply drop_0.
  - intros ->. rewrite Nat.sub_diag.
    pose proof (GA_score_loop_exact size 0 0%Q eq_refl) as Hloop.
    rewrite drop_0 in Hloop. rewrite Hloop.
    change (inject_Z (Z.of_nat 0)) with 0%Q. lra.
Qed.

Lemma GA_score_reaches (chromosome : list nat) :
  (inject_Z (Z.of_nat size) <= GA_score objectiveChromosome chromosome)%Q ->
  chromosome = objectiveChromosome.
Proof.
  rewrite GA_score_penalty.
  destruct (GA_score_loop_bound chromosome 0 0%Q ltac:(lia))
    as [Hbound Hexact].
  rewrite Nat.sub_0_r in *.
  intros Hle. rewrite (Hexact ltac:(lra)). apply drop_0.
Qed.

End Scores.

Lemma algorithm_well_configured objectiveChromosome maxEndScore0
    steadyGenerations0 generation0 :
  @well_configured nat (GA objectiveChromosome)
    (algorithm objectiveChromosome maxEndScore0 steadyGenerations0
       generation0).
Proof.
  split; [simpl; lia|]. split; [vm_compute; lia|].
  split; [left; split; [reflexivity|simpl; lia]|].
  left. reflexivity.
Qed.

(** X25.  [main] of [01-FindNumber] never reports a wrong number.  Whatever
    the number typed, the draws of the generator and the values of the
    fields that the constructor leaves uninitialised, the program has no
    undefined behaviour and raises no exception, and when the run returns,
    [best] is the chromosome of the objective and the final test
    [result == objective] succeeds. *)
Theorem main_finds_objective fuel objective maxEndScore0 steadyGenerations0
    generation0 r :
  (0 <= objective < 2 ^ 64)%Z ->
  match main fuel objective maxEndScore0 steadyGenerations0 generation0 r with
  | Ok found w' =>
      found = true
      /\ @best nat w'.1 = Some (numberToChromosome objective)
  | OutOfFuel _ => True
  | Throw _ _ | Fault => False
  end.
Proof.
  intros Hrange. unfold main.
  set (objectiveChromosome := numberToChromosome objective).
  set (a := algorithm objectiveChromosome maxEndScore0 steadyGenerations0
              generation0).
  pose proof (@run_blocking_safe nat (GA objectiveChromosome) fuel true [] a r
                (algorithm_well_configured _ _ _ _)) as Hsafe.
  unfold bind at 1.
  destruct (@run nat (GA objectiveChromosome) fuel true true [] (a, r))
    as [v [a' r']|msg w'| |w'] eqn:Hrun; try exact Hsafe; try exact I.
  destruct (@run_MaxScore_end nat (GA objectiveChromosome)
              fuel true [] a r v a' r' eq_refl Hrun)
    as (_ & e & He & Hscore & Hle).
  rewrite Hscore in Hle.
  apply (GA_score_reaches objectiveChromosome) in Hle.
  unfold bind at 1. unfold get at 1. cbn [fst].
  unfold bind at 1. unfold best. rewrite He. cbn [fmap option_fmap option_map defined ret].
  rewrite Hle. unfold bind, objectiveChromosome.
  rewrite (chromosomeToNumber_numberToChromosome objective Hrange).
  cbn [defined ret fst]. rewrite Z.eqb_refl.
  split; [reflexivity|]. unfold best. rewrite He. cbn. rewrite Hle. reflexivity.
Qed.

End FindNumberProperties.

(** * The example [03-2DPacking] *)
Module PackingProperties.
Import Packing.

Lemma int_add_Some a b s : int_add a b = Some s -> s = (a + b)%Z.
Proof.
  unfold int_add. destruct (_ && _)%bool; [|discriminate].
  intros [= <-]. reflexivity.
Qed.

(** The loop of [boundingBox] only widens the box, and the box it returns
    holds every rectangle from the index [i] on. *)
Lemma boundingBox_loop_spec (rectangles : list (Z * Z)) genes :
  forall i xmin xmax ymin ymax xmin' xmax' ymin' ymax',
    boundingBox_loop rectangles i genes (xmin, xmax, ymin, ymax)
    = Some (xmin', xmax', ymin', ymax') ->
    (xmin' <= xmin /\ xmax <= xmax' /\ ymin' <= ymin /\ ymax <= ymax')%Z
    /\ forall k g,
         genes !! k = Some g ->
         exists rect,
           rectangles !! (i + k) = Some rect
           /\ (xmin' <= x g /\ x g + rect.1 <= xmax'
               /\ ymin' <= y g /\ y g + rect.2 <= ymax')%Z.
Proof.
  induction genes as [|g genes IH];
    intros i xmin xmax ymin ymax xmin' xmax' ymin' ymax'; simpl.
  - intros [= <- <- <- <-]. split; [lia|]. intros k g Hk. discriminate.
  - destruct (rectangles !! i) as [rect|] eqn:Hrect; [|discriminate].
    destruct (int_add (x g) rect.1) as [xright|] eqn:Hright; [|discriminate].
    destruct (int_add (y g) rect.2) as [ybottom|] eqn:Hbottom; [|discriminate].
    apply int_add_Some in Hright, Hbottom. subst xright ybottom.
    intros Hloop. apply IH in Hloop as [Hwide Hrest].
    destruct (Z.ltb_spec (x g) xmin), (Z.ltb_spec (y g) ymin),
      (Z.ltb_spec xmax (x g + rect.1)), (Z.ltb_spec ymax (y g + rect.2));
      (split; [lia|]);
      (intros [|k] g' Hk;
       [injection Hk as <-; exists rect; rewrite Nat.add_0_r;
        split; [exact Hrect|lia]
       |replace (i + S k) with (S i + k) by lia; exact (Hrest k g' Hk)]).
Qed.

(** X28.  [boundingBox] of [03-2DPacking].  When it is defined, the box it
    returns holds every placed rectangle, and it always holds the corner
    points of its initial values: its left and top sides are at most
    [MAX_WIDTH] and [MAX_HEIGHT], its right and bottom sides at least 0, so
    that the box of the empty chromosome has the negative width
    [- MAX_WIDTH].  It is defined when the cluster has a rectangle for every
    gene and no sum leaves the range of [int]. *)
Theorem boundingBox_encloses (rectangles : list (Z * Z)) chromosome :
  (forall bb,
     boundingBox rectangles chromosome = Some bb ->
     (x bb.1 <= MAX_WIDTH /\ y bb.1 <= MAX_HEIGHT
      /\ 0 <= x bb.2 /\ 0 <= y bb.2)%Z
     /\ forall k g,
          chromosome !! k = Some g ->
          exists rect,
            rectangles !! k = Some rect
            /\ (x bb.1 <= x g /\ x g + rect.1 <= x bb.2
                /\ y bb.1 <= y g /\ y g + rect.2 <= y bb.2)%Z)
  /\ boundingBox rectangles []
     = Some (QPoint MAX_WIDTH MAX_HEIGHT, QPoint 0 0)
  /\ (length chromosome <= length rectangles ->
      Forall (fun g => (0 <= x g <= MAX_WIDTH /\ 0 <= y g <= MAX_HEIGHT)%Z)
        chromosome ->
      Forall (fun rect => (0 <= rect.1 <= 2 ^ 30 /\ 0 <= rect.2 <= 2 ^ 30)%Z)
        rectangles ->
      exists bb, boundingBox rectangles chromosome = Some bb).
Proof.
  split; [|split; [reflexivity|]].
  - intros bb. unfold boundingBox.
    destruct (boundingBox_loop rectangles 0 chromosome
                (MAX_WIDTH, 0%Z, MAX_HEIGHT, 0%Z))
      as [[[[xmin xmax] ymin] ymax]|] eqn:Hloop; [|discriminate].
    intros [= <-]. cbn [fst snd x y].
    apply boundingBox_loop_spec in Hloop as [Hwide Hall].
    split; [lia|exact Hall].
  - intros Hlen Hgenes Hrects. unfold boundingBox.
    assert (Hloop : forall genes i state,
              i + length genes <= length rectangles ->
              Forall (fun g => (0 <= x g <= MAX_WIDTH
                                /\ 0 <= y g <= MAX_HEIGHT)%Z) genes ->
              exists state', boundingBox_loop rectangles i genes state
                             = Some state').
    { induction genes as [|g genes IH];
        intros i [[[xmin xmax] ymin] ymax] Hi Hall; simpl; [eauto|].
      apply Forall_cons in Hall as [[Hx Hy] Hall]. simpl in Hi.
      destruct (lookup_lt_is_Some_2 rectangles i) as [rect Hrect]; [lia|].
      rewrite Hrect.
      rewrite Forall_forall in Hrects.
      destruct (Hrects rect (list_elem_of_lookup_2 _ _ _ Hrect)) as [Hw Hh].
      unfold MAX_WIDTH, MAX_HEIGHT in *.
      unfold int_add.
      destruct (Z.leb_spec (- 2 ^ 31) (x g + rect.1)); [|lia].
      destruct (Z.leb_spec (x g + rect.1) (2 ^ 31 - 1)); [|lia].
      destruct (Z.leb_spec (- 2 ^ 31) (y g + rect.2)); [|lia].
      destruct (Z.leb_spec (y g + rect.2) (2 ^ 31 - 1)); [|lia].
      cbn [andb]. apply IH; [lia|exact Hall]. }
    destruct (Hloop chromosome 0 (MAX_WIDTH, 0%Z, MAX_HEIGHT, 0%Z))
      as [[[[xmin xmax] ymin] ymax] ->]; [simpl; lia|exact Hgenes|].
    eauto.
Qed.

End PackingProperties.

(** * Examples of the further properties *)

(** A logged run of two generations: four digit chromosomes, tournaments of
    two, threshold 9. *)
Lemma blocking_run_log_witness :
  exists v w' (lines : list LogLine) e,
    run 10 true true []
      (Digits.engine 4 MaxScore 9%Q Tournament 2 (1 # 2)%Q,
       mkRandom (fun n => (Z.of_nat (n * 7 + 3) # 3)%Q) 0) = Ok v w'
    /\ lastElement w'.1 = Some e
    /\ length lines = _generation w'.1.
Proof.
  destruct (run 10 true true []
              (Digits.engine 4 MaxScore 9%Q Tournament 2 (1 # 2)%Q,
               mkRandom (fun n => (Z.of_nat (n * 7 + 3) # 3)%Q) 0))
    as [v [a' r']|msg w'| |w'] eqn:Hrun;
    try (vm_compute in Hrun; discriminate).
  destruct (blocking_run_log _ _ _ _ _ _ _ Hrun)
    as (lines & e & He & _ & _ & Hlen & _).
  exists v, (a', r'), lines, e. auto.
Defined.

(** The same run without logging. *)
Lemma blocking_run_silent_witness :
  exists v w',
    run 10 true false []
      (Digits.engine 4 MaxScore 9%Q Tournament 2 (1 # 2)%Q,
       mkRandom (fun n => (Z.of_nat (n * 7 + 3) # 3)%Q) 0) = Ok v w'
    /\ _logStream w'.1 = [].
Proof.
  destruct (run 10 true false []
              (Digits.engine 4 MaxScore 9%Q Tournament 2 (1 # 2)%Q,
               mkRandom (fun n => (Z.of_nat (n * 7 + 3) # 3)%Q) 0))
    as [v [a' r']|msg w'| |w'] eqn:Hrun;
    try (vm_compute in Hrun; discriminate).
  destruct (blocking_run_silent _ _ _ _ _ _ _ Hrun) as (Hlog & _).
  exists v, (a', r'). auto.
Defined.

(** A tournament of two on a store of three. *)
Lemma select_from_store_witness :
  exists selected r',
    select 0
      (set_population [(0%Q, [0%Z]); (1%Q, [1%Z]); (2%Q, [2%Z])]
         (Digits.engine 3 BestScore 0%Q Tournament 2 0%Q))
      (mkRandom (Digits.stream [1; 2]%Q 0%Q) 0) = Ok selected r'
    /\ selected <> [].
Proof.
  destruct (select 0
              (set_population [(0%Q, [0%Z]); (1%Q, [1%Z]); (2%Q, [2%Z])]
                 (Digits.engine 3 BestScore 0%Q Tournament 2 0%Q))
              (mkRandom (Digits.stream [1; 2]%Q 0%Q) 0))
    as [selected r'|msg r'| |r'] eqn:Hsel;
    try (vm_compute in Hsel; discriminate).
  destruct (select_from_store _ _ _ _ _ Hsel) as [Hne _].
  exists selected, r'. auto.
Defined.

(** One generation of two chromosomes of one gene. *)
Lemma generation_keeps_lengths_witness :
  exists next w',
    generation 5 [[1%Z]; [0%Z]]
      (Digits.engine 2 BestScore 0%Q Tournament 1 0%Q, Digits.worst_twice)
    = Ok (Some next) w'
    /\ Forall (fun c' => length c' = 1) next.
Proof.
  destruct (generation 5 [[1%Z]; [0%Z]]
              (Digits.engine 2 BestScore 0%Q Tournament 1 0%Q,
               Digits.worst_twice))
    as [[next|] w'|msg w'| |w'] eqn:Hgen;
    try (vm_compute in Hgen; discriminate).
  exists next, w'. split; [reflexivity|].
  eapply Forall_impl; [exact (generation_keeps_lengths _ _ _ _ _ Hgen)|].
  intros c' (c & Hc & ->).
  apply elem_of_cons in Hc as [->|Hc]; [reflexivity|].
  apply elem_of_cons in Hc as [->|Hc]; [reflexivity|].
  apply elem_of_nil in Hc. contradiction.
Defined.

(** The chromosomes of the run of two generations have one gene. *)
Lemma run_chromosome_sizes_witness :
  exists w' c,
    run 10 true true []
      (Digits.engine 4 MaxScore 9%Q Tournament 2 (1 # 2)%Q,
       mkRandom (fun n => (Z.of_nat (n * 7 + 3) # 3)%Q) 0) = Ok None w'
    /\ best w'.1 = Some c /\ length c = 1.
Proof.
  destruct (run 10 true true []
              (Digits.engine 4 MaxScore 9%Q Tournament 2 (1 # 2)%Q,
               mkRandom (fun n => (Z.of_nat (n * 7 + 3) # 3)%Q) 0))
    as [[population|] [a' r']|msg w'| |w'] eqn:Hrun;
    try (vm_compute in Hrun; discriminate).
  destruct (run_chromosome_sizes _ _ _ _ _ _ _ _ _ Hrun)
    as (_ & _ & c & Hbest & Hmin & Hmax).
  exists (a', r'), c. split; [reflexivity|]. split; [exact Hbest|].
  simpl in Hmin, Hmax. lia.
Defined.

(** Chromosome sizes between 3 and 2. *)
Lemma run_with_inverted_sizes_witness :
  2 < 3
  /\ run 1 true false []
       (setChromosomesSize 3 2
          (Digits.engine 4 MaxScore 9%Q Tournament 2 (1 # 2)%Q), Digits.ones)
     = Fault.
Proof.
  split; [lia|].
  apply run_with_inverted_sizes; [lia|simpl; lia|reflexivity].
Defined.

(** The run of two generations reaches the threshold 9. *)
Lemma blocking_run_MaxScore_witness :
  _endCriterion (Digits.engine 4 MaxScore 9%Q Tournament 2 (1 # 2)%Q) = MaxScore
  /\ exists v w' c,
       run 10 true true []
         (Digits.engine 4 MaxScore 9%Q Tournament 2 (1 # 2)%Q,
          mkRandom (fun n => (Z.of_nat (n * 7 + 3) # 3)%Q) 0) = Ok v w'
       /\ best w'.1 = Some c /\ (9 <= score c)%Q.
Proof.
  split; [reflexivity|].
  destruct (run 10 true true []
              (Digits.engine 4 MaxScore 9%Q Tournament 2 (1 # 2)%Q,
               mkRandom (fun n => (Z.of_nat (n * 7 + 3) # 3)%Q) 0))
    as [v [a' r']|msg w'| |w'] eqn:Hrun;
    try (vm_compute in Hrun; discriminate).
  destruct (blocking_run_MaxScore 10 true []
              (Digits.engine 4 MaxScore 9%Q Tournament 2 (1 # 2)%Q)
              _ _ _ _ eq_refl Hrun)
    as (_ & c & Hbest & Hle).
  exists v, (a', r'), c. auto.
Defined.

(** Two chromosomes that never change: the run stops after the eleventh
    scoring. *)
Lemma blocking_run_BestScore_witness :
  _endCriterion (Digits.engine 2 BestScore 0%Q Tournament 1 0%Q) = BestScore
  /\ exists v w',
       run 12 true true []
         (Digits.engine 2 BestScore 0%Q Tournament 1 0%Q, Digits.ones)
       = Ok v w'
       /\ 10 <= _generation w'.1
       /\ length (_lastScores w'.1) = 10.
Proof.
  split; [reflexivity|].
  destruct (run 12 true true []
              (Digits.engine 2 BestScore 0%Q Tournament 1 0%Q, Digits.ones))
    as [v [a' r']|msg w'| |w'] eqn:Hrun;
    try (vm_compute in Hrun; discriminate).
  destruct (blocking_run_BestScore 12 true []
              (Digits.engine 2 BestScore 0%Q Tournament 1 0%Q)
              _ _ _ _ eq_refl Hrun)
    as (Hgen & Hlen & _).
  exists v, (a', r'). auto.
Defined.

(** Stochastic universal sampling on an empty store. *)
Lemma select_StochasticUniversal_edges_witness :
  _selectionType (Digits.engine 3 BestScore 0%Q StochasticUniversal 0 0%Q)
  = StochasticUniversal
  /\ select 5 (Digits.engine 3 BestScore 0%Q StochasticUniversal 0 0%Q)
       Digits.ones = Fault.
Proof.
  split; [reflexivity|].
  destruct (select_StochasticUniversal_edges
              (Digits.engine 3 BestScore 0%Q StochasticUniversal 0 0%Q)
              Digits.ones eq_refl) as (Hsmall & _).
  apply Hsmall. simpl. lia.
Defined.

(** Crossing 1 2 3 with 4 5 on the engine of ones exchanges the first
    gene. *)
Lemma cross_exchanges_witness :
  exists result r' genes,
    cross 5 [[1; 2; 3]; [4; 5]]%Z Digits.ones = Ok result r'
    /\ cross_select 5 2 0 true [] Digits.ones = Ok genes r'
    /\ StronglySorted lt genes.
Proof.
  destruct (cross 5 [[1; 2; 3]; [4; 5]]%Z Digits.ones)
    as [result r'|msg r'| |r'] eqn:Hcross;
    try (vm_compute in Hcross; discriminate).
  destruct (cross_exchanges _ _ _ _ _ _ Hcross)
    as (genes & x' & y' & Hsel & Hsorted & _).
  exists result, r', genes. auto.
Defined.

(** The engine of the run of two generations is well configured. *)
Lemma run_is_safe_witness :
  well_configured (Digits.engine 4 MaxScore 9%Q Tournament 2 (1 # 2)%Q)
  /\ run 0 true true []
       (Digits.engine 4 MaxScore 9%Q Tournament 2 (1 # 2)%Q, Digits.ones)
     <> Fault.
Proof.
  assert (Hwell : well_configured
                    (Digits.engine 4 MaxScore 9%Q Tournament 2 (1 # 2)%Q)).
  { split; [simpl; lia|]. split; [simpl; lia|].
    split; [left; split; [reflexivity|simpl; lia]|].
    left. reflexivity. }
  split; [exact Hwell|].
  pose proof (run_is_safe 0 true true []
                (Digits.engine 4 MaxScore 9%Q Tournament 2 (1 # 2)%Q)
                Digits.ones Hwell) as Hsafe.
  intros Hfault. rewrite Hfault in Hsafe. exact Hsafe.
Defined.

(** The number 163. *)
Lemma chromosome_of_number_witness :
  (0 <= 163 < 2 ^ 64)%Z
  /\ FindNumber.chromosomeToNumber (FindNumber.numberToChromosome 163)
     = Some 163%Z.
Proof.
  split; [lia|].
  destruct (FindNumberProperties.chromosome_of_number 163 ltac:(lia))
    as (_ & _ & Hback & _).
  exact Hback.
Defined.

(** The number 7, found in the first generation by a generator that gives
    every chromosome one gene, the digit 7. *)
Lemma main_finds_objective_witness :
  (0 <= 7 < 2 ^ 64)%Z
  /\ exists w',
       FindNumber.main 1 7 0%Q 0 0
         (mkRandom (fun n => if Nat.even n then 0%Q else 7%Q) 0)
       = Ok true w'.
Proof.
  split; [lia|].
  pose proof (FindNumberProperties.main_finds_objective 1 7 0%Q 0 0
                (mkRandom (fun n => if Nat.even n then 0%Q else 7%Q) 0)
                ltac:(lia)) as Hmain.
  destruct (FindNumber.main 1 7 0%Q 0 0
              (mkRandom (fun n => if Nat.even n then 0%Q else 7%Q) 0))
    as [found w'|msg w'| |w'] eqn:Hrun;
    try contradiction; try (vm_compute in Hrun; discriminate).
  destruct Hmain as [-> _]. exists w'. reflexivity.
Defined.

(** An engine that has run before and a fresh one. *)
Lemma run_resets_the_engine_witness :
  same_configuration
    (Digits.engine 4 MaxScore 9%Q Tournament 2 (1 # 2)%Q)
    (set_generation 5
       (set_population [(1%Q, [1%Z])]
          (Digits.engine 4 MaxScore 9%Q Tournament 2 (1 # 2)%Q)))
  /\ run 10 true true []
       (set_generation 5
          (set_population [(1%Q, [1%Z])]
             (Digits.engine 4 MaxScore 9%Q Tournament 2 (1 # 2)%Q)),
        mkRandom (fun n => (Z.of_nat (n * 7 + 3) # 3)%Q) 0)
     = run 10 true true []
         (Digits.engine 4 MaxScore 9%Q Tournament 2 (1 # 2)%Q,
          mkRandom (fun n => (Z.of_nat (n * 7 + 3) # 3)%Q) 0).
Proof.
  assert (Hconf : same_configuration
                    (Digits.engine 4 MaxScore 9%Q Tournament 2 (1 # 2)%Q)
                    (set_generation 5
                       (set_population [(1%Q, [1%Z])]
                          (Digits.engine 4 MaxScore 9%Q Tournament 2
                             (1 # 2)%Q)))) by (repeat split).
  split; [exact Hconf|].
  pose proof (run_resets_the_engine 9 true []
                (Digits.engine 4 MaxScore 9%Q Tournament 2 (1 # 2)%Q) _
                (mkRandom (fun n => (Z.of_nat (n * 7 + 3) # 3)%Q) 0) Hconf)
    as Hrun.
  destruct (run 10 true true []
              (Digits.engine 4 MaxScore 9%Q Tournament 2 (1 # 2)%Q,
               mkRandom (fun n => (Z.of_nat (n * 7 + 3) # 3)%Q) 0))
    as [v w'|msg w'| |w'] eqn:Hfresh;
    try exact Hrun; vm_compute in Hfresh; discriminate.
Defined.

(** The engine of the constructor with two choices of its uninitialised
    fields. *)
Lemma uninitialised_fields_are_not_read_witness :
  run 1 false false [] (GeneticAlgorithm_new 5%Q 6 7, Digits.ones)
  = on_engine (fun a' => with_maxEndScore 5%Q (with_steadyGenerations 6 a'))
      (run 1 false false [] (GeneticAlgorithm_new 0%Q 0 0, Digits.ones)).
Proof.
  exact (uninitialised_fields_are_not_read 1 false false [] 5%Q 6 7
           (GeneticAlgorithm_new 0%Q 0 0) Digits.ones eq_refl eq_refl).
Defined.

(** A population of 0 under the roulette wheel. *)
Lemma run_with_empty_population_witness :
  tournament_too_large
    (setMainParameters 0 0%Q
       (Digits.engine 4 MaxScore 9%Q RouletteWheel 2 (1 # 2)%Q)) = false
  /\ run 1 true false []
       (setMainParameters 0 0%Q
          (Digits.engine 4 MaxScore 9%Q RouletteWheel 2 (1 # 2)%Q),
        Digits.ones) = Fault.
Proof.
  split; [reflexivity|].
  destruct (run_with_empty_population 0 false [] 0%Q
              (Digits.engine 4 MaxScore 9%Q RouletteWheel 2 (1 # 2)%Q)
              Digits.ones eq_refl) as [Hblocking _].
  apply Hblocking. discriminate.
Defined.
